(** * Eikonal target function: a shallow embedding of [src/eikonal.py]

    The development embeds the three layers of [eikonal.py]:
    [_apply_update] (the pair reducer), [eikonal_single_step] (one update of
    the field) and [solve_eikonal] (the fixed-point driver), together with
    [gradient_from_eikonal].

    Tensors are a shape together with an index function.  Tensor elements are
    idealised as real numbers; the two special floating-point values the
    driver creates itself (the initial error [float("inf")] and the mean of an
    empty tensor) are kept explicit in [pyfloat], and the [inf] that the
    gradient writes into its magnitude table in [ereal].  Every PyTorch or
    Python operation that can raise is modelled in the [result] monad.

    The functions are embedded twice: as functions on tensor values, on which
    the numerical properties are proved, and in module [Heap] as computations
    on a store of mutable tensors, on which the absence of mutation of the
    inputs is proved.  The two are shown to compute the same results. *)

From Stdlib Require Import List ZArith Reals Lra Lia Bool Permutation Sorted.
Import ListNotations.
Open Scope R_scope.

(** ** Exceptions and the error monad *)

Inductive exn : Type :=
| UnsupportedDimension (d : Z)  (* the RuntimeError of the two dimension checks *)
| ShapeError                    (* RuntimeError: shapes do not broadcast, stack, concat or view *)
| IndexError                    (* index or dim out of range *)
| ZeroDivisionError             (* Python [1 / 0] *)
| SamplerError                  (* raised inside [binary_convolution] *)
| TypeError                     (* a tensor of another dtype *)
| FuelExhausted.                (* artefact of the bounded loop; proved unreachable *)

Inductive result (A : Type) : Type :=
| Ok (a : A)
| Raise (e : exn).
Arguments Ok {A} a.
Arguments Raise {A} e.

Definition bind {A B} (m : result A) (k : A -> result B) : result B :=
  match m with
  | Ok a => k a
  | Raise e => Raise e
  end.

Notation "x <- m ;; k" := (bind m (fun x => k))
  (at level 61, m at next level, right associativity).

Fixpoint mapM {A B} (f : A -> result B) (l : list A) : result (list B) :=
  match l with
  | [] => Ok []
  | a :: l' => b <- f a ;; bs <- mapM f l' ;; Ok (b :: bs)
  end.

Fixpoint foldM {A B} (f : B -> A -> result B) (l : list A) (b : B) : result B :=
  match l with
  | [] => Ok b
  | a :: l' => b' <- f b a ;; foldM f l' b'
  end.

(** ** Scalars *)

Definition Rltb (x y : R) : bool := if Rlt_dec x y then true else false.
Definition Rgtb (x y : R) : bool := if Rgt_dec x y then true else false.
Definition Rneb (x y : R) : bool := if Req_dec_T x y then false else true.
Definition Reqb (x y : R) : bool := if Req_dec_T x y then true else false.

(** A boolean used as a number, as PyTorch does when a float tensor is
    multiplied by a bool tensor. *)
Definition of_bool (b : bool) : R := if b then 1 else 0.
Definition mul_bool (x : R) (b : bool) : R := x * of_bool b.

(** Python floats that need not be finite: [eps] and [error] of the driver. *)
Inductive pyfloat : Type :=
| Fin (x : R)
| PInf
| NInf
| NaN.

(** [a > b] on Python floats: every comparison with NaN is false. *)
Definition pygt (a b : pyfloat) : bool :=
  match a, b with
  | NaN, _ | _, NaN => false
  | PInf, PInf => false
  | PInf, _ => true
  | NInf, _ => false
  | Fin _, PInf => false
  | Fin _, NInf => true
  | Fin x, Fin y => Rgtb x y
  end.

(** Python list indexing with a possibly negative index. *)
Definition py_getitem {A} (l : list A) (i : Z) : result A :=
  let j := if (i <? 0)%Z then (Z.of_nat (length l) + i)%Z else i in
  if (j <? 0)%Z then Raise IndexError
  else match nth_error l (Z.to_nat j) with
       | Some a => Ok a
       | None => Raise IndexError
       end.

(** Python [1 / d] for an integer [d]. *)
Definition py_inv (d : Z) : result R :=
  if (d =? 0)%Z then Raise ZeroDivisionError else Ok (1 / IZR d).

(** ** Tensors *)

Definition index := list nat.

Record Tensor (A : Type) : Type := mkTensor {
  shape : list nat;
  data : index -> A
}.
Arguments mkTensor {A} shape data.
Arguments shape {A} t.
Arguments data {A} t idx.

Definition ndim {A} (t : Tensor A) : nat := length (shape t).

Definition insert_at {A} (d : nat) (x : A) (l : list A) : list A :=
  firstn d l ++ x :: skipn d l.

Definition remove_at {A} (d : nat) (l : list A) : list A :=
  firstn d l ++ skipn (S d) l.

Definition set_at {A} (d : nat) (x : A) (l : list A) : list A :=
  firstn d l ++ x :: skipn (S d) l.

(** [idx] addresses an element of a tensor of shape [s]. *)
Definition in_range (s : list nat) (idx : index) : Prop :=
  Forall2 (fun i n => (i < n)%nat) idx s.

(** All indices of a shape, in row-major order. *)
Fixpoint all_indices (s : list nat) : list index :=
  match s with
  | [] => [[]]
  | n :: s' => flat_map (fun i => map (cons i) (all_indices s')) (seq 0 n)
  end.

Definition numel (s : list nat) : nat := fold_right Nat.mul 1%nat s.

Definition Rsum (l : list R) : R := fold_right Rplus 0 l.

(** *** Elementwise operations and broadcasting *)

Definition tmap {A B} (f : A -> B) (t : Tensor A) : Tensor B :=
  mkTensor (shape t) (fun idx => f (data t idx)).

Definition ones_like {A} (t : Tensor A) : Tensor R :=
  mkTensor (shape t) (fun _ => 1).

Definition pad_shape (n : nat) (s : list nat) : list nat :=
  repeat 1%nat (n - length s) ++ s.

Definition broadcast_dim (a b : nat) : option nat :=
  if (a =? b)%nat then Some a
  else if (a =? 1)%nat then Some b
  else if (b =? 1)%nat then Some a
  else None.

Fixpoint broadcast_dims (s1 s2 : list nat) : option (list nat) :=
  match s1, s2 with
  | [], [] => Some []
  | a :: s1', b :: s2' =>
      match broadcast_dim a b, broadcast_dims s1' s2' with
      | Some c, Some r => Some (c :: r)
      | _, _ => None
      end
  | _, _ => None
  end.

(** PyTorch broadcasting: shapes are aligned at their last axis, missing
    leading axes count as 1, and an axis of size 1 stretches. *)
Definition broadcast_shapes (s1 s2 : list nat) : option (list nat) :=
  let n := Nat.max (length s1) (length s2) in
  broadcast_dims (pad_shape n s1) (pad_shape n s2).

Fixpoint expand_index (s : list nat) (idx : index) : index :=
  match s, idx with
  | n :: s', i :: idx' => (if (n =? 1)%nat then 0%nat else i) :: expand_index s' idx'
  | _, _ => []
  end.

(** The index at which an operand of shape [s] is read when the broadcast
    result is read at [idx]. *)
Definition bidx (s : list nat) (idx : index) : index :=
  expand_index s (skipn (length idx - length s) idx).

Definition broadcast2 {A B C} (f : A -> B -> C) (t1 : Tensor A) (t2 : Tensor B)
  : result (Tensor C) :=
  match broadcast_shapes (shape t1) (shape t2) with
  | Some s =>
      Ok (mkTensor s (fun idx =>
            f (data t1 (bidx (shape t1) idx)) (data t2 (bidx (shape t2) idx))))
  | None => Raise ShapeError
  end.

Fixpoint shape_eqb (s1 s2 : list nat) : bool :=
  match s1, s2 with
  | [], [] => true
  | a :: s1', b :: s2' => (a =? b)%nat && shape_eqb s1' s2'
  | _, _ => false
  end.

(** An in-place operation [t1.op_(t2)]: the broadcast result must have the
    shape of [t1]. *)
Definition inplace2 {A B} (f : A -> B -> A) (t1 : Tensor A) (t2 : Tensor B)
  : result (Tensor A) :=
  match broadcast_shapes (shape t1) (shape t2) with
  | Some s =>
      if shape_eqb s (shape t1)
      then Ok (mkTensor s (fun idx =>
                 f (data t1 (bidx (shape t1) idx)) (data t2 (bidx (shape t2) idx))))
      else Raise ShapeError
  | None => Raise ShapeError
  end.

(** [t[cond] = v] with a boolean mask of the shape of [t]. *)
Definition masked_fill {A} (t : Tensor A) (cond : Tensor bool) (v : A)
  : result (Tensor A) :=
  if shape_eqb (shape cond) (shape t)
  then Ok (mkTensor (shape t) (fun idx => if data cond idx then v else data t idx))
  else Raise IndexError.

(** *** Indexing, stacking and reductions *)

(** [t.select(d, k)], written [t[:, :, k, ...]] for [d = 2]. *)
Definition select {A} (d k : nat) (t : Tensor A) : result (Tensor A) :=
  if ((d <? ndim t) && (k <? nth d (shape t) 0))%nat
  then Ok (mkTensor (remove_at d (shape t)) (fun idx => data t (insert_at d k idx)))
  else Raise IndexError.

(** [t[-1, ...]]. *)
Definition select_last {A} (t : Tensor A) : result (Tensor A) :=
  match shape t with
  | S n :: _ => select 0 n t
  | _ => Raise IndexError
  end.

Definition unsqueeze {A} (d : nat) (t : Tensor A) : result (Tensor A) :=
  if (d <=? ndim t)%nat
  then Ok (mkTensor (insert_at d 1%nat (shape t)) (fun idx => data t (remove_at d idx)))
  else Raise IndexError.

Definition same_shapes {A} (s : list nat) (ts : list (Tensor A)) : bool :=
  forallb (fun t => shape_eqb (shape t) s) ts.

(** [torch.stack(ts)]: a new leading axis. *)
Definition stack {A} (dflt : A) (ts : list (Tensor A)) : result (Tensor A) :=
  match ts with
  | [] => Raise ShapeError
  | t0 :: _ =>
      if same_shapes (shape t0) ts
      then Ok (mkTensor (length ts :: shape t0)
                 (fun idx => match idx with
                             | k :: idx' => data (nth k ts t0) idx'
                             | [] => dflt
                             end))
      else Raise ShapeError
  end.

(** The values along axis 0 at the position [idx] of the remaining axes. *)
Definition column {A} (t : Tensor A) (idx : index) : list A :=
  map (fun k => data t (k :: idx)) (seq 0 (hd 0%nat (shape t))).

Fixpoint Rinsert (x : R) (l : list R) : list R :=
  match l with
  | [] => [x]
  | y :: l' => if Rle_dec x y then x :: l else y :: Rinsert x l'
  end.

Definition Rsort (l : list R) : list R := fold_right Rinsert [] l.

(** [torch.sort(t, dim=0)], values only, ascending. *)
Definition sort0 (t : Tensor R) : Tensor R :=
  match shape t with
  | [] => t
  | _ :: _ =>
      mkTensor (shape t)
        (fun idx => match idx with
                    | k :: idx' => nth k (Rsort (column t idx')) 0
                    | [] => 0
                    end)
  end.

(** The values along axis [d] at the position [idx] of the remaining axes. *)
Definition fibre {A} (d : nat) (t : Tensor A) (idx : index) : list A :=
  map (fun k => data t (insert_at d k idx)) (seq 0 (nth d (shape t) 0%nat)).

(** A reduction [t.sum(dim=d)] for the addition [add]. *)
Definition reduce_dim {A} (add : A -> A -> A) (zero : A) (d : nat) (t : Tensor A)
  : result (Tensor A) :=
  if (d <? ndim t)%nat
  then Ok (mkTensor (remove_at d (shape t))
             (fun idx => fold_right add zero (fibre d t idx)))
  else Raise IndexError.

Definition sum_dim : nat -> Tensor R -> result (Tensor R) := reduce_dim Rplus 0.

(** [t.mean(d)]. *)
Definition mean_dim (d : nat) (t : Tensor R) : result (Tensor R) :=
  s <- sum_dim d t ;;
  Ok (tmap (fun x => x / INR (nth d (shape t) 0%nat)) s).

(** [t.mean()] over all elements; NaN for an empty tensor. *)
Definition mean_all (t : Tensor R) : pyfloat :=
  match numel (shape t) with
  | O => NaN
  | S _ => Fin (Rsum (map (data t) (all_indices (shape t))) / INR (numel (shape t)))
  end.

(** ** The pair reducer: [_apply_update] *)

(** Line 32: [(minimum_paired - minimum_paired[-1, ...]) < f], on the sorted
    stack. *)
Definition upwind_mask (minimum_paired : Tensor R) (f : R) : result (Tensor bool) :=
  largest <- select_last minimum_paired ;;
  diff <- broadcast2 Rminus minimum_paired largest ;;
  Ok (tmap (fun x => Rltb x f) diff).

Definition _apply_update (minimum_paired : Tensor R) (f : R) : result (Tensor R) :=
  let d : Z := (Z.of_nat (ndim minimum_paired) - 3)%Z in
  let minimum_paired := sort0 minimum_paired in
  keep <- upwind_mask minimum_paired f ;;
  a <- broadcast2 mul_bool minimum_paired keep ;;
  sum_a <- sum_dim 0 a ;;
  sum_a2 <- sum_dim 0 (tmap (fun x => x ^ 2) a) ;;
  inv_d <- py_inv d ;;
  disc <- broadcast2 Rminus (tmap (fun x => x ^ 2) sum_a)
            (tmap (fun x => IZR d * x) (tmap (fun x => x - f ^ 2) sum_a2)) ;;
  inner <- broadcast2 Rplus sum_a (tmap sqrt (tmap (Rmax 0) disc)) ;;
  Ok (tmap (fun x => inv_d * x) inner).

(** [t.gt(0)]. *)
Definition gt0 (t : Tensor R) : Tensor bool := tmap (fun x => Rgtb x 0) t.

(** ** One iteration: [eikonal_single_step] *)

Definition factors_2d : list R := [0; 1; sqrt 2].
Definition index_list_2d : list (list nat) :=
  [[4]; [1; 3; 5; 7]; [0; 2; 6; 8]]%nat.

Definition factors_3d : list R := [0; 1; sqrt 2; sqrt 3].
Definition index_list_3d : list (list nat) :=
  [[13];
   [4; 10; 12; 14; 16; 22];
   [1; 3; 5; 7; 9; 11; 15; 17; 19; 21; 23; 25];
   [0; 2; 6; 8; 18; 20; 24; 26]]%nat.

(** The [if / elif / else] on [connected_components.ndim]. *)
Definition direction_tables (nd : nat) : result (list R * list (list nat)) :=
  if (nd =? 5)%nat then Ok (factors_2d, index_list_2d)
  else if (nd =? 6)%nat then Ok (factors_3d, index_list_3d)
  else Raise (UnsupportedDimension (Z.of_nat nd - 3)).

(** [torch.minimum(cc[:, :, ind[i], ...], cc[:, :, ind[-(i + 1)], ...])]. *)
Definition pair_minimum (connected_components : Tensor R) (ind : list nat) (i : nat)
  : result (Tensor R) :=
  lo <- py_getitem ind (Z.of_nat i) ;;
  x <- select 2 lo connected_components ;;
  hi <- py_getitem ind (- (Z.of_nat i + 1)) ;;
  y <- select 2 hi connected_components ;;
  broadcast2 Rmin x y.

(** The body of the [for ind, f in zip(...)] loop. *)
Definition class_update (connected_components : Tensor R) (phi : Tensor R)
  (cls : list nat * R) : result (Tensor R) :=
  let '(ind, f) := cls in
  let n_pair := (length ind / 2)%nat in
  pairs <- mapM (pair_minimum connected_components ind) (seq 0 n_pair) ;;
  minimum_paired <- stack 0 pairs ;;
  u <- _apply_update minimum_paired f ;;
  inplace2 Rmult phi u.

Definition eikonal_single_step (connected_components : Tensor R) : result (Tensor R) :=
  tables <- direction_tables (ndim connected_components) ;;
  let '(factors, index_list) := tables in
  first <- select 2 0 connected_components ;;
  let phi := ones_like first in
  phi <- foldM (class_update connected_components)
               (combine (tl index_list) (tl factors)) phi ;;
  Ok (tmap sqrt phi).

(** ** The fixed-point driver: [solve_eikonal] *)

Record loop_state : Type := mkState {
  st_T : Tensor R;
  st_T0 : Tensor R;
  st_t : Z;
  st_error : pyfloat
}.

Section Driver.

(** [src.morphology.binary_convolution(., padding_mode="replicate")], which
    is imported by [eikonal.py] and not part of it. *)
Variable binary_convolution : Tensor R -> result (Tensor R).

(** Lines 129-135: the affinity mask. *)
Definition make_affinity_mask (instance_mask : Tensor R) : result (Tensor bool) :=
  affinity_mask <- binary_convolution instance_mask ;;
  centre <- unsqueeze 2 instance_mask ;;
  differs <- broadcast2 Rneb affinity_mask centre ;;
  affinity_mask <- masked_fill affinity_mask differs 0 ;;
  Ok (gt0 affinity_mask).

(** Lines 154-156: [binary_convolution(T, "replicate").mul(affinity_mask).mean(2)]. *)
Definition smooth (affinity_mask : Tensor bool) (T : Tensor R) : result (Tensor R) :=
  neighbours <- binary_convolution T ;;
  masked <- broadcast2 mul_bool neighbours affinity_mask ;;
  mean_dim 2 masked.

(** Lines 145-149: one update of the field, background zeroed. *)
Definition update_pass (affinity_mask semantic_mask : Tensor bool) (T : Tensor R)
  : result (Tensor R) :=
  neighbours <- binary_convolution T ;;
  connected <- broadcast2 mul_bool neighbours affinity_mask ;;
  T <- eikonal_single_step connected ;;
  inplace2 mul_bool T semantic_mask.

(** Lines 145-159: the body of the [while] loop. *)
Definition loop_body (affinity_mask semantic_mask : Tensor bool) (st : loop_state)
  : result loop_state :=
  T <- update_pass affinity_mask semantic_mask (st_T st) ;;
  diff <- broadcast2 Rminus T (st_T0 st) ;;
  let error := mean_all (tmap (fun x => x * x) diff) in
  T <- (if (st_t st <? 1)%Z then smooth affinity_mask T else Ok T) ;;
  T0 <- inplace2 (fun _ x => x) (st_T0 st) T ;;
  Ok (mkState T T0 (st_t st + 1) error).

(** Line 143: [error > eps and t < min_steps]. *)
Definition loop_guard (eps : pyfloat) (min_steps : Z) (st : loop_state) : bool :=
  pygt (st_error st) eps && (st_t st <? min_steps)%Z.

(** The [while] loop.  [t] grows by one in every pass and the guard demands
    [t < min_steps], so [min_steps - t] passes of fuel are always enough
    (lemma [solve_loop_fuel]). *)
Fixpoint solve_loop (fuel : nat) (affinity_mask semantic_mask : Tensor bool)
  (eps : pyfloat) (min_steps : Z) (st : loop_state) : result loop_state :=
  if loop_guard eps min_steps st then
    match fuel with
    | O => Raise FuelExhausted
    | S fuel' =>
        st' <- loop_body affinity_mask semantic_mask st ;;
        solve_loop fuel' affinity_mask semantic_mask eps min_steps st'
    end
  else Ok st.

(** The driver up to the end of the loop; [solve_eikonal] returns its [T]. *)
Definition solve_eikonal_state (instance_mask : Tensor R) (eps : pyfloat)
  (min_steps : Z) : result loop_state :=
  affinity_mask <- make_affinity_mask instance_mask ;;
  let semantic_mask := gt0 instance_mask in
  let T := ones_like instance_mask in
  let T0 := ones_like instance_mask in
  solve_loop (Z.to_nat min_steps) affinity_mask semantic_mask eps min_steps
    (mkState T T0 0 PInf).

Definition solve_eikonal (instance_mask : Tensor R) (eps : pyfloat) (min_steps : Z)
  : result (Tensor R) :=
  st <- solve_eikonal_state instance_mask eps min_steps ;;
  Ok (st_T st).

End Driver.

(** The coordinate [x + o] of an axis of size [n], clamped to the grid. *)
Definition clamp_coord (n x : nat) (o : Z) : nat :=
  Z.to_nat (Z.max 0 (Z.min (Z.of_nat n - 1) (Z.of_nat x + o))).

(** The pixel that the neighbour with raster index [k] of the pixel [xs]
    reads: the base-3 digits of [k] are the offsets -1, 0, 1 along the axes,
    the last axis varying fastest. *)
Fixpoint shift_index (dims : list nat) (xs : index) (k : nat) : index :=
  match dims, xs with
  | n :: dims', x :: xs' =>
      clamp_coord n x (Z.of_nat ((k / 3 ^ length dims') mod 3) - 1)
        :: shift_index dims' xs' k
  | _, _ => []
  end.

(** The shape (batch, channel, 3^d, spatial...) of the neighbour stack of a
    field of shape (batch, channel, spatial...). *)
Definition stack_shape (s : list nat) : list nat :=
  match s with
  | b :: c :: spatial => b :: c :: (3 ^ length spatial)%nat :: spatial
  | _ => s
  end.

(** Modelled from the spec: [binary_convolution] lives in [src/morphology.py],
    which is not part of the sources.  The spec's Neighborhood Sampler maps a
    field of shape (batch, channel, spatial...) to a neighbour stack of shape
    (batch, channel, 3^d, spatial...) holding at every pixel the value of each
    lattice offset in raster order, out-of-grid reads returning the nearest
    in-grid value.  The driver and the gradient take the sampler as a
    parameter; this instance serves the concrete runs, which are on fields
    of spatial rank 2 and 3 only: the spec says nothing of other ranks
    ([binary_convolution_supported] below fails there). *)
Definition binary_convolution_replicate (t : Tensor R) : result (Tensor R) :=
  match shape t with
  | _ :: _ :: spatial =>
      Ok (mkTensor (stack_shape (shape t))
            (fun idx => match idx with
                        | b :: c :: k :: xs => data t (b :: c :: shift_index spatial xs k)
                        | _ => 0
                        end))
  | _ => Raise SamplerError
  end.

(** ** The gradient reconstructor: [gradient_from_eikonal] *)

(** A float that is finite or [float('inf')]: the elements of
    [vector_magnitude]. *)
Inductive ereal : Type :=
| Finite (x : R)
| Infinity.

Definition escale (c : R) (m : ereal) : ereal :=
  match m with
  | Finite x => Finite (c * x)
  | Infinity => Infinity
  end.

Definition esquare (m : ereal) : ereal :=
  match m with
  | Finite x => Finite (x ^ 2)
  | Infinity => Infinity
  end.

(** A finite number divided by a magnitude: [x / inf] is [0]. *)
Definition ediv (x : R) (m : ereal) : R :=
  match m with
  | Finite y => x / y
  | Infinity => 0
  end.

Definition zeros {A} (zero : A) (s : list nat) : Tensor A :=
  mkTensor s (fun _ => zero).

Fixpoint in_rangeb (s : list nat) (idx : index) : bool :=
  match s, idx with
  | [], [] => true
  | n :: s', i :: idx' => (i <? n)%nat && in_rangeb s' idx'
  | _, _ => false
  end.

(** [t[idx] = v] for a full index. *)
Definition setitem {A} (t : Tensor A) (idx : index) (v : A) : result (Tensor A) :=
  if in_rangeb (shape t) idx
  then Ok (mkTensor (shape t) (fun j => if shape_eqb j idx then v else data t j))
  else Raise IndexError.

Fixpoint ravel (s : list nat) (idx : index) : nat :=
  match s, idx with
  | _ :: s', i :: idx' => (i * numel s' + ravel s' idx')%nat
  | _, _ => 0%nat
  end.

Fixpoint unravel (s : list nat) (p : nat) : index :=
  match s with
  | [] => []
  | n :: s' => ((p / numel s') mod n)%nat :: unravel s' (p mod numel s')
  end.

(** [t.view(new_shape)] of a contiguous tensor. *)
Definition view {A} (new_shape : list nat) (t : Tensor A) : result (Tensor A) :=
  if (numel new_shape =? numel (shape t))%nat
  then Ok (mkTensor new_shape (fun idx => data t (unravel (shape t) (ravel new_shape idx))))
  else Raise ShapeError.

(** [torch.concat((t1, t2), dim=d)]. *)
Definition concat2 {A} (d : nat) (t1 t2 : Tensor A) : result (Tensor A) :=
  if ((d <? ndim t1) && shape_eqb (remove_at d (shape t1)) (remove_at d (shape t2))
      && (ndim t1 =? ndim t2))%nat
  then
    let n1 := nth d (shape t1) 0%nat in
    let n2 := nth d (shape t2) 0%nat in
    Ok (mkTensor (set_at d (n1 + n2)%nat (shape t1))
          (fun idx =>
             let i := nth d idx 0%nat in
             if (i <? n1)%nat then data t1 idx else data t2 (set_at d (i - n1)%nat idx)))
  else Raise ShapeError.

(** [t.flip(d)]. *)
Definition flip {A} (d : nat) (t : Tensor A) : result (Tensor A) :=
  if (d <? ndim t)%nat
  then Ok (mkTensor (shape t)
             (fun idx => data t (set_at d (nth d (shape t) 0 - 1 - nth d idx 0)%nat idx)))
  else Raise IndexError.

(** The values [(i, j, k)] of the three nested [for] loops, in the order the
    loops visit them. *)
Definition direction_triples (spatial_dim : Z) : list (Z * Z * Z) :=
  flat_map (fun k => flat_map (fun j => map (fun i => (i, j, k)) [-1; 0; 1]%Z)
                              [-1; 0; 1]%Z)
           (if (spatial_dim =? 3)%Z then [1; 0; -1]%Z else [0%Z]).

(** The body of the innermost loop, lines 191-196. *)
Definition fill_direction (spatial_dim : Z) (acc : Tensor Z * nat) (ijk : Z * Z * Z)
  : result (Tensor Z * nat) :=
  let '(vector_direction, ind) := acc in
  let '(i, j, k) := ijk in
  vector_direction <- setitem vector_direction [ind; 0%nat] i ;;
  vector_direction <- setitem vector_direction [ind; 1%nat] j ;;
  vector_direction <- (if (spatial_dim =? 3)%Z
                       then setitem vector_direction [ind; 2%nat] k
                       else Ok vector_direction) ;;
  Ok (vector_direction, S ind).

Section Gradient.

Variable binary_convolution : Tensor R -> result (Tensor R).

Definition gradient_from_eikonal (eikonal : Tensor R) : result (Tensor R) :=
  let spatial_dim : Z := (Z.of_nat (ndim eikonal) - 2)%Z in
  if ((spatial_dim <? 2) || (spatial_dim >? 3))%Z
  then Raise (UnsupportedDimension spatial_dim)
  else
    let sd := Z.to_nat spatial_dim in
    filled <- foldM (fill_direction spatial_dim) (direction_triples spatial_dim)
                    (zeros 0%Z [3 ^ sd; sd]%nat, 0%nat) ;;
    let vector_direction := fst filled in
    magnitude <- reduce_dim Z.add 0%Z 1 (tmap Z.abs vector_direction) ;;
    let vector_magnitude := tmap IZR magnitude in
    let vector_magnitude :=
      tmap (fun x => if Rneb x 0 then sqrt x else x) vector_magnitude in
    vector_magnitude <-
      (if (spatial_dim =? 2)%Z
       then view [1; 1; 9; 1; 1; 1]%nat vector_magnitude
       else view [1; 1; 27; 1; 1; 1; 1]%nat vector_magnitude) ;;
    vector_direction <-
      (if (spatial_dim =? 2)%Z
       then view [1; 1; 9; 2; 1; 1]%nat vector_direction
       else view [1; 1; 27; 3; 1; 1; 1]%nat vector_direction) ;;
    affinities <- binary_convolution eikonal ;;
    affinities <- inplace2 Rminus affinities eikonal ;;
    affinities <- unsqueeze 3 affinities ;;
    affinities <- concat2 3 affinities affinities ;;
    let vector_magnitude :=
      tmap (fun x => if Reqb x 0 then Infinity else Finite x) vector_magnitude in
    g <- broadcast2 (fun x z => x * IZR z) affinities vector_direction ;;
    g <- broadcast2 ediv g (tmap (fun m => esquare (escale 2 m)) vector_magnitude) ;;
    g <- sum_dim 2 g ;;
    flip 2 g.

End Gradient.

(** ** The same entry points over a store of tensors

    PyTorch tensors are mutable objects.  Here every tensor a source statement
    binds to a name lives in a cell of a store: an assignment allocates a cell
    holding the value of its right-hand side, an in-place operation ([x.op_(y)],
    [x[mask] = v], [x[i, j] = v]) overwrites the cell of its target, and a view
    ([unsqueeze], [select], [view]) shares the cell of its base.  The values
    are computed by the tensor operations above.  [binary_convolution] is
    taken to read its argument and to return a new tensor. *)

Module Heap.

Inductive cell : Type :=
| FloatCell (t : Tensor R)
| BoolCell (t : Tensor bool)
| LongCell (t : Tensor Z)
| ExtCell (t : Tensor ereal).   (* a float tensor that holds [inf] *)

Definition loc := nat.
Definition store := list cell.

(** A computation on the store; an exception keeps the store it left. *)
Definition M (A : Type) : Type := store -> result A * store.

Definition ret {A} (a : A) : M A := fun s => (Ok a, s).

Definition lift {A} (r : result A) : M A := fun s => (r, s).

Definition bind {A B} (m : M A) (k : A -> M B) : M B :=
  fun s => match m s with
           | (Ok a, s') => k a s'
           | (Raise e, s') => (Raise e, s')
           end.

Notation "x <~ m ;; k" := (bind m (fun x => k))
  (at level 61, m at next level, right associativity).

Definition alloc (c : cell) : M loc := fun s => (Ok (length s), s ++ [c]).

Definition read (l : loc) : M cell :=
  fun s => match nth_error s l with
           | Some c => (Ok c, s)
           | None => (Raise IndexError, s)
           end.

Definition write (l : loc) (c : cell) : M unit :=
  fun s => if (l <? length s)%nat
           then (Ok tt, firstn l s ++ c :: skipn (S l) s)
           else (Raise IndexError, s).

Definition read_float (l : loc) : M (Tensor R) :=
  c <~ read l ;;
  match c with FloatCell t => ret t | _ => lift (Raise TypeError) end.

Definition read_bool (l : loc) : M (Tensor bool) :=
  c <~ read l ;;
  match c with BoolCell t => ret t | _ => lift (Raise TypeError) end.

Definition read_long (l : loc) : M (Tensor Z) :=
  c <~ read l ;;
  match c with LongCell t => ret t | _ => lift (Raise TypeError) end.

Definition read_ext (l : loc) : M (Tensor ereal) :=
  c <~ read l ;;
  match c with ExtCell t => ret t | _ => lift (Raise TypeError) end.

Fixpoint foldM {A B} (f : B -> A -> M B) (l : list A) (b : B) : M B :=
  match l with
  | [] => ret b
  | a :: l' => b' <~ f b a ;; foldM f l' b'
  end.

(** The body of the [for ind, f in zip(...)] loop: [phi.mul_] overwrites
    [phi]. *)
Definition class_update (connected_components phi : loc) (cls : list nat * R)
  : M unit :=
  let '(ind, f) := cls in
  let n_pair := (length ind / 2)%nat in
  cc <~ read_float connected_components ;;
  pairs <~ lift (mapM (pair_minimum cc ind) (seq 0 n_pair)) ;;
  stacked <~ lift (stack 0 pairs) ;;
  minimum_paired <~ alloc (FloatCell stacked) ;;
  mp <~ read_float minimum_paired ;;
  u <~ lift (_apply_update mp f) ;;
  update <~ alloc (FloatCell u) ;;
  p <~ read_float phi ;;
  u <~ read_float update ;;
  p' <~ lift (inplace2 Rmult p u) ;;
  write phi (FloatCell p').

Definition eikonal_single_step (connected_components : loc) : M loc :=
  cc <~ read_float connected_components ;;
  tables <~ lift (direction_tables (ndim cc)) ;;
  let '(factors, index_list) := tables in
  first <~ lift (select 2 0 cc) ;;
  phi <~ alloc (FloatCell (ones_like first)) ;;
  _ <~ foldM (fun _ cls => class_update connected_components phi cls)
             (combine (tl index_list) (tl factors)) tt ;;
  p <~ read_float phi ;;
  alloc (FloatCell (tmap sqrt p)).

Record loop_state : Type := mkState {
  st_T : loc;
  st_T0 : loc;
  st_t : Z;
  st_error : pyfloat
}.

Section Entry.

Variable binary_convolution : Tensor R -> result (Tensor R).

(** A call of [binary_convolution]: reads its argument, returns a new
    tensor. *)
Definition sample (field : loc) : M loc :=
  t <~ read_float field ;;
  s <~ lift (binary_convolution t) ;;
  alloc (FloatCell s).

(** Lines 129-135; line 132 overwrites the sampled stack. *)
Definition make_affinity_mask (instance_mask : loc) : M loc :=
  affinity_mask <~ sample instance_mask ;;
  a <~ read_float affinity_mask ;;
  m <~ read_float instance_mask ;;
  centre <~ lift (unsqueeze 2 m) ;;
  differs <~ lift (broadcast2 Rneb a centre) ;;
  a' <~ lift (masked_fill a differs 0) ;;
  _ <~ write affinity_mask (FloatCell a') ;;
  a <~ read_float affinity_mask ;;
  alloc (BoolCell (gt0 a)).

Definition smooth (affinity_mask T : loc) : M loc :=
  neighbours <~ sample T ;;
  n <~ read_float neighbours ;;
  a <~ read_bool affinity_mask ;;
  masked <~ lift (broadcast2 mul_bool n a) ;;
  r <~ lift (mean_dim 2 masked) ;;
  alloc (FloatCell r).

(** Lines 145-149; [T.mul_] overwrites the new [T]. *)
Definition update_pass (affinity_mask semantic_mask T : loc) : M loc :=
  neighbours <~ sample T ;;
  n <~ read_float neighbours ;;
  a <~ read_bool affinity_mask ;;
  c <~ lift (broadcast2 mul_bool n a) ;;
  connected <~ alloc (FloatCell c) ;;
  T <~ eikonal_single_step connected ;;
  t <~ read_float T ;;
  sem <~ read_bool semantic_mask ;;
  t' <~ lift (inplace2 mul_bool t sem) ;;
  _ <~ write T (FloatCell t') ;;
  ret T.

(** Lines 145-159; [T0.copy_] overwrites [T0]. *)
Definition loop_body (affinity_mask semantic_mask : loc) (st : loop_state)
  : M loop_state :=
  T <~ update_pass affinity_mask semantic_mask (st_T st) ;;
  t <~ read_float T ;;
  t0 <~ read_float (st_T0 st) ;;
  diff <~ lift (broadcast2 Rminus t t0) ;;
  let error := mean_all (tmap (fun x => x * x) diff) in
  T <~ (if (st_t st <? 1)%Z then smooth affinity_mask T else ret T) ;;
  t <~ read_float T ;;
  t0 <~ read_float (st_T0 st) ;;
  t0' <~ lift (inplace2 (fun _ x => x) t0 t) ;;
  _ <~ write (st_T0 st) (FloatCell t0') ;;
  ret (mkState T (st_T0 st) (st_t st + 1) error).

Definition loop_guard (eps : pyfloat) (min_steps : Z) (st : loop_state) : bool :=
  pygt (st_error st) eps && (st_t st <? min_steps)%Z.

Fixpoint solve_loop (fuel : nat) (affinity_mask semantic_mask : loc)
  (eps : pyfloat) (min_steps : Z) (st : loop_state) : M loop_state :=
  if loop_guard eps min_steps st then
    match fuel with
    | O => lift (Raise FuelExhausted)
    | S fuel' =>
        st' <~ loop_body affinity_mask semantic_mask st ;;
        solve_loop fuel' affinity_mask semantic_mask eps min_steps st'
    end
  else ret st.

Definition solve_eikonal (instance_mask : loc) (eps : pyfloat) (min_steps : Z)
  : M loc :=
  affinity_mask <~ make_affinity_mask instance_mask ;;
  m <~ read_float instance_mask ;;
  semantic_mask <~ alloc (BoolCell (gt0 m)) ;;
  T <~ alloc (FloatCell (ones_like m)) ;;
  T0 <~ alloc (FloatCell (ones_like m)) ;;
  st <~ solve_loop (Z.to_nat min_steps) affinity_mask semantic_mask eps min_steps
          (mkState T T0 0 PInf) ;;
  ret (st_T st).

(** Lines 191-196: three in-place writes into [vector_direction]. *)
Definition fill_direction (spatial_dim : Z) (vector_direction : loc) (ind : nat)
  (ijk : Z * Z * Z) : M nat :=
  let '(i, j, k) := ijk in
  v <~ read_long vector_direction ;;
  v <~ lift (setitem v [ind; 0%nat] i) ;;
  _ <~ write vector_direction (LongCell v) ;;
  v <~ read_long vector_direction ;;
  v <~ lift (setitem v [ind; 1%nat] j) ;;
  _ <~ write vector_direction (LongCell v) ;;
  _ <~ (if (spatial_dim =? 3)%Z
        then v <~ read_long vector_direction ;;
             v <~ lift (setitem v [ind; 2%nat] k) ;;
             write vector_direction (LongCell v)
        else ret tt) ;;
  ret (S ind).

Definition gradient_from_eikonal (eikonal : loc) : M loc :=
  e <~ read_float eikonal ;;
  let spatial_dim : Z := (Z.of_nat (ndim e) - 2)%Z in
  if ((spatial_dim <? 2) || (spatial_dim >? 3))%Z
  then lift (Raise (UnsupportedDimension spatial_dim))
  else
    let sd := Z.to_nat spatial_dim in
    vector_direction <~ alloc (LongCell (zeros 0%Z [3 ^ sd; sd]%nat)) ;;
    _ <~ foldM (fill_direction spatial_dim vector_direction)
               (direction_triples spatial_dim) 0%nat ;;
    v <~ read_long vector_direction ;;
    magnitude <~ lift (reduce_dim Z.add 0%Z 1 (tmap Z.abs v)) ;;
    vector_magnitude <~ alloc (FloatCell (tmap IZR magnitude)) ;;
    (* lines 201-203, in place *)
    m <~ read_float vector_magnitude ;;
    _ <~ write vector_magnitude
           (FloatCell (tmap (fun x => if Rneb x 0 then sqrt x else x) m)) ;;
    (* lines 205-215: both names are rebound to views of their cells *)
    let magnitude_shape :=
      if (spatial_dim =? 2)%Z then [1; 1; 9; 1; 1; 1]%nat
      else [1; 1; 27; 1; 1; 1; 1]%nat in
    let direction_shape :=
      if (spatial_dim =? 2)%Z then [1; 1; 9; 2; 1; 1]%nat
      else [1; 1; 27; 3; 1; 1; 1]%nat in
    m <~ read_float vector_magnitude ;;
    _ <~ lift (view magnitude_shape m) ;;
    v <~ read_long vector_direction ;;
    _ <~ lift (view direction_shape v) ;;
    affinities <~ sample eikonal ;;
    (* line 225, in place *)
    a <~ read_float affinities ;;
    e <~ read_float eikonal ;;
    a' <~ lift (inplace2 Rminus a e) ;;
    _ <~ write affinities (FloatCell a') ;;
    a <~ read_float affinities ;;
    a <~ lift (unsqueeze 3 a) ;;
    a <~ lift (concat2 3 a a) ;;
    affinities <~ alloc (FloatCell a) ;;
    (* line 229, in place through the view: the cell now holds [inf] *)
    m <~ read_float vector_magnitude ;;
    _ <~ write vector_magnitude
           (ExtCell (tmap (fun x => if Reqb x 0 then Infinity else Finite x) m)) ;;
    a <~ read_float affinities ;;
    v <~ read_long vector_direction ;;
    v <~ lift (view direction_shape v) ;;
    m <~ read_ext vector_magnitude ;;
    m <~ lift (view magnitude_shape m) ;;
    g <~ lift (broadcast2 (fun x z => x * IZR z) a v) ;;
    g <~ lift (broadcast2 ediv g (tmap (fun m => esquare (escale 2 m)) m)) ;;
    g <~ lift (sum_dim 2 g) ;;
    g <~ lift (flip 2 g) ;;
    alloc (FloatCell g).

End Entry.

(** A computation started on a store with at least [n] cells leaves the
    first [n] cells as they were, and what it returns satisfies [Q]. *)
Definition preserves {A} (n : nat) (m : M A) (Q : A -> Prop) : Prop :=
  forall s, (n <= length s)%nat ->
    firstn n (snd (m s)) = firstn n s /\
    (n <= length (snd (m s)))%nat /\
    forall a, fst (m s) = Ok a -> Q a.

End Heap.

(** ** Vocabulary of the statements *)

(** [t] has shape [s] and holds [g idx] at every index [idx] of that shape. *)
Definition agrees {A} (t : Tensor A) (s : list nat) (g : index -> A) : Prop :=
  shape t = s /\ forall idx, in_range s idx -> data t idx = g idx.

(** The values one pixel contributes to [sum_a]: the sorted pair minima, each
    multiplied by its entry of the upwind mask. *)
Definition kept (f : R) (vals : list R) : list R :=
  let sorted := Rsort vals in
  map (fun x => mul_bool x (Rltb (x - last sorted 0) f)) sorted.

(** The pair minima of the pixel [idx] of a stack read through [g]. *)
Definition pixel_column (g : index -> R) (n : nat) (idx : index) : list R :=
  map (fun k => g (k :: idx)) (seq 0 n).

(** *** The single-step solver as the specification words it *)

(** The squared length of the lattice offset with raster index [k] among the
    [3^d] offsets of a [d]-dimensional neighbourhood: the base-3 digits of
    [k] are the offsets -1, 0, 1 along the axes. *)
Fixpoint offset_norm2 (d k : nat) : nat :=
  match d with
  | O => 0%nat
  | S d' => ((if (k mod 3 =? 1)%nat then 0 else 1) + offset_norm2 d' (k / 3))%nat
  end.

(** The antipodal index pairs [(k, 3^d - 1 - k)] of the direction class of
    squared step length [m]. *)
Definition class_pairs (d m : nat) : list (nat * nat) :=
  map (fun k => (k, 3 ^ d - 1 - k)%nat)
      (filter (fun k => (offset_norm2 d k =? m)%nat) (seq 0 ((3 ^ d - 1) / 2))).

(** The direction classes in order of increasing step length
    [f = sqrt 1, sqrt 2, ..., sqrt d]. *)
Definition direction_classes (d : nat) : list (R * list (nat * nat)) :=
  map (fun m => (sqrt (INR m), class_pairs d m)) (seq 1 d).

(** The elementwise minimum of one antipodal pair. *)
Definition reference_pair_minimum (neighbours : Tensor R) (p : nat * nat)
  : result (Tensor R) :=
  x <- select 2 (fst p) neighbours ;;
  y <- select 2 (snd p) neighbours ;;
  broadcast2 Rmin x y.

(** One direction class: stack the pair minima, reduce them, multiply the
    accumulator. *)
Definition reference_class (neighbours : Tensor R) (acc : Tensor R)
  (cls : R * list (nat * nat)) : result (Tensor R) :=
  let '(f, pairs) := cls in
  minima <- mapM (reference_pair_minimum neighbours) pairs ;;
  stacked <- stack 0 minima ;;
  partial <- _apply_update stacked f ;;
  broadcast2 Rmult acc partial.

Definition single_step_reference (neighbours : Tensor R) : result (Tensor R) :=
  let d := (ndim neighbours - 3)%nat in
  let acc := mkTensor (remove_at 2 (shape neighbours)) (fun _ => 1) in
  acc <- foldM (reference_class neighbours) (direction_classes d) acc ;;
  Ok (tmap sqrt acc).

(** The same computation at a single pixel whose [3^d] neighbour values are
    [nb 0, nb 1, ...]. *)
Definition pixel_reduce (n f : R) (vals : list R) : R :=
  let S := Rsum vals in
  let Q := Rsum (map (fun x => x ^ 2) vals) in
  (S + sqrt (Rmax 0 (S ^ 2 - n * (Q - f ^ 2)))) / n.

Definition pair_minima (nb : nat -> R) (pairs : list (nat * nat)) : list R :=
  map (fun p => Rmin (nb (fst p)) (nb (snd p))) pairs.

Definition single_step_pixel (d : nat) (nb : nat -> R) : R :=
  sqrt (fold_left (fun acc cls => acc * pixel_reduce (INR d) (fst cls)
                                          (pair_minima nb (snd cls)))
                  (direction_classes d) 1).

(** What the driver needs of the sampler: on a field of spatial rank 2 or 3 it
    returns a stack with [3^d] entries per pixel. *)
Definition sampler_spec (binary_convolution : Tensor R -> result (Tensor R)) : Prop :=
  forall t, (ndim t = 4 \/ ndim t = 5)%nat ->
    exists s, binary_convolution t = Ok s /\ shape s = stack_shape (shape t).

(** The state the driver enters the loop with. *)
Definition initial_state (instance_mask : Tensor R) : loop_state :=
  mkState (ones_like instance_mask) (ones_like instance_mask) 0 PInf.

(** The state after [n] passes of the loop body. *)
Fixpoint passes (binary_convolution : Tensor R -> result (Tensor R))
  (affinity_mask semantic_mask : Tensor bool) (n : nat) (st : loop_state)
  : result loop_state :=
  match n with
  | O => Ok st
  | S n' =>
      st' <- passes binary_convolution affinity_mask semantic_mask n' st ;;
      loop_body binary_convolution affinity_mask semantic_mask st'
  end.

(** The mean of the values whose direction is valid, over the number of valid
    directions. *)
Definition mean_over_valid (vals : list R) (valid : list bool) : R :=
  Rsum (map (fun p => mul_bool (fst p) (snd p)) (combine vals valid))
  / INR (length (filter (fun v => v) valid)).

(** The fields of a state have the shape [s]. *)
Definition shaped (s : list nat) (st : loop_state) : Prop :=
  shape (st_T st) = s /\ shape (st_T0 st) = s.

(** A field is zero at the pixels of the mask without a positive label. *)
Definition zero_outside (instance_mask T : Tensor R) : Prop :=
  forall idx, in_range (shape instance_mask) idx ->
    data instance_mask idx <= 0 -> data T idx = 0.

(** A tensor given by its shape and its values in row-major order. *)
Definition of_values (s : list nat) (vals : list R) : Tensor R :=
  mkTensor s (fun idx => nth (ravel s idx) vals 0).

(** A mask of shape (1,1,1,2): one pixel of instance 1 beside one background
    pixel. *)
Definition two_pixel_mask : Tensor R := of_values [1; 1; 1; 2]%nat [1; 0].

(** The cell [l] of the store [s] holds [c]. *)
Definition holds (s : Heap.store) (l : Heap.loc) (c : Heap.cell) : Prop :=
  nth_error s l = Some c.

(** The store [s] with its cell [l] overwritten by [c]. *)
Definition overwrite (s : Heap.store) (l : Heap.loc) (c : Heap.cell) : Heap.store :=
  firstn l s ++ c :: skipn (S l) s.

(** A run on the store returned the location of the tensor the functional
    model returns, or raised the exception the functional model raises. *)
Definition returns (run : result Heap.loc * Heap.store) (r : result (Tensor R))
  : Prop :=
  match r with
  | Ok t => exists l, fst run = Ok l /\ holds (snd run) l (Heap.FloatCell t)
  | Raise e => fst run = Raise e
  end.

(** A state of the loop over the store and the state of the functional model
    it stands for. *)
Definition state_rel (s : Heap.store) (affinity semantic : Heap.loc)
  (a sem : Tensor bool) (hst : Heap.loop_state) (st : loop_state) : Prop :=
  holds s affinity (Heap.BoolCell a) /\
  holds s semantic (Heap.BoolCell sem) /\
  holds s (Heap.st_T hst) (Heap.FloatCell (st_T st)) /\
  holds s (Heap.st_T0 hst) (Heap.FloatCell (st_T0 st)) /\
  Heap.st_T0 hst <> affinity /\
  Heap.st_T0 hst <> semantic /\
  Heap.st_T hst <> Heap.st_T0 hst /\
  Heap.st_t hst = st_t st /\
  Heap.st_error hst = st_error st.

(** *** Symmetries of the neighbourhood *)

(** The raster index of a neighbour of the 3 x 3 neighbourhood after a
    quarter turn of the neighbourhood, and after its reflection in the
    diagonal; [k = 3 r + c] for the row [r] and the column [c]. *)
Definition quarter_turn (k : nat) : nat := (3 * (k mod 3) + (2 - k / 3))%nat.
Definition transpose (k : nat) : nat := (3 * (k mod 3) + k / 3)%nat.

(** The raster index [k = 9 a + 3 b + c] of a neighbour of the 3 x 3 x 3
    neighbourhood after the axes are rotated, after the first two axes are
    exchanged, and after the first axis is mirrored. *)
Definition cycle_axes (k : nat) : nat :=
  (9 * ((k / 3) mod 3) + 3 * (k mod 3) + k / 9)%nat.
Definition swap_axes (k : nat) : nat :=
  (9 * ((k / 3) mod 3) + 3 * (k / 9) + k mod 3)%nat.
Definition mirror_axis (k : nat) : nat := (9 * (2 - k / 9) + k mod 9)%nat.

(** *** The gradient stencil *)

(** The divisor [(2 * vector_magnitude) ** 2] of a direction at the L1
    distance 0, 1 or 2 from the centre, after lines 201-203 and 229: the
    centre divides by [inf], an axis neighbour by 4, a diagonal one by 8. *)
Definition gradient_divisor (l1 : Z) : ereal :=
  esquare (escale 2
    ((fun x => if Reqb x 0 then Infinity else Finite x)
       ((fun x => if Rneb x 0 then sqrt x else x) (IZR l1)))).


(** *** The sampler and the sign of the field *)

(** Every entry of the stack that the sampler returns is the value of the
    field at some pixel. *)
Definition sampler_reads_field (binary_convolution : Tensor R -> result (Tensor R))
  : Prop :=
  forall t s, binary_convolution t = Ok s ->
    forall idx, in_range (shape s) idx ->
      exists idx', in_range (shape t) idx' /\ data s idx = data t idx'.

(** The centre entry of the stack (4 of 9, 13 of 27) is the value of the
    pixel itself. *)
Definition sampler_centre (binary_convolution : Tensor R -> result (Tensor R))
  : Prop :=
  forall t s b c sp,
    shape t = b :: c :: sp -> (length sp = 2 \/ length sp = 3)%nat ->
    binary_convolution t = Ok s ->
    forall idx, in_range (b :: c :: sp) idx ->
      data s (insert_at 2 (3 ^ length sp / 2)%nat idx) = data t idx.

(** A field without negative values. *)
Definition nonnegative (T : Tensor R) : Prop :=
  forall idx, in_range (shape T) idx -> 0 <= data T idx.

(** A field that is positive at every pixel with a positive label. *)
Definition positive_inside (instance_mask T : Tensor R) : Prop :=
  forall idx, in_range (shape instance_mask) idx ->
    0 < data instance_mask idx -> 0 < data T idx.

(** *** A sampler for the supported ranks only *)

(** Modelled from the spec: [binary_convolution] lives in [src/morphology.py],
    which is not part of the sources.  The spec supports fields of spatial
    rank 2 and 3 and "no other dimensionality"; this instance is the
    replicate sampler on those ranks and fails on every other field. *)
Definition binary_convolution_supported (t : Tensor R) : result (Tensor R) :=
  if ((ndim t =? 4) || (ndim t =? 5))%nat
  then binary_convolution_replicate t
  else Raise SamplerError.

(** * Properties *)

(** ** Shapes, indices and broadcasting *)

Lemma shape_eqb_refl (s : list nat) : shape_eqb s s = true.
Proof.
  induction s as [|a s IH]; simpl; [reflexivity|].
  now rewrite Nat.eqb_refl, IH.
Qed.

Lemma shape_eqb_eq (s1 s2 : list nat) : shape_eqb s1 s2 = true <-> s1 = s2.
Proof.
  split; [|intros ->; apply shape_eqb_refl].
  revert s2; induction s1 as [|a s1 IH]; intros [|b s2]; simpl; try congruence.
  intros H. apply andb_true_iff in H as [Hab Hs].
  apply Nat.eqb_eq in Hab. apply IH in Hs. congruence.
Qed.

Lemma broadcast_dim_refl (a : nat) : broadcast_dim a a = Some a.
Proof. unfold broadcast_dim. now rewrite Nat.eqb_refl. Qed.

Lemma broadcast_dim_1_l (a : nat) : broadcast_dim 1 a = Some a.
Proof.
  unfold broadcast_dim. destruct (Nat.eqb_spec 1 a); [congruence|reflexivity].
Qed.

Lemma broadcast_dim_1_r (a : nat) : broadcast_dim a 1 = Some a.
Proof.
  unfold broadcast_dim. destruct (Nat.eqb_spec a 1); [reflexivity|].
  simpl. reflexivity.
Qed.

Lemma broadcast_dims_refl (s : list nat) : broadcast_dims s s = Some s.
Proof.
  induction s as [|a s IH]; simpl; [reflexivity|].
  now rewrite broadcast_dim_refl, IH.
Qed.

Lemma pad_shape_same (s : list nat) : pad_shape (length s) s = s.
Proof. unfold pad_shape. now rewrite Nat.sub_diag. Qed.

Lemma broadcast_shapes_refl (s : list nat) : broadcast_shapes s s = Some s.
Proof.
  unfold broadcast_shapes. rewrite Nat.max_id, pad_shape_same.
  apply broadcast_dims_refl.
Qed.

Lemma broadcast_shapes_cons (n : nat) (s : list nat) :
  broadcast_shapes (n :: s) s = Some (n :: s).
Proof.
  unfold broadcast_shapes, pad_shape. simpl length.
  replace (Nat.max (S (length s)) (length s)) with (S (length s)) by lia.
  rewrite Nat.sub_diag.
  replace (S (length s) - length s)%nat with 1%nat by lia.
  simpl. now rewrite broadcast_dim_1_r, broadcast_dims_refl.
Qed.

Lemma in_range_length (s : list nat) (idx : index) :
  in_range s idx -> length idx = length s.
Proof. intros H. induction H; simpl; congruence. Qed.

Lemma expand_index_in_range (s : list nat) (idx : index) :
  in_range s idx -> expand_index s idx = idx.
Proof.
  intros H. induction H as [|i n idx s Hin _ IH]; simpl; [reflexivity|].
  rewrite IH. destruct (Nat.eqb_spec n 1); [f_equal; lia|reflexivity].
Qed.

Lemma bidx_in_range (s : list nat) (idx : index) :
  in_range s idx -> bidx s idx = idx.
Proof.
  intros H. unfold bidx. rewrite (in_range_length _ _ H), Nat.sub_diag.
  simpl. now apply expand_index_in_range.
Qed.

Lemma bidx_tail (s : list nat) (k : nat) (idx : index) :
  in_range s idx -> bidx s (k :: idx) = idx.
Proof.
  intros H. unfold bidx. simpl length. rewrite (in_range_length _ _ H).
  replace (S (length s) - length s)%nat with 1%nat by lia.
  simpl. now apply expand_index_in_range.
Qed.

Lemma in_range_cons (n : nat) (s : list nat) (k : nat) (idx : index) :
  in_range (n :: s) (k :: idx) <-> (k < n)%nat /\ in_range s idx.
Proof.
  unfold in_range. split.
  - intros H. inversion H; subst. auto.
  - intros [? ?]. now constructor.
Qed.

(** ** Sorting and sums *)

Lemma Rinsert_perm (x : R) (l : list R) : Permutation (x :: l) (Rinsert x l).
Proof.
  induction l as [|y l IH]; simpl; [reflexivity|].
  destruct (Rle_dec x y); [reflexivity|].
  rewrite perm_swap. now constructor.
Qed.

Lemma Rsort_perm (l : list R) : Permutation l (Rsort l).
Proof.
  induction l as [|x l IH]; simpl; [reflexivity|].
  rewrite <- Rinsert_perm. now constructor.
Qed.

Lemma Rsort_length (l : list R) : length (Rsort l) = length l.
Proof. symmetry. apply Permutation_length, Rsort_perm. Qed.

Lemma Rsum_perm (l1 l2 : list R) : Permutation l1 l2 -> Rsum l1 = Rsum l2.
Proof.
  intros H. induction H; simpl; lra.
Qed.

Lemma Rinsert_sorted (x : R) (l : list R) :
  StronglySorted Rle l -> StronglySorted Rle (Rinsert x l).
Proof.
  induction 1 as [|y l Hs IH Hy]; simpl.
  - repeat constructor.
  - destruct (Rle_dec x y) as [Hxy|Hxy].
    + constructor; [now constructor|].
      constructor; [assumption|].
      eapply Forall_impl; [|exact Hy]. intros z Hz. simpl in Hz. lra.
    + constructor; [assumption|].
      eapply Permutation_Forall; [apply Rinsert_perm|].
      constructor; [lra|assumption].
Qed.

Lemma Rsort_sorted (l : list R) : StronglySorted Rle (Rsort l).
Proof.
  induction l; simpl; [constructor|now apply Rinsert_sorted].
Qed.

(** The last element of a sorted list bounds every element. *)
Lemma sorted_last_max (l : list R) :
  StronglySorted Rle l -> forall x, In x l -> x <= last l 0.
Proof.
  induction 1 as [|y l Hs IH Hy]; intros x Hx; [destruct Hx|].
  destruct l as [|z l].
  - destruct Hx as [<-|[]]. simpl. lra.
  - change (last (y :: z :: l) 0) with (last (z :: l) 0).
    destruct Hx as [<-|Hx]; [|now apply IH].
    rewrite Forall_forall in Hy. apply Hy.
    destruct (@exists_last _ (z :: l)) as [l0 [a Ha]]; [discriminate|].
    rewrite Ha, last_last. apply in_or_app. right. now left.
Qed.

Lemma map_nth_seq {A B} (g : A -> B) (l : list A) (d : A) :
  map (fun k => g (nth k l d)) (seq 0 (length l)) = map g l.
Proof.
  rewrite <- (map_map (fun k => nth k l d) g). f_equal.
  apply nth_ext with (d := d) (d' := d).
  - now rewrite length_map, length_seq.
  - intros n Hn. rewrite length_map, length_seq in Hn.
    rewrite (nth_indep _ d (nth 0 l d)) by (now rewrite length_map, length_seq).
    rewrite (map_nth (fun k => nth k l d) (seq 0 (length l)) 0%nat n).
    now rewrite seq_nth.
Qed.

(** ** Pointwise reading of the tensor operations *)

Lemma agrees_ext {A} (t : Tensor A) (s : list nat) (g g' : index -> A) :
  agrees t s g -> (forall idx, in_range s idx -> g idx = g' idx) -> agrees t s g'.
Proof.
  intros [Hs Hd] Hg. split; [assumption|].
  intros idx Hin. rewrite Hd by assumption. now apply Hg.
Qed.

Lemma agrees_self {A} (t : Tensor A) : agrees t (shape t) (data t).
Proof. now split. Qed.

Lemma tmap_agrees {A B} (f : A -> B) (t : Tensor A) (s : list nat) (g : index -> A) :
  agrees t s g -> agrees (tmap f t) s (fun idx => f (g idx)).
Proof.
  intros [Hs Hd]. split; [assumption|].
  intros idx Hin. simpl. now rewrite Hd.
Qed.

Lemma broadcast2_agrees {A B C} (f : A -> B -> C) (t1 : Tensor A) (t2 : Tensor B)
  (s : list nat) (g1 : index -> A) (g2 : index -> B) :
  agrees t1 s g1 -> agrees t2 s g2 ->
  exists t, broadcast2 f t1 t2 = Ok t /\ agrees t s (fun idx => f (g1 idx) (g2 idx)).
Proof.
  intros [Hs1 Hd1] [Hs2 Hd2]. unfold broadcast2.
  rewrite Hs1, Hs2, broadcast_shapes_refl.
  eexists; split; [reflexivity|]. split; [reflexivity|].
  intros idx Hin. simpl. rewrite (bidx_in_range _ _ Hin).
  now rewrite Hd1, Hd2.
Qed.

Lemma broadcast2_agrees_tail {A B C} (f : A -> B -> C) (t1 : Tensor A) (t2 : Tensor B)
  (n : nat) (s : list nat) (g1 : index -> A) (g2 : index -> B) :
  agrees t1 (n :: s) g1 -> agrees t2 s g2 ->
  exists t, broadcast2 f t1 t2 = Ok t /\
            agrees t (n :: s) (fun idx => f (g1 idx) (g2 (tl idx))).
Proof.
  intros [Hs1 Hd1] [Hs2 Hd2]. unfold broadcast2.
  rewrite Hs1, Hs2, broadcast_shapes_cons.
  eexists; split; [reflexivity|]. split; [reflexivity|].
  intros idx Hin. simpl. rewrite (bidx_in_range _ _ Hin).
  destruct idx as [|k idx]; [inversion Hin|].
  apply in_range_cons in Hin as Hin'. destruct Hin' as [Hk Hin'].
  rewrite (bidx_tail _ _ _ Hin'). simpl.
  now rewrite Hd1, Hd2.
Qed.

Lemma inplace2_agrees {A B} (f : A -> B -> A) (t1 : Tensor A) (t2 : Tensor B)
  (s : list nat) (g1 : index -> A) (g2 : index -> B) :
  agrees t1 s g1 -> agrees t2 s g2 ->
  exists t, inplace2 f t1 t2 = Ok t /\ agrees t s (fun idx => f (g1 idx) (g2 idx)).
Proof.
  intros [Hs1 Hd1] [Hs2 Hd2]. unfold inplace2.
  rewrite Hs1, Hs2, broadcast_shapes_refl, shape_eqb_refl.
  eexists; split; [reflexivity|]. split; [reflexivity|].
  intros idx Hin. simpl. rewrite (bidx_in_range _ _ Hin).
  now rewrite Hd1, Hd2.
Qed.

Lemma reduce_dim0_agrees {A} (add : A -> A -> A) (zero : A) (t : Tensor A)
  (n : nat) (s : list nat) (g : index -> A) :
  agrees t (n :: s) g ->
  exists r, reduce_dim add zero 0 t = Ok r /\
            agrees r s (fun idx => fold_right add zero (map (fun k => g (k :: idx)) (seq 0 n))).
Proof.
  intros [Hs Hd]. unfold reduce_dim, ndim, fibre. rewrite Hs. simpl.
  eexists; split; [reflexivity|]. split; [reflexivity|].
  intros idx Hin. simpl. f_equal.
  apply map_ext_in. intros k Hk. apply in_seq in Hk.
  apply Hd. apply in_range_cons. split; [lia|assumption].
Qed.

Lemma select_last_agrees {A} (t : Tensor A) (n : nat) (s : list nat) (g : index -> A) :
  agrees t (S n :: s) g ->
  exists r, select_last t = Ok r /\ agrees r s (fun idx => g (n :: idx)).
Proof.
  intros [Hs Hd]. unfold select_last. rewrite Hs.
  unfold select, ndim. rewrite Hs.
  assert (Hn : ((0 <? length (S n :: s)) && (n <? nth 0 (S n :: s) 0))%nat = true).
  { apply andb_true_iff. split; apply Nat.ltb_lt; simpl; lia. }
  rewrite Hn.
  eexists; split; [reflexivity|]. split; [reflexivity|].
  intros idx Hin. simpl. apply Hd. apply in_range_cons. split; [lia|assumption].
Qed.

Lemma sort0_agrees (t : Tensor R) (n : nat) (s : list nat) (g : index -> R) :
  agrees t (n :: s) g ->
  agrees (sort0 t) (n :: s)
    (fun idx => nth (hd 0%nat idx)
                  (Rsort (map (fun k => g (k :: tl idx)) (seq 0 n))) 0).
Proof.
  intros [Hs Hd]. unfold sort0. rewrite Hs. split; [reflexivity|].
  intros [|k idx] Hin; [inversion Hin|].
  apply in_range_cons in Hin as [Hk Hin]. simpl.
  unfold column. rewrite Hs. simpl hd. f_equal. f_equal.
  apply map_ext_in. intros j Hj. apply in_seq in Hj.
  apply Hd. apply in_range_cons. split; [lia|assumption].
Qed.

(** ** The pair reducer, pixel by pixel *)

Lemma nth_last {A} (l : list A) (n : nat) (d : A) :
  length l = S n -> nth n l d = last l d.
Proof.
  revert n. induction l as [|a l IH]; intros n Hn; [discriminate|].
  destruct l as [|b l].
  - simpl in Hn. assert (n = 0%nat) by lia. subst. reflexivity.
  - destruct n as [|n]; [simpl in Hn; lia|].
    change (nth (S n) (a :: b :: l) d) with (nth n (b :: l) d).
    change (last (a :: b :: l) d) with (last (b :: l) d).
    apply IH. simpl in *. lia.
Qed.

Lemma pixel_column_length (g : index -> R) (n : nat) (idx : index) :
  length (pixel_column g n idx) = n.
Proof. unfold pixel_column. now rewrite length_map, length_seq. Qed.

Lemma upwind_mask_pixel (t : Tensor R) (f : R) (n : nat) (s : list nat)
  (g : index -> R) :
  agrees t (S n :: s) g ->
  exists keep, upwind_mask t f = Ok keep /\
    agrees keep (S n :: s) (fun idx => Rltb (g idx - g (n :: tl idx)) f).
Proof.
  intros Ht. unfold upwind_mask.
  destruct (select_last_agrees _ _ _ _ Ht) as (largest & -> & Hl). cbn [bind].
  destruct (broadcast2_agrees_tail Rminus _ _ _ _ _ _ Ht Hl) as (diff & -> & Hd).
  cbn [bind]. eexists; split; [reflexivity|].
  apply (tmap_agrees (fun x => Rltb x f)) in Hd. exact Hd.
Qed.

Lemma py_inv_ok (d : Z) : d <> 0%Z -> py_inv d = Ok (1 / IZR d).
Proof.
  intros Hd. unfold py_inv. destruct (Z.eqb_spec d 0); [contradiction|reflexivity].
Qed.

Lemma apply_update_pixel (minimum_paired : Tensor R) (f : R) (n : nat)
  (s : list nat) (g : index -> R) :
  agrees minimum_paired (S n :: s) g ->
  length s <> 2%nat ->
  let d := (Z.of_nat (S (length s)) - 3)%Z in
  exists out, _apply_update minimum_paired f = Ok out /\
    agrees out s (fun idx =>
      let a := kept f (pixel_column g (S n) idx) in
      1 / IZR d * (Rsum a + sqrt (Rmax 0 ((Rsum a) ^ 2
                     - IZR d * (Rsum (map (fun x => x ^ 2) a) - f ^ 2))))).
Proof.
  intros Hmp Hlen d. unfold _apply_update.
  assert (Hnd : ndim minimum_paired = S (length s)).
  { unfold ndim. destruct Hmp as [-> _]. reflexivity. }
  rewrite Hnd. fold d.
  pose proof (sort0_agrees _ _ _ _ Hmp) as Hsorted.
  destruct (upwind_mask_pixel _ f _ _ _ Hsorted) as (keep & -> & Hkeep). cbn [bind].
  destruct (broadcast2_agrees mul_bool _ _ _ _ _ Hsorted Hkeep) as (a & -> & Ha).
  cbn [bind].
  set (ga := fun idx : index =>
               mul_bool
                 (nth (hd 0%nat idx) (Rsort (pixel_column g (S n) (tl idx))) 0)
                 (Rltb (nth (hd 0%nat idx) (Rsort (pixel_column g (S n) (tl idx))) 0
                        - last (Rsort (pixel_column g (S n) (tl idx))) 0) f)).
  assert (Ha' : agrees a (S n :: s) ga).
  { eapply agrees_ext; [exact Ha|]. intros idx Hin. unfold ga. cbv beta.
    unfold pixel_column. simpl hd. simpl tl.
    rewrite (nth_last (Rsort _) n); [reflexivity|].
    now rewrite Rsort_length, length_map, length_seq. }
  clear Ha.
  assert (Hcol : forall (h : R -> R) idx,
             map (fun k => h (ga (k :: idx))) (seq 0 (S n))
             = map h (kept f (pixel_column g (S n) idx))).
  { intros h idx. unfold ga, kept. simpl hd. simpl tl. cbv zeta.
    rewrite map_map.
    rewrite <- (map_nth_seq
                  (fun x => h (mul_bool x
                     (Rltb (x - last (Rsort (pixel_column g (S n) idx)) 0) f)))
                  (Rsort (pixel_column g (S n) idx)) 0).
    now rewrite Rsort_length, pixel_column_length. }
  unfold sum_dim.
  destruct (reduce_dim0_agrees Rplus 0 _ _ _ _ Ha') as (sum_a & -> & Hsa). cbn [bind].
  pose proof (tmap_agrees (fun x => x ^ 2) _ _ _ Ha') as Ha2.
  destruct (reduce_dim0_agrees Rplus 0 _ _ _ _ Ha2) as (sum_a2 & -> & Hsa2). cbn [bind].
  rewrite py_inv_ok by (unfold d; lia). cbn [bind].
  pose proof (tmap_agrees (fun x => x ^ 2) _ _ _ Hsa) as H1.
  pose proof (tmap_agrees (fun x => IZR d * x) _ _ _
                (tmap_agrees (fun x => x - f ^ 2) _ _ _ Hsa2)) as H2.
  destruct (broadcast2_agrees Rminus _ _ _ _ _ H1 H2) as (disc & -> & Hdisc). cbn [bind].
  pose proof (tmap_agrees sqrt _ _ _ (tmap_agrees (Rmax 0) _ _ _ Hdisc)) as H3.
  destruct (broadcast2_agrees Rplus _ _ _ _ _ Hsa H3) as (inner & -> & Hinner). cbn [bind].
  eexists; split; [reflexivity|].
  apply (tmap_agrees (fun x => 1 / IZR d * x)) in Hinner.
  eapply agrees_ext; [exact Hinner|].
  intros idx Hin. cbv beta zeta.
  pose proof (Hcol (fun x => x) idx) as E1. rewrite map_id in E1.
  pose proof (Hcol (fun x => x ^ 2) idx) as E2.
  unfold Rsum. rewrite E1, E2. reflexivity.
Qed.

(** With a positive step length nothing is discarded. *)
Lemma kept_all (f : R) (vals : list R) : 0 < f -> kept f vals = Rsort vals.
Proof.
  intros Hf. unfold kept. cbv zeta.
  transitivity (map (fun x : R => x) (Rsort vals)); [|apply map_id].
  apply map_ext_in. intros x Hx.
  pose proof (sorted_last_max _ (Rsort_sorted vals) x Hx) as Hle.
  unfold mul_bool, Rltb. destruct (Rlt_dec _ _) as [_|Hn]; [simpl; lra|lra].
Qed.

Lemma kept_sums (f : R) (vals : list R) :
  0 < f ->
  Rsum (kept f vals) = Rsum vals /\
  Rsum (map (fun x => x ^ 2) (kept f vals)) = Rsum (map (fun x => x ^ 2) vals).
Proof.
  intros Hf. rewrite kept_all by assumption. split.
  - symmetry. apply Rsum_perm, Rsort_perm.
  - symmetry. apply Rsum_perm, Permutation_map, Rsort_perm.
Qed.

(** ** The single-step solver, pixel by pixel *)

Lemma class_pairs_2d :
  class_pairs 2 1 = [(1, 7); (3, 5)]%nat /\ class_pairs 2 2 = [(0, 8); (2, 6)]%nat.
Proof. split; reflexivity. Qed.

Lemma class_pairs_3d :
  class_pairs 3 1 = [(4, 22); (10, 16); (12, 14)]%nat /\
  class_pairs 3 2 = [(1, 25); (3, 23); (5, 21); (7, 19); (9, 17); (11, 15)]%nat /\
  class_pairs 3 3 = [(0, 26); (2, 24); (6, 20); (8, 18)]%nat.
Proof. repeat split; reflexivity. Qed.

Lemma select2_agrees (t : Tensor R) (b c K : nat) (sp : list nat)
  (g : index -> R) (k : nat) :
  agrees t (b :: c :: K :: sp) g -> (k < K)%nat ->
  exists r, select 2 k t = Ok r /\
            agrees r (b :: c :: sp) (fun idx => g (insert_at 2 k idx)).
Proof.
  intros [Hs Hd] Hk. unfold select, ndim. rewrite Hs.
  assert (E : ((2 <? length (b :: c :: K :: sp)) && (k <? nth 2 (b :: c :: K :: sp) 0))%nat
              = true).
  { apply andb_true_iff. split; apply Nat.ltb_lt; simpl; lia. }
  rewrite E. eexists; split; [reflexivity|]. split; [reflexivity|].
  intros idx Hin. simpl data. apply Hd.
  destruct idx as [|bi [|ci xs]]; try (inversion Hin; subst; match goal with
    | H : Forall2 _ [] (_ :: _) |- _ => inversion H end).
  apply in_range_cons in Hin as [Hb Hin]. apply in_range_cons in Hin as [Hc Hin].
  unfold insert_at. simpl.
  repeat (apply in_range_cons; split; [assumption|]). assumption.
Qed.

Lemma pair_minimum_agrees (t : Tensor R) (b c K : nat) (sp : list nat)
  (g : index -> R) (p : nat * nat) :
  agrees t (b :: c :: K :: sp) g -> (fst p < K)%nat -> (snd p < K)%nat ->
  exists r, reference_pair_minimum t p = Ok r /\
    agrees r (b :: c :: sp)
      (fun idx => Rmin (g (insert_at 2 (fst p) idx)) (g (insert_at 2 (snd p) idx))).
Proof.
  intros Ht H1 H2. unfold reference_pair_minimum.
  destruct (select2_agrees _ _ _ _ _ _ _ Ht H1) as (x & -> & Hx). cbn [bind].
  destruct (select2_agrees _ _ _ _ _ _ _ Ht H2) as (y & -> & Hy). cbn [bind].
  exact (broadcast2_agrees Rmin _ _ _ _ _ Hx Hy).
Qed.

Lemma mapM_pair_minimum_agrees (t : Tensor R) (b c K : nat) (sp : list nat)
  (g : index -> R) (pairs : list (nat * nat)) :
  agrees t (b :: c :: K :: sp) g ->
  Forall (fun p => (fst p < K)%nat /\ (snd p < K)%nat) pairs ->
  exists ts, mapM (reference_pair_minimum t) pairs = Ok ts /\
    Forall2 (fun p r => agrees r (b :: c :: sp)
               (fun idx => Rmin (g (insert_at 2 (fst p) idx))
                                (g (insert_at 2 (snd p) idx))))
            pairs ts.
Proof.
  intros Ht Hall. induction Hall as [|p pairs [H1 H2] _ IH]; simpl.
  - exists []. split; [reflexivity|constructor].
  - destruct (pair_minimum_agrees _ _ _ _ _ _ _ Ht H1 H2) as (r & -> & Hr).
    cbn [bind]. destruct IH as (ts & -> & Hts). cbn [bind].
    exists (r :: ts). split; [reflexivity|]. now constructor.
Qed.

Lemma same_shapes_true {A} (s : list nat) (ts : list (Tensor A)) :
  Forall (fun t => shape t = s) ts -> same_shapes s ts = true.
Proof.
  intros H. unfold same_shapes. apply forallb_forall.
  rewrite Forall_forall in H. intros t Ht. apply shape_eqb_eq. now apply H.
Qed.

Lemma stack_agrees {P} (h : P -> index -> R) (s : list nat) (p0 : P)
  (ps : list P) (ts : list (Tensor R)) :
  Forall2 (fun p r => agrees r s (h p)) (p0 :: ps) ts ->
  exists st, stack 0 ts = Ok st /\
    agrees st (length (p0 :: ps) :: s)
      (fun idx => h (nth (hd 0%nat idx) (p0 :: ps) p0) (tl idx)).
Proof.
  intros H. destruct ts as [|t0 ts]; [inversion H|].
  assert (Hshapes : Forall (fun t => shape t = s) (t0 :: ts)).
  { clear -H. induction H as [|p r ps' ts' [Hr _] _ IH]; now constructor. }
  assert (Hlen : length (t0 :: ts) = length (p0 :: ps)).
  { symmetry. eapply Forall2_length; eassumption. }
  unfold stack. inversion Hshapes as [|? ? Ht0 _]; subst.
  rewrite (same_shapes_true _ _ Hshapes).
  eexists; split; [reflexivity|]. split.
  - cbn [shape]. now rewrite Hlen.
  - intros [|k idx] Hin; [inversion Hin|].
    apply in_range_cons in Hin as [Hk Hin]. cbn [data hd tl].
    assert (Hnth : forall k (qs : list P) (rs : list (Tensor R)) q r,
               Forall2 (fun p r => agrees r (shape t0) (h p)) qs rs ->
               (k < length qs)%nat ->
               agrees (nth k rs r) (shape t0) (h (nth k qs q))).
    { clear. intros k qs rs q r HF. revert k.
      induction HF as [|p' r' qs rs Hh _ IH]; intros k Hk; [simpl in Hk; lia|].
      destruct k as [|k]; [exact Hh|]. simpl. apply IH. simpl in Hk. lia. }
    destruct (Hnth k _ _ p0 t0 H Hk) as [_ Hd]. now apply Hd.
Qed.

Lemma INR_spatial (b c : nat) (sp : list nat) :
  IZR (Z.of_nat (S (length (b :: c :: sp))) - 3) = INR (length sp).
Proof.
  rewrite INR_IZR_INZ. f_equal. simpl length. lia.
Qed.

(** One direction class of the source and of the reference, on a proper
    neighbour stack: both succeed with the same tensor, whose value at a pixel
    is the accumulator times the pixel's reduced pair minima. *)
Lemma class_agrees (t acc : Tensor R) (b c K : nat) (sp : list nat)
  (g ga : index -> R) (f : R) (p0 : nat * nat) (ps : list (nat * nat)) :
  agrees t (b :: c :: K :: sp) g ->
  agrees acc (b :: c :: sp) ga ->
  Forall (fun p => (fst p < K)%nat /\ (snd p < K)%nat) (p0 :: ps) ->
  0 < f -> sp <> [] ->
  exists acc',
    reference_class t acc (f, p0 :: ps) = Ok acc' /\
    (minima <- mapM (reference_pair_minimum t) (p0 :: ps) ;;
     stacked <- stack 0 minima ;;
     u <- _apply_update stacked f ;;
     inplace2 Rmult acc u) = Ok acc' /\
    agrees acc' (b :: c :: sp)
      (fun idx => ga idx * pixel_reduce (INR (length sp)) f
                    (pair_minima (fun k => g (insert_at 2 k idx)) (p0 :: ps))).
Proof.
  intros Ht Hacc Hall Hf Hsp. unfold reference_class.
  destruct (mapM_pair_minimum_agrees _ _ _ _ _ _ _ Ht Hall) as (ts & -> & Hts).
  cbn [bind].
  destruct (stack_agrees
              (fun p idx => Rmin (g (insert_at 2 (fst p) idx))
                                 (g (insert_at 2 (snd p) idx)))
              _ _ _ _ Hts) as (st & -> & Hst).
  cbn [bind]. simpl length in Hst.
  destruct (apply_update_pixel st f _ _ _ Hst) as (u & -> & Hu).
  { simpl. destruct sp; [contradiction|simpl; lia]. }
  cbn [bind].
  assert (Hu' : agrees u (b :: c :: sp)
            (fun idx => pixel_reduce (INR (length sp)) f
                    (pair_minima (fun k => g (insert_at 2 k idx)) (p0 :: ps)))).
  { eapply agrees_ext; [exact Hu|]. intros idx Hin. cbv beta zeta.
    match goal with |- context [kept f ?col] =>
      destruct (kept_sums f col Hf) as [-> ->];
      assert (Hcol : col = pair_minima (fun k => g (insert_at 2 k idx)) (p0 :: ps))
    end.
    { unfold pixel_column, pair_minima. cbn [hd tl].
      apply (map_nth_seq
               (fun p => Rmin (g (insert_at 2 (fst p) idx)) (g (insert_at 2 (snd p) idx)))
               (p0 :: ps) p0). }
    rewrite Hcol. unfold pixel_reduce. cbv zeta.
    replace (IZR (Z.of_nat (S (length (b :: c :: sp))) - 3)) with (INR (length sp))
      by (symmetry; apply INR_spatial).
    field. apply not_0_INR. destruct sp; [contradiction|simpl; lia]. }
  destruct Hacc as [Hsa Hda]. destruct Hu' as [Hsu Hdu].
  unfold broadcast2, inplace2. rewrite Hsa, Hsu, broadcast_shapes_refl, shape_eqb_refl.
  eexists. split; [reflexivity|]. split; [reflexivity|]. split; [reflexivity|].
  intros idx Hin. cbn [data]. rewrite (bidx_in_range _ _ Hin).
  now rewrite Hda, Hdu.
Qed.

Lemma direction_classes_2d :
  direction_classes 2 = [(1, [(1, 7); (3, 5)]%nat); (sqrt 2, [(0, 8); (2, 6)]%nat)].
Proof.
  unfold direction_classes. cbn [seq map].
  destruct class_pairs_2d as [-> ->].
  replace (INR 2) with 2 by (simpl; lra). cbn [INR]. now rewrite sqrt_1.
Qed.

Lemma direction_classes_3d :
  direction_classes 3 =
  [(1, [(4, 22); (10, 16); (12, 14)]%nat);
   (sqrt 2, [(1, 25); (3, 23); (5, 21); (7, 19); (9, 17); (11, 15)]%nat);
   (sqrt 3, [(0, 26); (2, 24); (6, 20); (8, 18)]%nat)].
Proof.
  unfold direction_classes. cbn [seq map].
  destruct class_pairs_3d as (-> & -> & ->).
  replace (INR 3) with 3 by (simpl; lra).
  replace (INR 2) with 2 by (simpl; lra). cbn [INR]. now rewrite sqrt_1.
Qed.

Lemma sqrt2_pos : 0 < sqrt 2.
Proof. apply sqrt_lt_R0. lra. Qed.

Lemma sqrt3_pos : 0 < sqrt 3.
Proof. apply sqrt_lt_R0. lra. Qed.

Ltac pairs_below :=
  repeat (apply Forall_cons; [split; cbn [fst snd]; lia|]); apply Forall_nil.

(** On a stack with nine neighbours per pixel the source and the reference
    return the same tensor, which holds [single_step_pixel] at every pixel. *)
Lemma single_step_2d (cc : Tensor R) (b c x y : nat) (g : index -> R) :
  agrees cc [b; c; 9; x; y]%nat g ->
  exists out,
    eikonal_single_step cc = Ok out /\
    single_step_reference cc = Ok out /\
    agrees out [b; c; x; y]
      (fun idx => single_step_pixel 2 (fun k => g (insert_at 2 k idx))).
Proof.
  intros Hcc. pose proof Hcc as [Hs _].
  unfold eikonal_single_step, single_step_reference, ndim. rewrite Hs.
  cbn [length direction_tables Nat.eqb Nat.sub bind].
  destruct (select2_agrees cc b c 9 [x; y]%nat g 0 Hcc) as (first & -> & [Hf _]);
    [lia|].
  cbn [bind]. rewrite direction_classes_2d.
  cbn [factors_2d index_list_2d tl combine foldM].
  assert (Hphi : agrees (ones_like first) [b; c; x; y]%nat (fun _ => 1))
    by (split; [exact Hf|reflexivity]).
  replace (mkTensor (remove_at 2 [b; c; 9; x; y]%nat) (fun _ : index => 1))
    with (ones_like first) by (unfold ones_like; now rewrite Hf).
  change (class_update cc (ones_like first) ([1; 3; 5; 7]%nat, 1))
    with (minima <- mapM (reference_pair_minimum cc) [(1, 7); (3, 5)]%nat ;;
          stacked <- stack 0 minima ;;
          u <- _apply_update stacked 1 ;;
          inplace2 Rmult (ones_like first) u).
  destruct (class_agrees cc _ b c 9 [x; y]%nat g _ 1 (1, 7)%nat [(3, 5)%nat]
              Hcc Hphi) as (acc1 & -> & -> & H1);
    [pairs_below|lra|discriminate|].
  cbn [bind].
  change (class_update cc acc1 ([0; 2; 6; 8]%nat, sqrt 2))
    with (minima <- mapM (reference_pair_minimum cc) [(0, 8); (2, 6)]%nat ;;
          stacked <- stack 0 minima ;;
          u <- _apply_update stacked (sqrt 2) ;;
          inplace2 Rmult acc1 u).
  destruct (class_agrees cc _ b c 9 [x; y]%nat g _ (sqrt 2) (0, 8)%nat [(2, 6)%nat]
              Hcc H1) as (acc2 & -> & -> & H2);
    [pairs_below|apply sqrt2_pos|discriminate|].
  cbn [bind]. eexists. split; [reflexivity|]. split; [reflexivity|].
  apply (tmap_agrees sqrt) in H2.
  eapply agrees_ext; [exact H2|].
  intros idx _. unfold single_step_pixel. rewrite direction_classes_2d.
  reflexivity.
Qed.

Lemma single_step_3d (cc : Tensor R) (b c x y z : nat) (g : index -> R) :
  agrees cc [b; c; 27; x; y; z]%nat g ->
  exists out,
    eikonal_single_step cc = Ok out /\
    single_step_reference cc = Ok out /\
    agrees out [b; c; x; y; z]
      (fun idx => single_step_pixel 3 (fun k => g (insert_at 2 k idx))).
Proof.
  intros Hcc. pose proof Hcc as [Hs _].
  unfold eikonal_single_step, single_step_reference, ndim. rewrite Hs.
  cbn [length direction_tables Nat.eqb Nat.sub bind].
  destruct (select2_agrees cc b c 27 [x; y; z]%nat g 0 Hcc) as (first & -> & [Hf _]);
    [lia|].
  cbn [bind]. rewrite direction_classes_3d.
  cbn [factors_3d index_list_3d tl combine foldM].
  assert (Hphi : agrees (ones_like first) [b; c; x; y; z]%nat (fun _ => 1))
    by (split; [exact Hf|reflexivity]).
  replace (mkTensor (remove_at 2 [b; c; 27; x; y; z]%nat) (fun _ : index => 1))
    with (ones_like first) by (unfold ones_like; now rewrite Hf).
  change (class_update cc (ones_like first) ([4; 10; 12; 14; 16; 22]%nat, 1))
    with (minima <- mapM (reference_pair_minimum cc)
                      [(4, 22); (10, 16); (12, 14)]%nat ;;
          stacked <- stack 0 minima ;;
          u <- _apply_update stacked 1 ;;
          inplace2 Rmult (ones_like first) u).
  destruct (class_agrees cc _ b c 27 [x; y; z]%nat g _ 1 (4, 22)%nat
              [(10, 16); (12, 14)]%nat Hcc Hphi) as (acc1 & -> & -> & H1);
    [pairs_below|lra|discriminate|].
  cbn [bind].
  change (class_update cc acc1
            ([1; 3; 5; 7; 9; 11; 15; 17; 19; 21; 23; 25]%nat, sqrt 2))
    with (minima <- mapM (reference_pair_minimum cc)
                      [(1, 25); (3, 23); (5, 21); (7, 19); (9, 17); (11, 15)]%nat ;;
          stacked <- stack 0 minima ;;
          u <- _apply_update stacked (sqrt 2) ;;
          inplace2 Rmult acc1 u).
  destruct (class_agrees cc _ b c 27 [x; y; z]%nat g _ (sqrt 2) (1, 25)%nat
              [(3, 23); (5, 21); (7, 19); (9, 17); (11, 15)]%nat Hcc H1)
    as (acc2 & -> & -> & H2);
    [pairs_below|apply sqrt2_pos|discriminate|].
  cbn [bind].
  change (class_update cc acc2 ([0; 2; 6; 8; 18; 20; 24; 26]%nat, sqrt 3))
    with (minima <- mapM (reference_pair_minimum cc)
                      [(0, 26); (2, 24); (6, 20); (8, 18)]%nat ;;
          stacked <- stack 0 minima ;;
          u <- _apply_update stacked (sqrt 3) ;;
          inplace2 Rmult acc2 u).
  destruct (class_agrees cc _ b c 27 [x; y; z]%nat g _ (sqrt 3) (0, 26)%nat
              [(2, 24); (6, 20); (8, 18)]%nat Hcc H2)
    as (acc3 & -> & -> & H3);
    [pairs_below|apply sqrt3_pos|discriminate|].
  cbn [bind]. eexists. split; [reflexivity|]. split; [reflexivity|].
  apply (tmap_agrees sqrt) in H3.
  eapply agrees_ext; [exact H3|].
  intros idx _. unfold single_step_pixel. rewrite direction_classes_3d.
  reflexivity.
Qed.

(** ** The driver, pixel by pixel *)

Lemma broadcast_shapes_axis2 (b c K : nat) (sp : list nat) :
  broadcast_shapes (b :: c :: K :: sp) (b :: c :: 1%nat :: sp) = Some (b :: c :: K :: sp).
Proof.
  unfold broadcast_shapes, pad_shape. cbn [length].
  rewrite Nat.max_id, Nat.sub_diag. cbn [repeat app broadcast_dims].
  now rewrite !broadcast_dim_refl, broadcast_dim_1_r, broadcast_dims_refl.
Qed.

Lemma in_range_split3 (b c K : nat) (sp : list nat) (idx : index) :
  in_range (b :: c :: K :: sp) idx ->
  exists bi ci k xs, idx = bi :: ci :: k :: xs /\
    (bi < b)%nat /\ (ci < c)%nat /\ (k < K)%nat /\ in_range sp xs.
Proof.
  intros H. pose proof (in_range_length _ _ H) as Hlen.
  destruct idx as [|bi [|ci [|k xs]]]; try discriminate Hlen.
  apply in_range_cons in H as [Hb H]. apply in_range_cons in H as [Hc H].
  apply in_range_cons in H as [Hk H]. now exists bi, ci, k, xs.
Qed.

Lemma in_range_split2 (b c : nat) (sp : list nat) (idx : index) :
  in_range (b :: c :: sp) idx ->
  exists bi ci xs, idx = bi :: ci :: xs /\
    (bi < b)%nat /\ (ci < c)%nat /\ in_range sp xs.
Proof.
  intros H. pose proof (in_range_length _ _ H) as Hlen.
  destruct idx as [|bi [|ci xs]]; try discriminate Hlen.
  apply in_range_cons in H as [Hb H]. apply in_range_cons in H as [Hc H].
  now exists bi, ci, xs.
Qed.

Lemma in_range_insert2 (b c K : nat) (sp : list nat) (idx : index) (k : nat) :
  in_range (b :: c :: sp) idx -> (k < K)%nat ->
  in_range (b :: c :: K :: sp) (insert_at 2 k idx).
Proof.
  intros H Hk. destruct (in_range_split2 _ _ _ _ H) as (bi & ci & xs & -> & ? & ? & ?).
  unfold insert_at. simpl.
  repeat (apply in_range_cons; split; [assumption|]). assumption.
Qed.

Lemma in_range_remove2 (b c K : nat) (sp : list nat) (idx : index) :
  in_range (b :: c :: K :: sp) idx -> in_range (b :: c :: sp) (remove_at 2 idx).
Proof.
  intros H.
  destruct (in_range_split3 _ _ _ _ _ H) as (bi & ci & k & xs & -> & ? & ? & ? & ?).
  unfold remove_at. simpl.
  repeat (apply in_range_cons; split; [assumption|]). assumption.
Qed.

(** A stack against a field with a singleton axis 2, as in
    [affinity_mask != instance_mask.unsqueeze(2)]. *)
Lemma broadcast2_agrees_axis2 {A B C} (f : A -> B -> C) (t1 : Tensor A)
  (t2 : Tensor B) (b c K : nat) (sp : list nat) (g1 : index -> A) (g2 : index -> B) :
  agrees t1 (b :: c :: K :: sp) g1 ->
  agrees t2 (b :: c :: 1%nat :: sp) g2 ->
  exists t, broadcast2 f t1 t2 = Ok t /\
    agrees t (b :: c :: K :: sp) (fun idx => f (g1 idx) (g2 (set_at 2 0%nat idx))).
Proof.
  intros [Hs1 Hd1] [Hs2 Hd2]. unfold broadcast2.
  rewrite Hs1, Hs2, broadcast_shapes_axis2.
  eexists; split; [reflexivity|]. split; [reflexivity|].
  intros idx Hin. cbn [data]. rewrite (bidx_in_range _ _ Hin).
  rewrite Hd1 by assumption. f_equal.
  destruct (in_range_split3 _ _ _ _ _ Hin) as (bi & ci & k & xs & -> & Hb & Hc & Hk & Hxs).
  assert (Hin2 : in_range (b :: c :: 1%nat :: sp) (bi :: ci :: 0%nat :: xs)).
  { repeat (apply in_range_cons; split; [assumption || lia|]). assumption. }
  assert (E : bidx (b :: c :: 1%nat :: sp) (bi :: ci :: k :: xs) = bi :: ci :: 0%nat :: xs).
  { unfold bidx. cbn [length].
    rewrite (in_range_length _ _ Hxs), Nat.sub_diag. cbn [skipn expand_index].
    rewrite (expand_index_in_range _ _ Hxs). cbn [Nat.eqb].
    destruct (Nat.eqb_spec b 1); destruct (Nat.eqb_spec c 1);
      repeat f_equal; lia. }
  rewrite E. unfold set_at. cbn [firstn skipn app]. now apply Hd2.
Qed.

Lemma unsqueeze2_agrees {A} (t : Tensor A) (b c : nat) (sp : list nat)
  (g : index -> A) :
  agrees t (b :: c :: sp) g ->
  exists r, unsqueeze 2 t = Ok r /\
    agrees r (b :: c :: 1%nat :: sp) (fun idx => g (remove_at 2 idx)).
Proof.
  intros [Hs Hd]. unfold unsqueeze, ndim. rewrite Hs. cbn [length Nat.leb].
  eexists; split; [reflexivity|]. split; [reflexivity|].
  intros idx Hin. cbn [data]. apply Hd. now apply in_range_remove2 in Hin.
Qed.

Lemma reduce_dim2_agrees {A} (add : A -> A -> A) (zero : A) (t : Tensor A)
  (b c K : nat) (sp : list nat) (g : index -> A) :
  agrees t (b :: c :: K :: sp) g ->
  exists r, reduce_dim add zero 2 t = Ok r /\
    agrees r (b :: c :: sp)
      (fun idx => fold_right add zero (map (fun k => g (insert_at 2 k idx)) (seq 0 K))).
Proof.
  intros [Hs Hd]. unfold reduce_dim, ndim, fibre. rewrite Hs.
  cbn [length Nat.ltb Nat.leb remove_at firstn skipn app nth].
  eexists; split; [reflexivity|]. split; [reflexivity|].
  intros idx Hin. cbn [data]. f_equal.
  apply map_ext_in. intros k Hk. apply in_seq in Hk.
  apply Hd. apply in_range_insert2; [assumption|lia].
Qed.

(** The affinity mask: an entry is true exactly when the sampled label equals
    the label of the pixel and is positive. *)
Lemma make_affinity_mask_agrees (bc : Tensor R -> result (Tensor R))
  (mask nb : Tensor R) (b c K : nat) (sp : list nat) :
  shape mask = b :: c :: sp ->
  bc mask = Ok nb -> shape nb = b :: c :: K :: sp ->
  exists aff,
    make_affinity_mask bc mask = Ok aff /\
    agrees aff (b :: c :: K :: sp)
      (fun idx => Rgtb (if Rneb (data nb idx) (data mask (remove_at 2 idx))
                        then 0 else data nb idx) 0).
Proof.
  intros Hs Hnb Hsnb. unfold make_affinity_mask. rewrite Hnb. cbn [bind].
  destruct (unsqueeze2_agrees mask b c sp (data mask)) as (centre & -> & Hc);
    [now split|].
  cbn [bind].
  destruct (broadcast2_agrees_axis2 Rneb nb centre b c K sp (data nb) _
              (conj Hsnb (fun _ _ => eq_refl)) Hc) as (differs & -> & Hdiff).
  cbn [bind]. unfold masked_fill.
  destruct Hdiff as [Hsd Hdd]. rewrite Hsd, Hsnb, shape_eqb_refl. cbn [bind].
  eexists; split; [reflexivity|]. split; [reflexivity|].
  intros idx Hin. unfold gt0. cbn [data tmap]. rewrite (Hdd idx Hin).
  destruct (in_range_split3 _ _ _ _ _ Hin) as (bi & ci & k & xs & -> & _).
  reflexivity.
Qed.

(** No direction is affine at a pixel that carries no positive label. *)
Lemma affinity_false_outside (x m : R) :
  m <= 0 -> Rgtb (if Rneb x m then 0 else x) 0 = false.
Proof.
  intros Hm. unfold Rneb, Rgtb.
  destruct (Req_dec_T x m) as [->|_]; destruct (Rgt_dec _ _); try reflexivity; lra.
Qed.

Lemma single_step_stack (cc : Tensor R) (b c : nat) (sp : list nat)
  (g : index -> R) :
  (length sp = 2 \/ length sp = 3)%nat ->
  agrees cc (b :: c :: (3 ^ length sp)%nat :: sp) g ->
  exists out,
    eikonal_single_step cc = Ok out /\
    single_step_reference cc = Ok out /\
    agrees out (b :: c :: sp)
      (fun idx => single_step_pixel (length sp) (fun k => g (insert_at 2 k idx))).
Proof.
  intros [Hlen|Hlen] Hcc.
  - destruct sp as [|x [|y [|? ?]]]; try discriminate Hlen.
    exact (single_step_2d cc b c x y g Hcc).
  - destruct sp as [|x [|y [|z [|? ?]]]]; try discriminate Hlen.
    exact (single_step_3d cc b c x y z g Hcc).
Qed.

Lemma sampler_spec_stack (bc : Tensor R -> result (Tensor R)) (t : Tensor R)
  (b c : nat) (sp : list nat) :
  sampler_spec bc ->
  (length sp = 2 \/ length sp = 3)%nat ->
  shape t = b :: c :: sp ->
  exists nb, bc t = Ok nb /\ shape nb = b :: c :: (3 ^ length sp)%nat :: sp.
Proof.
  intros Hbc Hlen Hs. destruct (Hbc t) as (nb & Hnb & Hsnb).
  - unfold ndim. rewrite Hs. simpl. lia.
  - exists nb. split; [assumption|]. now rewrite Hsnb, Hs.
Qed.

Section DriverLemmas.

Variable bc : Tensor R -> result (Tensor R).
Hypothesis bc_spec : sampler_spec bc.

Variables (b c : nat) (sp : list nat).
Hypothesis rank : (length sp = 2 \/ length sp = 3)%nat.

Variables (aff sem : Tensor bool) (ga gs : index -> bool).
Hypothesis aff_agrees : agrees aff (b :: c :: (3 ^ length sp)%nat :: sp) ga.
Hypothesis sem_agrees : agrees sem (b :: c :: sp) gs.

(** The value an update pass leaves at a pixel, from the sampled stack. *)
Lemma update_pass_spec (T : Tensor R) :
  shape T = b :: c :: sp ->
  exists nb T1,
    bc T = Ok nb /\ shape nb = b :: c :: (3 ^ length sp)%nat :: sp /\
    update_pass bc aff sem T = Ok T1 /\
    agrees T1 (b :: c :: sp)
      (fun idx =>
         mul_bool
           (single_step_pixel (length sp)
              (fun k => mul_bool (data nb (insert_at 2 k idx)) (ga (insert_at 2 k idx))))
           (gs idx)).
Proof.
  intros Hs.
  destruct (sampler_spec_stack bc T b c sp bc_spec rank Hs) as (nb & Hnb & Hsnb).
  exists nb. unfold update_pass. rewrite Hnb. cbn [bind].
  destruct (broadcast2_agrees mul_bool nb aff _ (data nb) ga
              (conj Hsnb (fun _ _ => eq_refl)) aff_agrees) as (cc & -> & Hcc).
  cbn [bind].
  destruct (single_step_stack cc b c sp _ rank Hcc) as (T1 & -> & _ & HT1).
  cbn [bind].
  destruct (inplace2_agrees mul_bool T1 sem _ _ _ HT1 sem_agrees) as (T2 & -> & HT2).
  exists T2. split; [reflexivity|]. split; [assumption|].
  split; [reflexivity|exact HT2].
Qed.

(** Lines 154-156 at a pixel: the sum of the masked neighbour values divided
    by the number [3^d] of directions. *)
Lemma smooth_spec (T : Tensor R) :
  shape T = b :: c :: sp ->
  exists nb T2,
    bc T = Ok nb /\ shape nb = b :: c :: (3 ^ length sp)%nat :: sp /\
    smooth bc aff T = Ok T2 /\
    agrees T2 (b :: c :: sp)
      (fun idx =>
         Rsum (map (fun k => mul_bool (data nb (insert_at 2 k idx))
                                      (ga (insert_at 2 k idx)))
                   (seq 0 (3 ^ length sp)))
         / INR (3 ^ length sp)).
Proof.
  intros Hs.
  destruct (sampler_spec_stack bc T b c sp bc_spec rank Hs) as (nb & Hnb & Hsnb).
  exists nb. unfold smooth. rewrite Hnb. cbn [bind].
  destruct (broadcast2_agrees mul_bool nb aff _ (data nb) ga
              (conj Hsnb (fun _ _ => eq_refl)) aff_agrees) as (m & -> & Hm).
  cbn [bind]. unfold mean_dim, sum_dim.
  destruct (reduce_dim2_agrees Rplus 0 m _ _ _ _ _ Hm) as (r & -> & Hr).
  cbn [bind]. eexists. split; [reflexivity|]. split; [assumption|].
  split; [reflexivity|]. split; [apply Hr|].
  intros idx Hin. cbn [data tmap]. destruct Hr as [_ Hr].
  rewrite (Hr idx Hin). destruct Hm as [-> _]. reflexivity.
Qed.

(** One pass of the loop on a state whose fields have the shape of the mask. *)
Lemma loop_body_spec (st : loop_state) :
  shape (st_T st) = b :: c :: sp ->
  shape (st_T0 st) = b :: c :: sp ->
  exists T1 diff st',
    update_pass bc aff sem (st_T st) = Ok T1 /\
    shape T1 = b :: c :: sp /\
    agrees diff (b :: c :: sp) (fun idx => data T1 idx - data (st_T0 st) idx) /\
    loop_body bc aff sem st = Ok st' /\
    st_error st' = mean_all (tmap (fun x => x * x) diff) /\
    st_t st' = (st_t st + 1)%Z /\
    ((st_t st < 1)%Z -> smooth bc aff T1 = Ok (st_T st')) /\
    ((1 <= st_t st)%Z -> st_T st' = T1) /\
    shape (st_T st') = b :: c :: sp /\
    agrees (st_T0 st') (b :: c :: sp) (data (st_T st')).
Proof.
  intros HsT HsT0.
  destruct (update_pass_spec (st_T st) HsT) as (nb & T1 & _ & _ & HT1 & Hag).
  pose proof Hag as [HsT1 _].
  destruct (broadcast2_agrees Rminus T1 (st_T0 st) _ (data T1) (data (st_T0 st))
              (conj HsT1 (fun _ _ => eq_refl)) (conj HsT0 (fun _ _ => eq_refl)))
    as (diff & Hdiff & Hdag).
  exists T1, diff. unfold loop_body. rewrite HT1. cbn [bind]. rewrite Hdiff.
  cbn [bind].
  destruct (Z.ltb_spec (st_t st) 1) as [Ht|Ht].
  - destruct (smooth_spec T1 HsT1) as (nb1 & T2 & _ & _ & HT2 & [HsT2 _]).
    rewrite HT2. cbn [bind].
    destruct (inplace2_agrees (fun (_ x : R) => x) (st_T0 st) T2 _
                (data (st_T0 st)) (data T2)
                (conj HsT0 (fun _ _ => eq_refl)) (conj HsT2 (fun _ _ => eq_refl)))
      as (T0' & -> & HT0').
    cbn [bind]. eexists.
    split; [reflexivity|]. split; [exact HsT1|]. split; [exact Hdag|].
    split; [reflexivity|]. split; [reflexivity|]. split; [reflexivity|].
    cbn [st_T st_T0 st_t st_error].
    split; [intros _; reflexivity|]. split; [intros ?; lia|].
    split; [exact HsT2|exact HT0'].
  - cbn [bind].
    destruct (inplace2_agrees (fun (_ x : R) => x) (st_T0 st) T1 _
                (data (st_T0 st)) (data T1)
                (conj HsT0 (fun _ _ => eq_refl)) (conj HsT1 (fun _ _ => eq_refl)))
      as (T0' & -> & HT0').
    cbn [bind]. eexists.
    split; [reflexivity|]. split; [exact HsT1|]. split; [exact Hdag|].
    split; [reflexivity|]. split; [reflexivity|]. split; [reflexivity|].
    cbn [st_T st_T0 st_t st_error].
    split; [intros ?; lia|]. split; [reflexivity|].
    split; [exact HsT1|exact HT0'].
Qed.

End DriverLemmas.

(** ** The loop *)

Lemma Rsum_zero (l : list R) : (forall x, In x l -> x = 0) -> Rsum l = 0.
Proof.
  induction l as [|a l IH]; intros H; simpl; [reflexivity|].
  rewrite (H a) by (now left). rewrite IH; [lra|].
  intros x Hx. apply H. now right.
Qed.

Lemma remove_insert2 (k : nat) (idx : index) :
  (2 <= length idx)%nat -> remove_at 2 (insert_at 2 k idx) = idx.
Proof.
  intros H. destruct idx as [|bi [|ci xs]]; simpl in H; try lia. reflexivity.
Qed.

Section LoopLemmas.

Variable bc : Tensor R -> result (Tensor R).
Hypothesis bc_spec : sampler_spec bc.

Variables (mask : Tensor R) (b c : nat) (sp : list nat).
Hypothesis mask_shape : shape mask = b :: c :: sp.
Hypothesis rank : (length sp = 2 \/ length sp = 3)%nat.

Lemma sem_agrees :
  agrees (gt0 mask) (b :: c :: sp) (fun idx => Rgtb (data mask idx) 0).
Proof. split; [exact mask_shape|reflexivity]. Qed.

(** The affinity mask exists, has the shape of a stack, and is false in every
    direction at a pixel without a positive label. *)
Lemma affinity_mask_spec :
  exists aff,
    make_affinity_mask bc mask = Ok aff /\
    shape aff = b :: c :: (3 ^ length sp)%nat :: sp /\
    forall idx k, in_range (b :: c :: sp) idx -> (k < 3 ^ length sp)%nat ->
      data mask idx <= 0 -> data aff (insert_at 2 k idx) = false.
Proof.
  destruct (sampler_spec_stack bc mask b c sp bc_spec rank mask_shape)
    as (nb & Hnb & Hsnb).
  destruct (make_affinity_mask_agrees bc mask nb b c _ sp mask_shape Hnb Hsnb)
    as (aff & Haff & Hs & Hd).
  exists aff. split; [assumption|]. split; [assumption|].
  intros idx k Hin Hk Hm.
  rewrite Hd by (now apply in_range_insert2).
  rewrite remove_insert2
    by (rewrite (in_range_length _ _ Hin); simpl; lia).
  now apply affinity_false_outside.
Qed.

Variable aff : Tensor bool.
Hypothesis aff_ok : make_affinity_mask bc mask = Ok aff.

Lemma aff_shape : shape aff = b :: c :: (3 ^ length sp)%nat :: sp.
Proof.
  destruct affinity_mask_spec as (aff' & H & Hs & _).
  rewrite aff_ok in H. now injection H as ->.
Qed.

Lemma aff_outside (idx : index) (k : nat) :
  in_range (b :: c :: sp) idx -> (k < 3 ^ length sp)%nat ->
  data mask idx <= 0 -> data aff (insert_at 2 k idx) = false.
Proof.
  destruct affinity_mask_spec as (aff' & H & _ & Hd).
  rewrite aff_ok in H. injection H as ->. exact (Hd idx k).
Qed.

Lemma aff_agrees_self : agrees aff (b :: c :: (3 ^ length sp)%nat :: sp) (data aff).
Proof. split; [exact aff_shape|reflexivity]. Qed.

Lemma initial_shaped : shaped (b :: c :: sp) (initial_state mask).
Proof. split; exact mask_shape. Qed.

(** An update pass succeeds and leaves a field that is zero outside the
    semantic mask. *)
Lemma update_pass_zero_outside (T : Tensor R) :
  shape T = b :: c :: sp ->
  exists T1, update_pass bc aff (gt0 mask) T = Ok T1 /\
             shape T1 = b :: c :: sp /\ zero_outside mask T1.
Proof.
  intros HsT.
  destruct (update_pass_spec bc bc_spec b c sp rank aff (gt0 mask) _ _ aff_agrees_self
              sem_agrees T HsT) as (nb & T1 & _ & _ & HT1 & [HsT1 Hd]).
  exists T1. split; [assumption|]. split; [assumption|].
  intros idx Hin Hm. rewrite mask_shape in Hin. rewrite (Hd idx Hin).
  unfold mul_bool, Rgtb. destruct (Rgt_dec _ _); [lra|]. simpl. lra.
Qed.

(** A pass succeeds, keeps the shapes, counts one iteration and leaves a
    field that is zero outside the semantic mask. *)
Lemma loop_body_zero_outside (st : loop_state) :
  shaped (b :: c :: sp) st ->
  exists st', loop_body bc aff (gt0 mask) st = Ok st' /\ shaped (b :: c :: sp) st' /\
              st_t st' = (st_t st + 1)%Z /\ zero_outside mask (st_T st').
Proof.
  intros [HsT HsT0].
  destruct (loop_body_spec bc bc_spec b c sp rank aff (gt0 mask) _ _ aff_agrees_self
              sem_agrees st HsT HsT0)
    as (T1 & diff & st' & HT1 & HsT1 & _ & Hbody & _ & Ht & Hsm & Hns & HsT' & HT0').
  exists st'. split; [assumption|]. split; [split; [assumption|apply HT0']|].
  split; [assumption|].
  assert (HT1z : zero_outside mask T1).
  { destruct (update_pass_zero_outside (st_T st) HsT) as (T1' & HT1' & _ & Hz).
    rewrite HT1 in HT1'. now injection HT1' as <-. }
  destruct (Z.ltb_spec (st_t st) 1) as [Hlt|Hge].
  - destruct (smooth_spec bc bc_spec b c sp rank aff _ aff_agrees_self T1 HsT1)
      as (nb & T2 & _ & _ & HT2 & [_ Hd]).
    rewrite (Hsm Hlt) in HT2. injection HT2 as <-.
    intros idx Hin Hm. rewrite mask_shape in Hin. rewrite (Hd idx Hin).
    rewrite Rsum_zero; [unfold Rdiv; lra|].
    intros x Hx. apply in_map_iff in Hx as (k & <- & Hk). apply in_seq in Hk.
    rewrite aff_outside by (assumption || lia). unfold mul_bool. simpl. lra.
  - rewrite (Hns Hge). exact HT1z.
Qed.

(** The error a pass computes on an all-zero mask: the mean square of the
    previous field [T0]. *)
Lemma loop_body_zero_mask (st : loop_state) :
  shaped (b :: c :: sp) st ->
  (forall idx, in_range (b :: c :: sp) idx -> data mask idx <= 0) ->
  exists diff st',
    loop_body bc aff (gt0 mask) st = Ok st' /\ shaped (b :: c :: sp) st' /\
    st_t st' = (st_t st + 1)%Z /\
    agrees diff (b :: c :: sp) (fun idx => 0 - data (st_T0 st) idx) /\
    st_error st' = mean_all (tmap (fun x => x * x) diff) /\
    agrees (st_T st') (b :: c :: sp) (fun _ => 0) /\
    agrees (st_T0 st') (b :: c :: sp) (fun _ => 0).
Proof.
  intros [HsT HsT0] Hzero.
  destruct (loop_body_spec bc bc_spec b c sp rank aff (gt0 mask) _ _ aff_agrees_self
              sem_agrees st HsT HsT0)
    as (T1 & diff & st' & HT1 & HsT1 & Hdiff & Hbody & Herr & Ht & _ & _ & HsT' & HT0').
  destruct (update_pass_zero_outside (st_T st) HsT) as (T1' & HT1' & _ & Hz1).
  rewrite HT1 in HT1'. injection HT1' as <-.
  destruct (loop_body_zero_outside st (conj HsT HsT0)) as (st2 & Hb2 & _ & _ & Hz).
  rewrite Hbody in Hb2. injection Hb2 as <-.
  assert (HTz : agrees (st_T st') (b :: c :: sp) (fun _ => 0)).
  { split; [assumption|]. intros idx Hin. apply Hz; [now rewrite mask_shape|].
    now apply Hzero. }
  exists diff, st'. split; [assumption|]. split; [split; [assumption|apply HT0']|].
  split; [assumption|]. split.
  { eapply agrees_ext; [exact Hdiff|]. intros idx Hin. cbv beta.
    rewrite Hz1; [reflexivity|now rewrite mask_shape|now apply Hzero]. }
  split; [assumption|]. split; [assumption|].
  eapply agrees_ext; [exact HT0'|]. intros idx Hin. now apply HTz.
Qed.

Variables (eps : pyfloat) (min_steps : Z).

(** The loop returns, with fuel for [min_steps - t] passes, and any property
    of states that a pass establishes holds of the state it returns whenever
    it held on entry or a pass was made. *)
Lemma solve_loop_inv (P : loop_state -> Prop) :
  (forall st st', shaped (b :: c :: sp) st -> loop_body bc aff (gt0 mask) st = Ok st' -> P st') ->
  forall fuel st,
    shaped (b :: c :: sp) st -> P st -> (Z.to_nat (min_steps - st_t st) <= fuel)%nat ->
    exists st', solve_loop bc fuel aff (gt0 mask) eps min_steps st = Ok st' /\
                shaped (b :: c :: sp) st' /\ P st' /\ loop_guard eps min_steps st' = false.
Proof.
  intros Hstep. induction fuel as [|fuel IH]; intros st Hsh HP Hfuel.
  - cbn [solve_loop]. destruct (loop_guard eps min_steps st) eqn:Hg.
    + unfold loop_guard in Hg. apply andb_true_iff in Hg as [_ Hg].
      apply Z.ltb_lt in Hg. lia.
    + now exists st.
  - cbn [solve_loop]. destruct (loop_guard eps min_steps st) eqn:Hg.
    + destruct (loop_body_zero_outside st Hsh) as (st1 & Hb & Hsh1 & Ht1 & _).
      rewrite Hb. cbn [bind].
      apply IH; [assumption|now apply (Hstep st)|].
      unfold loop_guard in Hg. apply andb_true_iff in Hg as [_ Hg].
      apply Z.ltb_lt in Hg. lia.
    + now exists st.
Qed.

(** Every number of passes succeeds from a shaped state; after at least one
    the field is zero outside the semantic mask. *)
Lemma passes_zero_outside (n : nat) (st : loop_state) :
  shaped (b :: c :: sp) st ->
  exists st', passes bc aff (gt0 mask) n st = Ok st' /\ shaped (b :: c :: sp) st' /\
              st_t st' = (st_t st + Z.of_nat n)%Z /\
              ((1 <= n)%nat -> zero_outside mask (st_T st')).
Proof.
  intros Hsh. induction n as [|n (st1 & Hp & Hsh1 & Ht1 & _)].
  - exists st. split; [reflexivity|]. split; [assumption|].
    split; [lia|]. intros ?; lia.
  - destruct (loop_body_zero_outside st1 Hsh1) as (st2 & Hb & Hsh2 & Ht2 & Hz).
    exists st2. cbn [passes]. rewrite Hp. cbn [bind].
    split; [assumption|]. split; [assumption|]. split; [lia|]. now intros _.
Qed.

End LoopLemmas.

Lemma passes_front (bc : Tensor R -> result (Tensor R)) (aff sem : Tensor bool)
  (n : nat) (st : loop_state) :
  passes bc aff sem (S n) st
  = (st1 <- loop_body bc aff sem st ;; passes bc aff sem n st1).
Proof.
  induction n as [|n IH].
  - cbn [passes bind]. now destruct (loop_body bc aff sem st).
  - change (passes bc aff sem (S (S n)) st)
      with (st' <- passes bc aff sem (S n) st ;; loop_body bc aff sem st').
    rewrite IH. destruct (loop_body bc aff sem st); reflexivity.
Qed.

(** The state the loop returns is a number of passes away from the state it
    started in. *)
Lemma solve_loop_passes (bc : Tensor R -> result (Tensor R)) (aff sem : Tensor bool)
  (eps : pyfloat) (min_steps : Z) (fuel : nat) (st st' : loop_state) :
  solve_loop bc fuel aff sem eps min_steps st = Ok st' ->
  exists n, passes bc aff sem n st = Ok st' /\ (n <= fuel)%nat.
Proof.
  revert st. induction fuel as [|fuel IH]; intros st H; cbn [solve_loop] in H.
  - destruct (loop_guard eps min_steps st); [discriminate|].
    injection H as <-. exists 0%nat. split; [reflexivity|lia].
  - destruct (loop_guard eps min_steps st).
    + destruct (loop_body bc aff sem st) as [st1|e] eqn:Hb; [|discriminate].
      cbn [bind] in H. destruct (IH st1 H) as (n & Hn & Hle).
      exists (S n). split; [|lia]. rewrite passes_front, Hb. exact Hn.
    + injection H as <-. exists 0%nat. split; [reflexivity|lia].
Qed.

Lemma solve_loop_step (bc : Tensor R -> result (Tensor R)) (aff sem : Tensor bool)
  (eps : pyfloat) (min_steps : Z) (fuel : nat) (st st' : loop_state) :
  loop_guard eps min_steps st = true ->
  loop_body bc aff sem st = Ok st' ->
  solve_loop bc (S fuel) aff sem eps min_steps st
  = solve_loop bc fuel aff sem eps min_steps st'.
Proof. intros Hg Hb. cbn [solve_loop]. now rewrite Hg, Hb. Qed.

Lemma solve_loop_stop (bc : Tensor R -> result (Tensor R)) (aff sem : Tensor bool)
  (eps : pyfloat) (min_steps : Z) (fuel : nat) (st : loop_state) :
  loop_guard eps min_steps st = false ->
  solve_loop bc fuel aff sem eps min_steps st = Ok st.
Proof. intros Hg. destruct fuel; cbn [solve_loop]; now rewrite Hg. Qed.

Lemma bind_ok {A B} (m : result A) (k : A -> result B) (b : B) :
  bind m k = Ok b -> exists a, m = Ok a /\ k a = Ok b.
Proof. destruct m as [a|e]; cbn [bind]; [now exists a|discriminate]. Qed.

(** A pass counts one iteration. *)
Lemma loop_body_counts (bc : Tensor R -> result (Tensor R)) (aff sem : Tensor bool)
  (st st' : loop_state) :
  loop_body bc aff sem st = Ok st' -> st_t st' = (st_t st + 1)%Z.
Proof.
  unfold loop_body. intros H.
  apply bind_ok in H as (T & _ & H). apply bind_ok in H as (diff & _ & H).
  apply bind_ok in H as (T' & _ & H). apply bind_ok in H as (T0 & _ & H).
  now injection H as <-.
Qed.

(** With fuel for [min_steps - t] passes the loop itself never runs out of
    fuel: the only way to see [FuelExhausted] would be a pass raising it. *)
Lemma solve_loop_fuel (bc : Tensor R -> result (Tensor R)) (aff sem : Tensor bool)
  (eps : pyfloat) (min_steps : Z) (fuel : nat) (st : loop_state) :
  (Z.to_nat (min_steps - st_t st) <= fuel)%nat ->
  solve_loop bc fuel aff sem eps min_steps st = Raise FuelExhausted ->
  exists n st1, passes bc aff sem n st = Ok st1 /\
                loop_body bc aff sem st1 = Raise FuelExhausted.
Proof.
  revert st. induction fuel as [|fuel IH]; intros st Hfuel H; cbn [solve_loop] in H;
    destruct (loop_guard eps min_steps st) eqn:Hg; try discriminate.
  - unfold loop_guard in Hg. apply andb_true_iff in Hg as [_ Hg].
    apply Z.ltb_lt in Hg. lia.
  - destruct (loop_body bc aff sem st) as [st1|e] eqn:Hb; cbn [bind] in H.
    + destruct (IH st1) as (n & st2 & Hn & Hraise); [|exact H|].
      * rewrite (loop_body_counts _ _ _ _ _ Hb).
        unfold loop_guard in Hg. apply andb_true_iff in Hg as [_ Hg].
        apply Z.ltb_lt in Hg. lia.
      * exists (S n), st2. split; [|exact Hraise].
        now rewrite passes_front, Hb.
    + injection H as ->. exists 0%nat, st. split; [reflexivity|exact Hb].
Qed.

(** ** The replicate sampler *)

Lemma binary_convolution_replicate_shape (t : Tensor R) (b c : nat) (sp : list nat) :
  shape t = b :: c :: sp ->
  exists s, binary_convolution_replicate t = Ok s /\
            shape s = b :: c :: (3 ^ length sp)%nat :: sp /\
            forall bi ci k xs,
              data s (bi :: ci :: k :: xs) = data t (bi :: ci :: shift_index sp xs k).
Proof.
  intros Hs. unfold binary_convolution_replicate. rewrite Hs.
  eexists. split; [reflexivity|]. split; reflexivity.
Qed.

Lemma binary_convolution_replicate_spec : sampler_spec binary_convolution_replicate.
Proof.
  intros t Hnd. unfold ndim in Hnd.
  destruct (shape t) as [|b [|c sp]] eqn:Hs; simpl in Hnd; try lia.
  destruct (binary_convolution_replicate_shape t b c sp Hs) as (s & H1 & H2 & _).
  exists s. split; [assumption|]. now rewrite H2.
Qed.

Lemma ndim_rank {A} (t : Tensor A) :
  (ndim t = 4 \/ ndim t = 5)%nat ->
  exists b c sp, shape t = b :: c :: sp /\ (length sp = 2 \/ length sp = 3)%nat /\
                 (3 ^ (ndim t - 2) = 3 ^ length sp)%nat.
Proof.
  unfold ndim. intros H.
  destruct (shape t) as [|b [|c sp]]; simpl in H; try lia.
  exists b, c, sp. split; [reflexivity|]. split; [lia|].
  simpl length. f_equal. lia.
Qed.

(** ** Evaluating comparisons and means *)

Lemma Rgtb_true (x y : R) : x > y -> Rgtb x y = true.
Proof. intros H. unfold Rgtb. destruct (Rgt_dec x y); [reflexivity|contradiction]. Qed.

Lemma Rgtb_false (x y : R) : x <= y -> Rgtb x y = false.
Proof. intros H. unfold Rgtb. destruct (Rgt_dec x y); [lra|reflexivity]. Qed.

Lemma Rneb_false (x y : R) : x = y -> Rneb x y = false.
Proof. intros H. unfold Rneb. destruct (Req_dec_T x y); [reflexivity|contradiction]. Qed.

Lemma Rneb_true (x y : R) : x <> y -> Rneb x y = true.
Proof. intros H. unfold Rneb. destruct (Req_dec_T x y); [contradiction|reflexivity]. Qed.

Lemma mean_all_pixel (t : Tensor R) (g : index -> R) :
  agrees t [1; 1; 1; 1]%nat g ->
  mean_all t = Fin ((g [0; 0; 0; 0]%nat + 0) / 1).
Proof.
  intros [Hs Hd]. unfold mean_all. rewrite Hs. cbn.
  rewrite Hd by (repeat constructor). reflexivity.
Qed.

(** ** The first pass on the two-pixel mask *)

Lemma two_pixel_shift (k : nat) :
  (k < 9)%nat ->
  shift_index [1; 2]%nat [0; 0]%nat k = [0; if (k mod 3 =? 2) then 1 else 0]%nat.
Proof. intros Hk. do 9 (destruct k as [|k]; [reflexivity|]). lia. Qed.

Lemma two_pixel_sampled (k : nat) :
  (k < 9)%nat ->
  data two_pixel_mask (0 :: 0 :: shift_index [1; 2] [0; 0] k)%nat
  = if (k mod 3 =? 2)%nat then 0 else 1.
Proof. intros Hk. do 9 (destruct k as [|k]; [reflexivity|]). lia. Qed.

Lemma in_range_stack_pixel0 (k : nat) :
  (k < 9)%nat -> in_range [1; 1; 9; 1; 2]%nat [0; 0; k; 0; 0]%nat.
Proof. intros Hk. repeat (apply Forall2_cons; [lia|]). apply Forall2_nil. Qed.

Lemma pixel_reduce_one_zero : pixel_reduce (INR 2) 1 [1; 0] = 1.
Proof.
  unfold pixel_reduce. cbn [map Rsum fold_right INR].
  replace ((1 + (0 + 0)) ^ 2 - (1 + 1) * (1 ^ 2 + (0 ^ 2 + 0) - 1 ^ 2)) with 1 by lra.
  rewrite Rmax_right by lra. rewrite sqrt_1. lra.
Qed.

Lemma pixel_reduce_zero_zero : pixel_reduce (INR 2) (sqrt 2) [0; 0] = 1.
Proof.
  unfold pixel_reduce. cbn [map Rsum fold_right INR].
  assert (H2 : sqrt 2 ^ 2 = 2) by (apply pow2_sqrt; lra).
  replace ((0 + (0 + 0)) ^ 2 - (1 + 1) * (0 ^ 2 + (0 ^ 2 + 0) - sqrt 2 ^ 2))
    with (2 * 2) by (rewrite H2; lra).
  rewrite Rmax_right by lra. rewrite sqrt_square by lra. lra.
Qed.

Lemma Rmin_11 : Rmin (1 * 1) (1 * 1) = 1.
Proof. unfold Rmin. destruct (Rle_dec _ _); lra. Qed.
Lemma Rmin_10 : Rmin (1 * 1) (1 * 0) = 0.
Proof. unfold Rmin. destruct (Rle_dec _ _); lra. Qed.
Lemma Rmin_01 : Rmin (1 * 0) (1 * 1) = 0.
Proof. unfold Rmin. destruct (Rle_dec _ _); lra. Qed.

(** The first pass of the driver on [two_pixel_mask] with the replicate
    sampler: six of the nine directions of pixel 0 are affine, the update
    pass leaves 1 there and 0 on the background pixel, and the smoothing
    leaves 6/9. *)
Lemma two_pixel_first_pass :
  exists aff T1 nb st',
    make_affinity_mask binary_convolution_replicate two_pixel_mask = Ok aff /\
    update_pass binary_convolution_replicate aff (gt0 two_pixel_mask)
      (ones_like two_pixel_mask) = Ok T1 /\
    binary_convolution_replicate T1 = Ok nb /\
    loop_body binary_convolution_replicate aff (gt0 two_pixel_mask)
      (initial_state two_pixel_mask) = Ok st' /\
    (forall k, (k < 9)%nat ->
       data aff [0; 0; k; 0; 0]%nat = negb (k mod 3 =? 2)%nat) /\
    (forall k, (k < 9)%nat ->
       data nb [0; 0; k; 0; 0]%nat = if (k mod 3 =? 2)%nat then 0 else 1) /\
    data (st_T st') [0; 0; 0; 0]%nat = 6 / 9.
Proof.
  assert (Hs : shape two_pixel_mask = [1; 1; 1; 2]%nat) by reflexivity.
  assert (Hrank : (length [1; 2]%nat = 2 \/ length [1; 2]%nat = 3)%nat) by (now left).
  pose proof binary_convolution_replicate_spec as Hbc.
  (* the affinity mask *)
  destruct (binary_convolution_replicate_shape two_pixel_mask 1 1 [1; 2]%nat Hs)
    as (nbM & HnbM & HsnbM & HdnbM).
  destruct (make_affinity_mask_agrees binary_convolution_replicate two_pixel_mask nbM 1 1 _
              [1; 2]%nat Hs HnbM HsnbM) as (aff & Haff & Hagg).
  assert (Haffk : forall k, (k < 9)%nat ->
             data aff [0; 0; k; 0; 0]%nat = negb (k mod 3 =? 2)%nat).
  { intros k Hk. destruct Hagg as [_ Hd].
    rewrite Hd by (now apply in_range_stack_pixel0).
    rewrite HdnbM, (two_pixel_sampled k Hk).
    change (data two_pixel_mask (remove_at 2 [0; 0; k; 0; 0]%nat)) with 1.
    destruct (k mod 3 =? 2)%nat; cbn [negb].
    - rewrite Rneb_true by lra. apply Rgtb_false. lra.
    - rewrite Rneb_false by reflexivity. apply Rgtb_true. lra. }
  assert (Hag : agrees aff [1; 1; (3 ^ length [1; 2]%nat); 1; 2]%nat (data aff))
    by (split; [exact (proj1 Hagg)|reflexivity]).
  pose proof (sem_agrees two_pixel_mask 1 1 [1; 2]%nat Hs) as Hsem.
  (* the update pass *)
  destruct (update_pass_spec binary_convolution_replicate Hbc 1 1 [1; 2]%nat Hrank aff
              (gt0 two_pixel_mask) _ _ Hag Hsem (ones_like two_pixel_mask) Hs)
    as (nbT & T1 & HnbT & _ & HT1 & [HsT1 HdT1]).
  assert (HnbT1 : forall bi ci k xs, data nbT (bi :: ci :: k :: xs) = 1).
  { destruct (binary_convolution_replicate_shape (ones_like two_pixel_mask) 1 1
                [1; 2]%nat Hs) as (nbT' & HnbT' & _ & Hd').
    rewrite HnbT in HnbT'. injection HnbT' as <-.
    intros bi ci k xs. now rewrite Hd'. }
  assert (HT1_0 : data T1 [0; 0; 0; 0]%nat = 1).
  { rewrite HdT1 by (repeat (apply Forall2_cons; [lia|]); apply Forall2_nil).
    cbn [length]. unfold single_step_pixel. rewrite direction_classes_2d.
    cbn [fold_left fst snd pair_minima map length insert_at firstn skipn app].
    rewrite !HnbT1. rewrite !Haffk by lia.
    cbn [Nat.modulo Nat.divmod Nat.eqb negb fst snd Nat.sub].
    unfold mul_bool. cbn [of_bool].
    rewrite Rmin_11, Rmin_10, Rmin_01.
    rewrite pixel_reduce_one_zero, pixel_reduce_zero_zero.
    replace (1 * 1 * 1) with 1 by lra. rewrite sqrt_1.
    change (data two_pixel_mask [0; 0; 0; 0]%nat) with 1.
    rewrite Rgtb_true by lra. cbn [of_bool]. lra. }
  assert (HT1_1 : data T1 [0; 0; 0; 1]%nat = 0).
  { rewrite HdT1 by (repeat (apply Forall2_cons; [lia|]); apply Forall2_nil).
    change (data two_pixel_mask [0; 0; 0; 1]%nat) with 0.
    rewrite Rgtb_false by lra. unfold mul_bool at 1. cbn [of_bool]. lra. }
  (* the smoothing *)
  destruct (smooth_spec binary_convolution_replicate Hbc 1 1 [1; 2]%nat Hrank aff _ Hag
              T1 HsT1) as (nb & T2 & Hnb & _ & HT2 & [_ HdT2]).
  assert (Hnbk : forall k, (k < 9)%nat ->
             data nb [0; 0; k; 0; 0]%nat = if (k mod 3 =? 2)%nat then 0 else 1).
  { destruct (binary_convolution_replicate_shape T1 1 1 [1; 2]%nat HsT1)
      as (nb' & Hnb' & _ & Hd').
    rewrite Hnb in Hnb'. injection Hnb' as <-.
    intros k Hk. rewrite Hd', (two_pixel_shift k Hk).
    destruct (k mod 3 =? 2)%nat; assumption. }
  destruct (loop_body_spec binary_convolution_replicate Hbc 1 1 [1; 2]%nat Hrank aff
              (gt0 two_pixel_mask) _ _ Hag Hsem (initial_state two_pixel_mask) Hs Hs)
    as (T1' & diff & st' & HT1' & _ & _ & Hbody & _ & _ & Hsm & _).
  cbn [initial_state st_T st_t] in HT1', Hsm.
  rewrite HT1 in HT1'. injection HT1' as <-.
  rewrite (Hsm ltac:(lia)) in HT2. injection HT2 as <-.
  exists aff, T1, nb, st'.
  split; [exact Haff|]. split; [exact HT1|]. split; [exact Hnb|].
  split; [exact Hbody|]. split; [exact Haffk|]. split; [exact Hnbk|].
  rewrite HdT2 by (repeat (apply Forall2_cons; [lia|]); apply Forall2_nil).
  cbn [length Nat.pow Nat.mul Nat.add seq map insert_at firstn skipn app].
  rewrite !Hnbk by lia. rewrite !Haffk by lia.
  cbn [Nat.modulo Nat.divmod Nat.eqb negb fst snd Nat.sub].
  unfold mul_bool. cbn [of_bool Rsum fold_right].
  rewrite INR_IZR_INZ. cbn [Z.of_nat Pos.of_succ_nat Pos.succ].
  lra.
Qed.

(** ** The gradient reconstructor *)

Lemma fill_directions_3d :
  exists vd n,
    foldM (fill_direction 3) (direction_triples 3) (zeros 0%Z [27; 3]%nat, 0%nat)
    = Ok (vd, n) /\ shape vd = [27; 3]%nat.
Proof. eexists. eexists. split; [vm_compute; reflexivity|reflexivity]. Qed.

Lemma fill_directions_2d :
  exists vd n,
    foldM (fill_direction 2) (direction_triples 2) (zeros 0%Z [9; 2]%nat, 0%nat)
    = Ok (vd, n) /\ shape vd = [9; 2]%nat.
Proof. eexists. eexists. split; [vm_compute; reflexivity|reflexivity]. Qed.

Lemma inplace2_cases {A B} (f : A -> B -> A) (t1 : Tensor A) (t2 : Tensor B) :
  inplace2 f t1 t2 = Raise ShapeError \/
  exists t, inplace2 f t1 t2 = Ok t /\ shape t = shape t1.
Proof.
  unfold inplace2. destruct (broadcast_shapes (shape t1) (shape t2)) as [s|];
    [|now left].
  destruct (shape_eqb s (shape t1)) eqn:E; [|now left].
  right. eexists. split; [reflexivity|]. now apply shape_eqb_eq.
Qed.

Lemma broadcast_shapes_3d_mismatch (b c x y z : nat) :
  broadcast_shapes [b; c; 27; 2; x; y; z]%nat [1; 1; 27; 3; 1; 1; 1]%nat = None.
Proof.
  unfold broadcast_shapes, pad_shape. cbn [length Nat.max Nat.sub repeat app].
  cbn [broadcast_dims]. rewrite !broadcast_dim_1_r. reflexivity.
Qed.

(** A single 2D field (batch 1, channel 1) gets a gradient with two
    components. *)
Lemma gradient_2d_shape (bc : Tensor R -> result (Tensor R)) (eikonal nb : Tensor R)
  (x y : nat) :
  shape eikonal = [1; 1; x; y]%nat ->
  bc eikonal = Ok nb ->
  shape nb = [1; 1; 9; x; y]%nat ->
  exists g, gradient_from_eikonal bc eikonal = Ok g /\ shape g = [1; 1; 2; x; y]%nat.
Proof.
  intros Hs Hnb Hsnb. unfold gradient_from_eikonal, ndim. rewrite Hs.
  change (Z.of_nat (length [1; 1; x; y]%nat) - 2)%Z with 2%Z.
  change ((2 <? 2) || (2 >? 3))%Z with false. cbv iota.
  change (Z.to_nat 2) with 2%nat. change (3 ^ 2)%nat with 9%nat.
  destruct fill_directions_2d as (vd & n & -> & Hvd). cbn [bind fst].
  unfold reduce_dim at 1. unfold ndim. cbn [tmap shape]. rewrite Hvd.
  cbn [length Nat.ltb Nat.leb bind].
  change (2 =? 2)%Z with true. cbv iota.
  unfold view at 1. cbn [shape tmap remove_at firstn skipn app].
  change (numel [1; 1; 9; 1; 1; 1]%nat =? numel [9]%nat)%nat with true.
  cbv iota. cbn [bind].
  unfold view at 1. rewrite Hvd.
  change (numel [1; 1; 9; 2; 1; 1]%nat =? numel [9; 2]%nat)%nat with true.
  cbv iota. cbn [bind]. rewrite Hnb. cbn [bind].
  unfold inplace2 at 1. rewrite Hsnb, Hs.
  assert (E1 : broadcast_shapes [1; 1; 9; x; y]%nat [1; 1; x; y]%nat
               = Some [1; 1; 9; x; y]%nat).
  { unfold broadcast_shapes, pad_shape. cbn [length Nat.max Nat.sub repeat app].
    cbn [broadcast_dims]. now rewrite !broadcast_dim_refl, broadcast_dim_1_r. }
  rewrite E1, shape_eqb_refl. cbn [bind].
  unfold unsqueeze, ndim. cbn [shape length Nat.leb bind].
  unfold concat2, ndim. cbn [shape insert_at firstn skipn app length].
  rewrite shape_eqb_refl, Nat.eqb_refl. cbn [Nat.ltb Nat.leb andb bind nth set_at
    firstn skipn app Nat.add].
  unfold broadcast2 at 1. cbn [shape].
  assert (E2 : forall m, broadcast_shapes [1; 1; 9; 2; x; y]%nat [1; 1; 9; m; 1; 1]%nat
               = match broadcast_dim 2 m with
                 | Some k => Some [1; 1; 9; k; x; y]%nat
                 | None => None
                 end).
  { intros m. unfold broadcast_shapes, pad_shape.
    cbn [length Nat.max Nat.sub repeat app]. cbn [broadcast_dims].
    rewrite !broadcast_dim_refl, !broadcast_dim_1_r.
    destruct (broadcast_dim 2 m); reflexivity. }
  rewrite (E2 2%nat). cbn [broadcast_dim Nat.eqb bind].
  unfold broadcast2 at 1. cbn [shape tmap].
  rewrite (E2 1%nat). cbn [broadcast_dim Nat.eqb bind].
  unfold sum_dim, reduce_dim, ndim. cbn [shape length Nat.ltb Nat.leb bind].
  unfold flip, ndim. cbn [shape remove_at firstn skipn app length Nat.ltb Nat.leb].
  eexists. split; reflexivity.
Qed.

(** With two fields in the batch the in-place subtraction of line 225 cannot
    broadcast the field against its stack. *)
Lemma gradient_2d_batch_raises (bc : Tensor R -> result (Tensor R))
  (eikonal nb : Tensor R) (x y : nat) :
  shape eikonal = [2; 1; x; y]%nat ->
  bc eikonal = Ok nb ->
  shape nb = [2; 1; 9; x; y]%nat ->
  gradient_from_eikonal bc eikonal = Raise ShapeError.
Proof.
  intros Hs Hnb Hsnb. unfold gradient_from_eikonal, ndim. rewrite Hs.
  change (Z.of_nat (length [2; 1; x; y]%nat) - 2)%Z with 2%Z.
  change ((2 <? 2) || (2 >? 3))%Z with false. cbv iota.
  change (Z.to_nat 2) with 2%nat. change (3 ^ 2)%nat with 9%nat.
  destruct fill_directions_2d as (vd & n & -> & Hvd). cbn [bind fst].
  unfold reduce_dim at 1. unfold ndim. cbn [tmap shape]. rewrite Hvd.
  cbn [length Nat.ltb Nat.leb bind].
  change (2 =? 2)%Z with true. cbv iota.
  unfold view at 1. cbn [shape tmap remove_at firstn skipn app].
  change (numel [1; 1; 9; 1; 1; 1]%nat =? numel [9]%nat)%nat with true.
  cbv iota. cbn [bind].
  unfold view at 1. rewrite Hvd.
  change (numel [1; 1; 9; 2; 1; 1]%nat =? numel [9; 2]%nat)%nat with true.
  cbv iota. cbn [bind]. rewrite Hnb. cbn [bind].
  unfold inplace2 at 1. rewrite Hsnb, Hs.
  assert (E1 : broadcast_shapes [2; 1; 9; x; y]%nat [2; 1; x; y]%nat
               = Some [2; 2; 9; x; y]%nat).
  { unfold broadcast_shapes, pad_shape. cbn [length Nat.max Nat.sub repeat app].
    cbn [broadcast_dims]. now rewrite !broadcast_dim_refl. }
  rewrite E1. cbn [shape_eqb Nat.eqb andb]. reflexivity.
Qed.

(** ** The store: what a computation leaves untouched *)

Lemma preserves_ret {A} (n : nat) (a : A) (Q : A -> Prop) :
  Q a -> Heap.preserves n (Heap.ret a) Q.
Proof.
  intros HQ s Hs. cbn. split; [reflexivity|]. split; [assumption|].
  intros a' E. now injection E as <-.
Qed.

Lemma preserves_lift {A} (n : nat) (r : result A) :
  Heap.preserves n (Heap.lift r) (fun _ => True).
Proof. intros s Hs. cbn. auto. Qed.

Lemma preserves_raise {A} (n : nat) (e : exn) (Q : A -> Prop) :
  Heap.preserves n (Heap.lift (Raise e)) Q.
Proof. intros s Hs. cbn. split; [reflexivity|]. split; [assumption|discriminate]. Qed.

Lemma preserves_weaken {A} (n : nat) (m : Heap.M A) (Q Q' : A -> Prop) :
  (forall a, Q a -> Q' a) -> Heap.preserves n m Q -> Heap.preserves n m Q'.
Proof.
  intros HQ Hm s Hs. destruct (Hm s Hs) as (H1 & H2 & H3).
  split; [assumption|]. split; [assumption|]. intros a E. apply HQ. now apply H3.
Qed.

Lemma preserves_bind {A B} (n : nat) (m : Heap.M A) (k : A -> Heap.M B)
  (Q : A -> Prop) (R : B -> Prop) :
  Heap.preserves n m Q ->
  (forall a, Q a -> Heap.preserves n (k a) R) ->
  Heap.preserves n (Heap.bind m k) R.
Proof.
  intros Hm Hk s Hs. destruct (Hm s Hs) as (H1 & H2 & H3).
  unfold Heap.bind. destruct (m s) as [[a|e] s'] eqn:E; cbn [fst snd] in *.
  - destruct (Hk a (H3 a eq_refl) s' H2) as (K1 & K2 & K3).
    split; [congruence|]. split; assumption.
  - split; [assumption|]. split; [assumption|]. intros a E'. discriminate E'.
Qed.

Lemma preserves_alloc (n : nat) (c : Heap.cell) :
  Heap.preserves n (Heap.alloc c) (fun l => (n <= l)%nat).
Proof.
  intros s Hs. unfold Heap.alloc. cbn [fst snd]. split.
  - rewrite firstn_app. replace (n - length s)%nat with 0%nat by lia.
    cbn [firstn]. now rewrite app_nil_r.
  - split; [rewrite length_app; lia|]. intros a E. injection E as <-. exact Hs.
Qed.

Lemma preserves_read (n : nat) (l : Heap.loc) :
  Heap.preserves n (Heap.read l) (fun _ => True).
Proof.
  intros s Hs. unfold Heap.read. destruct (nth_error s l); cbn; auto.
Qed.

Lemma preserves_write (n : nat) (l : Heap.loc) (c : Heap.cell) :
  (n <= l)%nat -> Heap.preserves n (Heap.write l c) (fun _ => True).
Proof.
  intros Hl s Hs. unfold Heap.write.
  destruct (Nat.ltb_spec l (length s)) as [Hlt|Hge]; cbn [fst snd]; [|auto].
  split; [|split; [|auto]].
  - rewrite firstn_app, firstn_firstn.
    rewrite length_firstn.
    replace (Nat.min n l) with n by lia.
    replace (n - Nat.min l (length s))%nat with 0%nat by lia.
    cbn [firstn]. now rewrite app_nil_r.
  - rewrite length_app, length_firstn. cbn [length]. lia.
Qed.

Lemma preserves_read_float (n : nat) (l : Heap.loc) :
  Heap.preserves n (Heap.read_float l) (fun _ => True).
Proof.
  unfold Heap.read_float. eapply preserves_bind; [apply preserves_read|].
  intros [t|t|t|t] _; apply preserves_lift.
Qed.

Lemma preserves_read_bool (n : nat) (l : Heap.loc) :
  Heap.preserves n (Heap.read_bool l) (fun _ => True).
Proof.
  unfold Heap.read_bool. eapply preserves_bind; [apply preserves_read|].
  intros [t|t|t|t] _; apply preserves_lift.
Qed.

Lemma preserves_read_long (n : nat) (l : Heap.loc) :
  Heap.preserves n (Heap.read_long l) (fun _ => True).
Proof.
  unfold Heap.read_long. eapply preserves_bind; [apply preserves_read|].
  intros [t|t|t|t] _; apply preserves_lift.
Qed.

Lemma preserves_read_ext (n : nat) (l : Heap.loc) :
  Heap.preserves n (Heap.read_ext l) (fun _ => True).
Proof.
  unfold Heap.read_ext. eapply preserves_bind; [apply preserves_read|].
  intros [t|t|t|t] _; apply preserves_lift.
Qed.

Lemma preserves_foldM {A B} (n : nat) (f : B -> A -> Heap.M B) (P : B -> Prop)
  (l : list A) (b : B) :
  (forall b a, P b -> Heap.preserves n (f b a) P) ->
  P b -> Heap.preserves n (Heap.foldM f l b) P.
Proof.
  intros Hf. revert b. induction l as [|a l IH]; intros b Hb; cbn [Heap.foldM].
  - now apply preserves_ret.
  - eapply preserves_bind; [now apply Hf|]. intros b' Hb'. now apply IH.
Qed.

(** One step of a sequence: the first computation by one of the rules above,
    then the rest. *)
Ltac frame_head :=
  first [ apply preserves_alloc
        | apply preserves_read_float
        | apply preserves_read_bool
        | apply preserves_read_long
        | apply preserves_read_ext
        | apply preserves_lift
        | apply preserves_write; assumption ].

Ltac frame :=
  repeat first
    [ apply preserves_ret; first [assumption | exact I]
    | eapply preserves_weaken; [|frame_head]; [intros; first [assumption | exact I]]
    | eapply preserves_bind; [frame_head|cbv beta; intros ? ?] ].

Lemma preserves_sample (bc : Tensor R -> result (Tensor R)) (n : nat) (l : Heap.loc) :
  Heap.preserves n (Heap.sample bc l) (fun l' => (n <= l')%nat).
Proof. unfold Heap.sample. frame. Qed.

Lemma preserves_class_update (n : nat) (cc phi : Heap.loc) (cls : list nat * R) :
  (n <= phi)%nat ->
  Heap.preserves n (Heap.class_update cc phi cls) (fun _ => True).
Proof.
  intros Hphi. unfold Heap.class_update. destruct cls as [ind f]. frame.
Qed.

Lemma preserves_eikonal_single_step (n : nat) (cc : Heap.loc) :
  Heap.preserves n (Heap.eikonal_single_step cc) (fun l => (n <= l)%nat).
Proof.
  unfold Heap.eikonal_single_step. frame. destruct a0 as [factors index_list].
  frame.
  eapply preserves_bind.
  { apply (preserves_foldM n _ (fun _ => True)); [|exact I].
    intros _ cls _. now apply preserves_class_update. }
  intros _ _. frame.
Qed.

Section FrameEntry.

Variable bc : Tensor R -> result (Tensor R).
Variable n : nat.

Lemma preserves_make_affinity_mask (mask : Heap.loc) :
  Heap.preserves n (Heap.make_affinity_mask bc mask) (fun l => (n <= l)%nat).
Proof.
  unfold Heap.make_affinity_mask.
  eapply preserves_bind; [apply preserves_sample|]. intros affinity Hfresh. frame.
Qed.

Lemma preserves_smooth (affinity_mask T : Heap.loc) :
  Heap.preserves n (Heap.smooth bc affinity_mask T) (fun l => (n <= l)%nat).
Proof.
  unfold Heap.smooth.
  eapply preserves_bind; [apply preserves_sample|]. intros nb Hfresh. frame.
Qed.

Lemma preserves_update_pass (affinity_mask semantic_mask T : Heap.loc) :
  Heap.preserves n (Heap.update_pass bc affinity_mask semantic_mask T)
    (fun l => (n <= l)%nat).
Proof.
  unfold Heap.update_pass.
  eapply preserves_bind; [apply preserves_sample|]. intros nb Hfresh. frame.
  eapply preserves_bind; [apply preserves_eikonal_single_step|].
  intros T' HT'. frame.
Qed.

Lemma preserves_loop_body (affinity_mask semantic_mask : Heap.loc)
  (st : Heap.loop_state) :
  (n <= Heap.st_T0 st)%nat ->
  Heap.preserves n (Heap.loop_body bc affinity_mask semantic_mask st)
    (fun st' => (n <= Heap.st_T0 st')%nat /\ (n <= Heap.st_T st')%nat).
Proof.
  intros HT0. unfold Heap.loop_body.
  eapply preserves_bind; [apply preserves_update_pass|]. intros T HT. frame.
  eapply preserves_bind.
  { destruct (Heap.st_t st <? 1)%Z;
      [apply preserves_smooth|apply preserves_ret; exact HT]. }
  intros T' HT'. frame. apply preserves_ret. cbn. split; assumption.
Qed.

Lemma preserves_solve_loop (affinity_mask semantic_mask : Heap.loc)
  (eps : pyfloat) (min_steps : Z) (fuel : nat) (st : Heap.loop_state) :
  (n <= Heap.st_T0 st)%nat -> (n <= Heap.st_T st)%nat ->
  Heap.preserves n
    (Heap.solve_loop bc fuel affinity_mask semantic_mask eps min_steps st)
    (fun st' => (n <= Heap.st_T st')%nat).
Proof.
  revert st. induction fuel as [|fuel IH]; intros st HT0 HT; cbn [Heap.solve_loop];
    destruct (Heap.loop_guard eps min_steps st).
  - apply preserves_raise.
  - now apply preserves_ret.
  - eapply preserves_bind; [now apply preserves_loop_body|].
    intros st' [H0 H1]. now apply IH.
  - now apply preserves_ret.
Qed.

Lemma preserves_solve_eikonal (mask : Heap.loc) (eps : pyfloat) (min_steps : Z) :
  Heap.preserves n (Heap.solve_eikonal bc mask eps min_steps)
    (fun l => (n <= l)%nat).
Proof.
  unfold Heap.solve_eikonal.
  eapply preserves_bind; [apply preserves_make_affinity_mask|].
  intros affinity Hfresh. frame.
  eapply preserves_bind; [now apply preserves_solve_loop|].
  intros st' HT. now apply preserves_ret.
Qed.

Lemma preserves_fill_direction (spatial_dim : Z) (vd : Heap.loc) (ind : nat)
  (ijk : Z * Z * Z) :
  (n <= vd)%nat ->
  Heap.preserves n (Heap.fill_direction spatial_dim vd ind ijk) (fun _ => True).
Proof.
  intros Hvd. unfold Heap.fill_direction. destruct ijk as [[i j] k]. frame.
  eapply preserves_bind.
  { destruct (spatial_dim =? 3)%Z; frame. }
  intros _ _. frame.
Qed.

Lemma preserves_gradient_from_eikonal (eikonal : Heap.loc) :
  Heap.preserves n (Heap.gradient_from_eikonal bc eikonal) (fun l => (n <= l)%nat).
Proof.
  unfold Heap.gradient_from_eikonal.
  eapply preserves_bind; [apply preserves_read_float|]. intros e _.
  destruct ((Z.of_nat (ndim e) - 2 <? 2) || (Z.of_nat (ndim e) - 2 >? 3))%Z;
    [apply preserves_raise|].
  eapply preserves_bind; [apply preserves_alloc|]. intros vd Hvd.
  eapply preserves_bind.
  { apply (preserves_foldM n _ (fun _ => True)); [|exact I].
    intros ind ijk _. now apply preserves_fill_direction. }
  intros _ _. frame.
  eapply preserves_bind; [apply preserves_sample|]. intros aff Haff. frame.
Qed.

End FrameEntry.

(** ** The store model computes what the functional model computes *)

Lemma holds_lt (s : Heap.store) (l : Heap.loc) (c : Heap.cell) :
  holds s l c -> (l < length s)%nat.
Proof. unfold holds. intros H. apply nth_error_Some. congruence. Qed.

Lemma holds_app_new (s : Heap.store) (c : Heap.cell) : holds (s ++ [c]) (length s) c.
Proof. unfold holds. now rewrite nth_error_app2, Nat.sub_diag by lia. Qed.

Lemma holds_app_old (s : Heap.store) (l : Heap.loc) (c c' : Heap.cell) :
  holds s l c -> holds (s ++ [c']) l c.
Proof.
  intros H. unfold holds. rewrite nth_error_app1; [exact H|]. now apply holds_lt in H.
Qed.

Lemma overwrite_length (s : Heap.store) (l : Heap.loc) (c : Heap.cell) :
  (l < length s)%nat -> length (overwrite s l c) = length s.
Proof.
  intros H. unfold overwrite. rewrite length_app, length_firstn. cbn [length].
  rewrite length_skipn. lia.
Qed.

Lemma overwrite_length_ge (s : Heap.store) (l : Heap.loc) (c : Heap.cell) :
  (length s <= length (overwrite s l c))%nat.
Proof.
  unfold overwrite. rewrite length_app, length_firstn. cbn [length].
  rewrite length_skipn. lia.
Qed.

Lemma holds_overwrite_new (s : Heap.store) (l : Heap.loc) (c : Heap.cell) :
  (l < length s)%nat -> holds (overwrite s l c) l c.
Proof.
  intros H. unfold holds, overwrite.
  rewrite nth_error_app2 by (rewrite length_firstn; lia).
  rewrite length_firstn. replace (l - Nat.min l (length s))%nat with 0%nat by lia.
  reflexivity.
Qed.

Lemma holds_overwrite_old (s : Heap.store) (l l' : Heap.loc) (c c' : Heap.cell) :
  holds s l' c' -> l' <> l -> holds (overwrite s l c) l' c'.
Proof.
  intros H Hne. pose proof (holds_lt _ _ _ H) as Hlt. unfold holds, overwrite in *.
  destruct (Nat.lt_ge_cases l' l) as [Hl|Hl].
  - rewrite nth_error_app1 by (rewrite length_firstn; lia).
    now rewrite nth_error_firstn, (proj2 (Nat.ltb_lt _ _) Hl).
  - rewrite nth_error_app2 by (rewrite length_firstn; lia).
    rewrite length_firstn.
    destruct (Nat.lt_ge_cases l (length s)) as [Hls|Hls].
    + replace (l' - Nat.min l (length s))%nat with (S (l' - S l)) by lia.
      cbn [nth_error]. rewrite nth_error_skipn.
      now replace (S l + (l' - S l))%nat with l' by lia.
    + lia.
Qed.

Lemma bind_read_float (s : Heap.store) (l : Heap.loc) (t : Tensor R) {B}
  (k : Tensor R -> Heap.M B) :
  holds s l (Heap.FloatCell t) -> Heap.bind (Heap.read_float l) k s = k t s.
Proof.
  intros H. unfold Heap.read_float, Heap.bind, Heap.read. unfold holds in H.
  now rewrite H.
Qed.

Lemma bind_read_bool (s : Heap.store) (l : Heap.loc) (t : Tensor bool) {B}
  (k : Tensor bool -> Heap.M B) :
  holds s l (Heap.BoolCell t) -> Heap.bind (Heap.read_bool l) k s = k t s.
Proof.
  intros H. unfold Heap.read_bool, Heap.bind, Heap.read. unfold holds in H.
  now rewrite H.
Qed.

Lemma bind_lift_ok {A B} (s : Heap.store) (a : A) (k : A -> Heap.M B) :
  Heap.bind (Heap.lift (Ok a)) k s = k a s.
Proof. reflexivity. Qed.

Lemma bind_ret {A B} (s : Heap.store) (a : A) (k : A -> Heap.M B) :
  Heap.bind (Heap.ret a) k s = k a s.
Proof. reflexivity. Qed.

Lemma bind_lift_raise {A B} (s : Heap.store) (e : exn) (k : A -> Heap.M B) :
  Heap.bind (Heap.lift (Raise e)) k s = (Raise e, s).
Proof. reflexivity. Qed.

Lemma bind_alloc {B} (s : Heap.store) (c : Heap.cell) (k : Heap.loc -> Heap.M B) :
  Heap.bind (Heap.alloc c) k s = k (length s) (s ++ [c]).
Proof. reflexivity. Qed.

Lemma bind_write {B} (s : Heap.store) (l : Heap.loc) (c : Heap.cell)
  (k : unit -> Heap.M B) :
  (l < length s)%nat -> Heap.bind (Heap.write l c) k s = k tt (overwrite s l c).
Proof.
  intros H. unfold Heap.bind, Heap.write. now rewrite (proj2 (Nat.ltb_lt _ _) H).
Qed.

Lemma bind_assoc {A B C} (m : Heap.M A) (k1 : A -> Heap.M B) (k2 : B -> Heap.M C)
  (s : Heap.store) :
  Heap.bind (Heap.bind m k1) k2 s = Heap.bind m (fun a => Heap.bind (k1 a) k2) s.
Proof.
  unfold Heap.bind. destruct (m s) as [[a|e] s']; reflexivity.
Qed.

Lemma bind_run {A B} (m : Heap.M A) (k : A -> Heap.M B) (s s' : Heap.store)
  (r : result A) :
  m s = (r, s') ->
  Heap.bind m k s = match r with Ok a => k a s' | Raise e => (Raise e, s') end.
Proof. intros H. unfold Heap.bind. now rewrite H. Qed.

(** A computation that preserves the cells below [length s] keeps what they
    hold. *)
Lemma preserves_holds {A} (m : Heap.M A) (Q : A -> Prop) (s : Heap.store)
  (l : Heap.loc) (c : Heap.cell) :
  Heap.preserves (length s) m Q -> holds s l c -> holds (snd (m s)) l c.
Proof.
  intros Hm H. destruct (Hm s (le_n _)) as (H1 & _ & _).
  rewrite firstn_all in H1. pose proof (holds_lt _ _ _ H) as Hlt.
  unfold holds in *. rewrite <- H.
  transitivity (nth_error (firstn (length s) (snd (m s))) l); [|now rewrite H1].
  now rewrite nth_error_firstn, (proj2 (Nat.ltb_lt _ _) Hlt).
Qed.

(** Proving that a cell holds a value after allocations and overwrites. *)
Ltac learn_overwrite s l c :=
  lazymatch goal with
  | _ : (length s <= length (overwrite s l c))%nat |- _ => fail
  | _ => pose proof (overwrite_length_ge s l c)
  end.

Ltac bounds :=
  repeat match goal with
         | H : holds _ _ _ |- _ => apply holds_lt in H
         end;
  repeat match goal with
         | _ : context [overwrite ?s ?l ?c] |- _ => learn_overwrite s l c
         | |- context [overwrite ?s ?l ?c] => learn_overwrite s l c
         end;
  rewrite ?length_app in *; cbn [length] in *; lia.

Ltac hold :=
  solve [ repeat first
            [ eassumption
            | apply holds_app_new
            | apply holds_app_old
            | apply holds_overwrite_new; bounds
            | apply holds_overwrite_old; [|bounds] ] ].

(** The next pure operation on both sides: it raises on both, or returns. *)
Ltac pure_step :=
  match goal with
  | |- context [Heap.lift ?r] =>
      destruct r as [?|?] eqn:?; cbn [bind];
      [rewrite bind_lift_ok|rewrite bind_lift_raise; eexists; reflexivity]
  end.

Lemma heap_class_update (s : Heap.store) (cc phi : Heap.loc) (t p : Tensor R)
  (cls : list nat * R) :
  holds s cc (Heap.FloatCell t) -> holds s phi (Heap.FloatCell p) -> cc <> phi ->
  match class_update t p cls with
  | Ok p' => exists s', Heap.class_update cc phi cls s = (Ok tt, s') /\
                        holds s' phi (Heap.FloatCell p') /\
                        holds s' cc (Heap.FloatCell t)
  | Raise e => exists s', Heap.class_update cc phi cls s = (Raise e, s')
  end.
Proof.
  intros Hcc Hphi Hne. destruct cls as [ind f].
  unfold class_update, Heap.class_update.
  rewrite (bind_read_float _ _ t) by hold.
  pure_step. pure_step. rewrite bind_alloc.
  rewrite (bind_read_float _ _ a0) by hold.
  pure_step. rewrite bind_alloc.
  rewrite (bind_read_float _ _ p) by hold.
  rewrite (bind_read_float _ _ a1) by hold.
  destruct (inplace2 Rmult p a1) as [p'|e] eqn:E.
  - rewrite bind_lift_ok. eexists. split; [|split].
    + unfold Heap.write. rewrite (proj2 (Nat.ltb_lt _ _)) by bounds. reflexivity.
    + fold (overwrite ((s ++ [Heap.FloatCell a0]) ++ [Heap.FloatCell a1]) phi
              (Heap.FloatCell p')). hold.
    + fold (overwrite ((s ++ [Heap.FloatCell a0]) ++ [Heap.FloatCell a1]) phi
              (Heap.FloatCell p')).
      apply holds_overwrite_old; [hold|assumption].
  - rewrite bind_lift_raise. eexists. reflexivity.
Qed.

Lemma heap_foldM_class_update (classes : list (list nat * R)) (s : Heap.store)
  (cc phi : Heap.loc) (t p : Tensor R) :
  holds s cc (Heap.FloatCell t) -> holds s phi (Heap.FloatCell p) -> cc <> phi ->
  match foldM (class_update t) classes p with
  | Ok p' => exists s',
      Heap.foldM (fun _ cls => Heap.class_update cc phi cls) classes tt s = (Ok tt, s') /\
      holds s' phi (Heap.FloatCell p') /\ holds s' cc (Heap.FloatCell t)
  | Raise e => exists s',
      Heap.foldM (fun _ cls => Heap.class_update cc phi cls) classes tt s = (Raise e, s')
  end.
Proof.
  revert s p. induction classes as [|cls classes IH]; intros s p Hcc Hphi Hne.
  - cbn [foldM Heap.foldM]. exists s. now split.
  - cbn [foldM Heap.foldM].
    pose proof (heap_class_update s cc phi t p cls Hcc Hphi Hne) as Hstep.
    destruct (class_update t p cls) as [p1|e]; cbn [bind].
    + destruct Hstep as (s1 & Hrun & Hphi1 & Hcc1).
      rewrite (bind_run _ _ _ _ _ Hrun).
      exact (IH s1 p1 Hcc1 Hphi1 Hne).
    + destruct Hstep as (s1 & Hrun). rewrite (bind_run _ _ _ _ _ Hrun).
      now exists s1.
Qed.

Lemma heap_eikonal_single_step (s : Heap.store) (cc : Heap.loc) (t : Tensor R) :
  holds s cc (Heap.FloatCell t) ->
  returns (Heap.eikonal_single_step cc s) (eikonal_single_step t).
Proof.
  intros Hcc. unfold eikonal_single_step, Heap.eikonal_single_step, returns.
  rewrite (bind_read_float _ _ t) by hold.
  destruct (direction_tables (ndim t)) as [[factors index_list]|e]; cbn [bind];
    [rewrite bind_lift_ok|rewrite bind_lift_raise; reflexivity].
  destruct (select 2 0 t) as [first|e]; cbn [bind];
    [rewrite bind_lift_ok|rewrite bind_lift_raise; reflexivity].
  rewrite bind_alloc.
  pose proof (heap_foldM_class_update (combine (tl index_list) (tl factors))
                (s ++ [Heap.FloatCell (ones_like first)]) cc (length s) t
                (ones_like first)) as Hfold.
  destruct (foldM (class_update t) (combine (tl index_list) (tl factors))
              (ones_like first)) as [p'|e]; cbn [bind].
  - destruct Hfold as (s1 & Hrun & Hphi & _); [hold|hold|bounds|].
    rewrite (bind_run _ _ _ _ _ Hrun).
    rewrite (bind_read_float _ _ p') by hold.
    exists (length s1). split; [reflexivity|]. cbn [snd Heap.alloc]. hold.
  - destruct Hfold as (s1 & Hrun); [hold|hold|bounds|].
    now rewrite (bind_run _ _ _ _ _ Hrun).
Qed.

Section HeapAgreement.

Variable bc : Tensor R -> result (Tensor R).

Lemma bind_sample {B} (s : Heap.store) (l : Heap.loc) (t : Tensor R)
  (k : Heap.loc -> Heap.M B) :
  holds s l (Heap.FloatCell t) ->
  Heap.bind (Heap.sample bc l) k s
  = match bc t with
    | Ok nb => k (length s) (s ++ [Heap.FloatCell nb])
    | Raise e => (Raise e, s)
    end.
Proof.
  intros H. unfold Heap.sample. rewrite bind_assoc.
  rewrite (bind_read_float _ _ t) by hold. rewrite bind_assoc.
  destruct (bc t); reflexivity.
Qed.

Lemma heap_make_affinity_mask (s : Heap.store) (mask : Heap.loc) (m : Tensor R) :
  holds s mask (Heap.FloatCell m) ->
  match make_affinity_mask bc m with
  | Ok aff => exists l s',
      Heap.make_affinity_mask bc mask s = (Ok l, s') /\
      holds s' l (Heap.BoolCell aff) /\ holds s' mask (Heap.FloatCell m)
  | Raise e => exists s', Heap.make_affinity_mask bc mask s = (Raise e, s')
  end.
Proof.
  intros Hm. unfold make_affinity_mask, Heap.make_affinity_mask.
  rewrite (bind_sample _ _ m) by hold.
  destruct (bc m) as [nb|e]; cbn [bind]; [|eexists; reflexivity].
  rewrite (bind_read_float _ _ nb) by hold.
  rewrite (bind_read_float _ _ m) by hold.
  pure_step. pure_step. pure_step.
  rewrite bind_write by bounds.
  rewrite (bind_read_float _ _ a1) by hold.
  eexists. eexists. split; [reflexivity|]. split; [hold|].
  apply holds_app_old. apply holds_overwrite_old; [hold|bounds].
Qed.

Lemma heap_smooth (s : Heap.store) (affinity T : Heap.loc) (a : Tensor bool)
  (t : Tensor R) :
  holds s affinity (Heap.BoolCell a) -> holds s T (Heap.FloatCell t) ->
  match smooth bc a t with
  | Ok r => exists l s',
      Heap.smooth bc affinity T s = (Ok l, s') /\
      holds s' l (Heap.FloatCell r) /\ (length s <= l)%nat /\
      (forall l' c, holds s l' c -> holds s' l' c)
  | Raise e => exists s', Heap.smooth bc affinity T s = (Raise e, s')
  end.
Proof.
  intros Ha Ht. unfold smooth, Heap.smooth.
  rewrite (bind_sample _ _ t) by hold.
  destruct (bc t) as [nb|e]; cbn [bind]; [|eexists; reflexivity].
  rewrite (bind_read_float _ _ nb) by hold.
  rewrite (bind_read_bool _ _ a) by hold.
  pure_step.
  destruct (mean_dim 2 a0) as [r|e]; [rewrite bind_lift_ok|
    rewrite bind_lift_raise; eexists; reflexivity].
  eexists. eexists. split; [reflexivity|]. split; [hold|].
  split; [rewrite length_app; lia|]. intros l' c Hl. hold.
Qed.

Lemma heap_update_pass (s : Heap.store) (affinity semantic T : Heap.loc)
  (a sem : Tensor bool) (t : Tensor R) :
  holds s affinity (Heap.BoolCell a) -> holds s semantic (Heap.BoolCell sem) ->
  holds s T (Heap.FloatCell t) ->
  match update_pass bc a sem t with
  | Ok t1 => exists l s',
      Heap.update_pass bc affinity semantic T s = (Ok l, s') /\
      holds s' l (Heap.FloatCell t1) /\ (length s <= l)%nat /\
      (forall l' c, holds s l' c -> holds s' l' c)
  | Raise e => exists s', Heap.update_pass bc affinity semantic T s = (Raise e, s')
  end.
Proof.
  intros Ha Hsem Ht. unfold update_pass, Heap.update_pass.
  rewrite (bind_sample _ _ t) by hold.
  destruct (bc t) as [nb|e]; cbn [bind]; [|eexists; reflexivity].
  rewrite (bind_read_float _ _ nb) by hold.
  rewrite (bind_read_bool _ _ a) by hold.
  pure_step. rewrite bind_alloc.
  set (s2 := (s ++ [Heap.FloatCell nb]) ++ [Heap.FloatCell a0]).
  assert (Hold : forall l' c, holds s l' c -> holds s2 l' c)
    by (intros; unfold s2; hold).
  pose proof (heap_eikonal_single_step s2 (length (s ++ [Heap.FloatCell nb])) a0) as Hcall.
  pose proof (preserves_eikonal_single_step (length s2)
                (length (s ++ [Heap.FloatCell nb]))) as Hframe.
  destruct (Heap.eikonal_single_step (length (s ++ [Heap.FloatCell nb])) s2)
    as [r s3] eqn:Erun.
  rewrite (bind_run _ _ _ _ _ Erun).
  assert (Hold3 : forall l' c, holds s2 l' c -> holds s3 l' c).
  { intros l' c Hl. change s3 with (snd (r, s3)). rewrite <- Erun.
    exact (preserves_holds _ _ _ _ _ Hframe Hl). }
  destruct (Hframe s2 (le_n _)) as (_ & _ & Hfresh). rewrite Erun in Hfresh.
  cbn [fst snd] in Hfresh.
  unfold returns in Hcall. cbn [fst snd] in Hcall.
  destruct (eikonal_single_step a0) as [t1|e]; cbn [bind].
  - destruct Hcall as (l & -> & Hl); [unfold s2; hold|].
    specialize (Hfresh l eq_refl).
    rewrite (bind_read_float _ _ t1) by hold.
    rewrite (bind_read_bool _ _ sem) by (apply Hold3, Hold; hold).
    destruct (inplace2 mul_bool t1 sem) as [t2|e];
      [rewrite bind_lift_ok|rewrite bind_lift_raise; eexists; reflexivity].
    rewrite bind_write by bounds.
    exists l, (overwrite s3 l (Heap.FloatCell t2)).
    split; [reflexivity|]. split; [hold|].
    assert (Hlen : (length s <= length s2)%nat)
      by (unfold s2; rewrite !length_app; lia).
    split; [lia|].
    intros l' c Hl'. apply holds_overwrite_old; [now apply Hold3, Hold|].
    apply holds_lt in Hl'. lia.
  - rewrite Hcall by (unfold s2; hold). now exists s3.
Qed.

Lemma heap_loop_body (s : Heap.store) (affinity semantic : Heap.loc)
  (a sem : Tensor bool) (hst : Heap.loop_state) (st : loop_state) :
  state_rel s affinity semantic a sem hst st ->
  match loop_body bc a sem st with
  | Ok st' => exists hst' s',
      Heap.loop_body bc affinity semantic hst s = (Ok hst', s') /\
      state_rel s' affinity semantic a sem hst' st'
  | Raise e => exists s', Heap.loop_body bc affinity semantic hst s = (Raise e, s')
  end.
Proof.
  intros (Ha & Hsem & HT & HT0 & Hna & Hns & Hnt & Ht & Herr).
  unfold loop_body, Heap.loop_body.
  pose proof (heap_update_pass s affinity semantic (Heap.st_T hst) a sem (st_T st)
                Ha Hsem HT) as Hup.
  destruct (update_pass bc a sem (st_T st)) as [t1|e]; cbn [bind].
  2:{ destruct Hup as (s1 & Hrun). rewrite (bind_run _ _ _ _ _ Hrun). now exists s1. }
  destruct Hup as (l & s1 & Hrun & Hl & Hfresh & Hold).
  rewrite (bind_run _ _ _ _ _ Hrun).
  rewrite (bind_read_float _ _ t1) by hold.
  rewrite (bind_read_float _ _ (st_T0 st)) by (apply Hold; hold).
  pure_step. rewrite Ht.
  assert (HlT0 : l <> Heap.st_T0 hst) by (apply holds_lt in HT0; lia).
  destruct (st_t st <? 1)%Z.
  - pose proof (heap_smooth s1 affinity l a t1 (Hold _ _ Ha) Hl) as Hsm.
    destruct (smooth bc a t1) as [t2|e]; cbn [bind].
    2:{ destruct Hsm as (s2 & Hrun2). rewrite (bind_run _ _ _ _ _ Hrun2).
        now exists s2. }
    destruct Hsm as (l2 & s2 & Hrun2 & Hl2 & Hfresh2 & Hold2).
    rewrite (bind_run _ _ _ _ _ Hrun2).
    rewrite (bind_read_float _ _ t2) by hold.
    rewrite (bind_read_float _ _ (st_T0 st)) by (apply Hold2, Hold; hold).
    pure_step.
    assert (Hlt0 : (Heap.st_T0 hst < length s2)%nat)
      by (apply (holds_lt s2 _ (Heap.FloatCell (st_T0 st))), Hold2, Hold; hold).
    rewrite bind_write by exact Hlt0.
    assert (Hl2T0 : l2 <> Heap.st_T0 hst).
    { pose proof (holds_lt _ _ _ (Hold _ _ HT0)). lia. }
    eexists. eexists. split; [reflexivity|].
    unfold state_rel. cbn [Heap.st_T Heap.st_T0 Heap.st_t Heap.st_error
                            st_T st_T0 st_t st_error].
    repeat split; try assumption; try congruence.
    + apply holds_overwrite_old; [apply Hold2, Hold; hold|congruence].
    + apply holds_overwrite_old; [apply Hold2, Hold; hold|congruence].
    + apply holds_overwrite_old; [hold|assumption].
    + now apply holds_overwrite_new.
  - cbn [bind]. rewrite bind_ret.
    rewrite (bind_read_float _ _ t1) by hold.
    rewrite (bind_read_float _ _ (st_T0 st)) by (apply Hold; hold).
    pure_step.
    assert (Hlt0 : (Heap.st_T0 hst < length s1)%nat)
      by (apply (holds_lt s1 _ (Heap.FloatCell (st_T0 st))), Hold; hold).
    rewrite bind_write by exact Hlt0.
    eexists. eexists. split; [reflexivity|].
    unfold state_rel. cbn [Heap.st_T Heap.st_T0 Heap.st_t Heap.st_error
                            st_T st_T0 st_t st_error].
    repeat split; try assumption; try congruence.
    + apply holds_overwrite_old; [apply Hold; hold|congruence].
    + apply holds_overwrite_old; [apply Hold; hold|congruence].
    + apply holds_overwrite_old; [hold|assumption].
    + now apply holds_overwrite_new.
Qed.

Lemma heap_solve_loop (eps : pyfloat) (min_steps : Z) (fuel : nat)
  (s : Heap.store) (affinity semantic : Heap.loc) (a sem : Tensor bool)
  (hst : Heap.loop_state) (st : loop_state) :
  state_rel s affinity semantic a sem hst st ->
  match solve_loop bc fuel a sem eps min_steps st with
  | Ok st' => exists hst' s',
      Heap.solve_loop bc fuel affinity semantic eps min_steps hst s = (Ok hst', s') /\
      state_rel s' affinity semantic a sem hst' st'
  | Raise e => exists s',
      Heap.solve_loop bc fuel affinity semantic eps min_steps hst s = (Raise e, s')
  end.
Proof.
  revert s hst st. induction fuel as [|fuel IH]; intros s hst st Hrel;
    cbn [solve_loop Heap.solve_loop].
  - assert (Hg : Heap.loop_guard eps min_steps hst = loop_guard eps min_steps st).
    { unfold Heap.loop_guard, loop_guard.
      destruct Hrel as (_ & _ & _ & _ & _ & _ & _ & -> & ->). reflexivity. }
    rewrite Hg. destruct (loop_guard eps min_steps st).
    + eexists. reflexivity.
    + exists hst, s. now split.
  - assert (Hg : Heap.loop_guard eps min_steps hst = loop_guard eps min_steps st).
    { unfold Heap.loop_guard, loop_guard.
      destruct Hrel as (_ & _ & _ & _ & _ & _ & _ & -> & ->). reflexivity. }
    rewrite Hg. destruct (loop_guard eps min_steps st).
    + pose proof (heap_loop_body s affinity semantic a sem hst st Hrel) as Hb.
      destruct (loop_body bc a sem st) as [st1|e]; cbn [bind].
      * destruct Hb as (hst1 & s1 & Hrun & Hrel1).
        rewrite (bind_run _ _ _ _ _ Hrun). exact (IH s1 hst1 st1 Hrel1).
      * destruct Hb as (s1 & Hrun). rewrite (bind_run _ _ _ _ _ Hrun). now exists s1.
    + exists hst, s. now split.
Qed.

(** [Heap.solve_eikonal] returns the cell of the tensor that [solve_eikonal]
    returns, and raises what it raises. *)
Lemma heap_solve_eikonal (s : Heap.store) (mask : Heap.loc) (m : Tensor R)
  (eps : pyfloat) (min_steps : Z) :
  holds s mask (Heap.FloatCell m) ->
  returns (Heap.solve_eikonal bc mask eps min_steps s)
          (solve_eikonal bc m eps min_steps).
Proof.
  intros Hm. unfold solve_eikonal, solve_eikonal_state, Heap.solve_eikonal, returns.
  pose proof (heap_make_affinity_mask s mask m Hm) as Haff.
  destruct (make_affinity_mask bc m) as [a|e]; cbn [bind].
  2:{ destruct Haff as (s1 & Hrun). now rewrite (bind_run _ _ _ _ _ Hrun). }
  destruct Haff as (l & s1 & Hrun & Hl & Hm1).
  rewrite (bind_run _ _ _ _ _ Hrun).
  rewrite (bind_read_float _ _ m) by hold.
  rewrite !bind_alloc.
  match goal with
  | |- context [Heap.bind (Heap.solve_loop bc ?fuel l ?sem eps min_steps ?hst) _ ?s2] =>
      pose proof (heap_solve_loop eps min_steps fuel s2 l sem a (gt0 m) hst
                    (mkState (ones_like m) (ones_like m) 0 PInf)) as Hloop
  end.
  destruct (solve_loop bc (Z.to_nat min_steps) a (gt0 m) eps min_steps
              (mkState (ones_like m) (ones_like m) 0 PInf)) as [st'|e]; cbn [bind].
  - destruct Hloop as (hst' & s' & Hrun' & Hrel).
    { unfold state_rel. cbn [Heap.st_T Heap.st_T0 Heap.st_t Heap.st_error
                             st_T st_T0 st_t st_error].
      pose proof (holds_lt _ _ _ Hl) as Hlt.
      repeat split; try hold; rewrite ?length_app; cbn [length]; lia. }
    rewrite (bind_run _ _ _ _ _ Hrun'). cbn [fst snd Heap.ret].
    exists (Heap.st_T hst'). split; [reflexivity|]. apply Hrel.
  - destruct Hloop as (s' & Hrun').
    { unfold state_rel. cbn [Heap.st_T Heap.st_T0 Heap.st_t Heap.st_error
                             st_T st_T0 st_t st_error].
      pose proof (holds_lt _ _ _ Hl) as Hlt.
      repeat split; try hold; rewrite ?length_app; cbn [length]; lia. }
    now rewrite (bind_run _ _ _ _ _ Hrun').
Qed.

Lemma bind_read_long (s : Heap.store) (l : Heap.loc) (t : Tensor Z) {B}
  (k : Tensor Z -> Heap.M B) :
  holds s l (Heap.LongCell t) -> Heap.bind (Heap.read_long l) k s = k t s.
Proof.
  intros H. unfold Heap.read_long, Heap.bind, Heap.read. unfold holds in H.
  now rewrite H.
Qed.

Lemma bind_read_ext (s : Heap.store) (l : Heap.loc) (t : Tensor ereal) {B}
  (k : Tensor ereal -> Heap.M B) :
  holds s l (Heap.ExtCell t) -> Heap.bind (Heap.read_ext l) k s = k t s.
Proof.
  intros H. unfold Heap.read_ext, Heap.bind, Heap.read. unfold holds in H.
  now rewrite H.
Qed.

Lemma view_tmap {A B} (f : A -> B) (sh : list nat) (t : Tensor A) :
  view sh (tmap f t)
  = match view sh t with Ok v => Ok (tmap f v) | Raise e => Raise e end.
Proof.
  unfold view. cbn [tmap shape]. destruct (numel sh =? numel (shape t))%nat;
    reflexivity.
Qed.

Lemma heap_fill_direction (spatial_dim : Z) (s : Heap.store) (vd : Heap.loc)
  (v : Tensor Z) (ind : nat) (ijk : Z * Z * Z) :
  holds s vd (Heap.LongCell v) ->
  match fill_direction spatial_dim (v, ind) ijk with
  | Ok (v', ind') => exists s',
      Heap.fill_direction spatial_dim vd ind ijk s = (Ok ind', s') /\
      holds s' vd (Heap.LongCell v') /\
      (forall l c, l <> vd -> holds s l c -> holds s' l c)
  | Raise e => exists s', Heap.fill_direction spatial_dim vd ind ijk s = (Raise e, s')
  end.
Proof.
  intros Hv. destruct ijk as [[i j] k]. unfold fill_direction, Heap.fill_direction.
  rewrite (bind_read_long _ _ v) by hold.
  pure_step. rewrite bind_write by bounds.
  rewrite (bind_read_long _ _ a) by hold.
  pure_step. rewrite bind_write by bounds.
  destruct (spatial_dim =? 3)%Z.
  - rewrite bind_assoc.
    rewrite (bind_read_long _ _ a0) by hold.
    rewrite bind_assoc.
    pure_step.
    rewrite bind_write by bounds.
    rewrite ?bind_ret.
    eexists. split; [reflexivity|]. split.
    + apply holds_overwrite_new. bounds.
    + intros l c Hne Hl. repeat apply holds_overwrite_old; assumption.
  - rewrite ?bind_ret. cbn [bind].
    eexists. split; [reflexivity|]. split.
    + apply holds_overwrite_new. bounds.
    + intros l c Hne Hl. repeat apply holds_overwrite_old; assumption.
Qed.

Lemma heap_foldM_fill_direction (spatial_dim : Z) (triples : list (Z * Z * Z))
  (s : Heap.store) (vd : Heap.loc) (v : Tensor Z) (ind : nat) :
  holds s vd (Heap.LongCell v) ->
  match foldM (fill_direction spatial_dim) triples (v, ind) with
  | Ok (v', ind') => exists s',
      Heap.foldM (Heap.fill_direction spatial_dim vd) triples ind s = (Ok ind', s') /\
      holds s' vd (Heap.LongCell v') /\
      (forall l c, l <> vd -> holds s l c -> holds s' l c)
  | Raise e => exists s',
      Heap.foldM (Heap.fill_direction spatial_dim vd) triples ind s = (Raise e, s')
  end.
Proof.
  revert s v ind. induction triples as [|ijk triples IH]; intros s v ind Hv;
    cbn [foldM Heap.foldM].
  - exists s. split; [reflexivity|]. split; [assumption|auto].
  - pose proof (heap_fill_direction spatial_dim s vd v ind ijk Hv) as Hstep.
    destruct (fill_direction spatial_dim (v, ind) ijk) as [[v1 ind1]|e]; cbn [bind].
    + destruct Hstep as (s1 & Hrun & Hv1 & Hold).
      rewrite (bind_run _ _ _ _ _ Hrun).
      specialize (IH s1 v1 ind1 Hv1).
      destruct (foldM (fill_direction spatial_dim) triples (v1, ind1))
        as [[v2 ind2]|e].
      * destruct IH as (s2 & Hrun2 & Hv2 & Hold2). exists s2.
        split; [assumption|]. split; [assumption|]. auto.
      * exact IH.
    + destruct Hstep as (s1 & Hrun). rewrite (bind_run _ _ _ _ _ Hrun).
      now exists s1.
Qed.

(** [Heap.gradient_from_eikonal] returns the cell of the tensor that
    [gradient_from_eikonal] returns, and raises what it raises. *)
Lemma heap_gradient_from_eikonal (s : Heap.store) (eik : Heap.loc) (e : Tensor R) :
  holds s eik (Heap.FloatCell e) ->
  returns (Heap.gradient_from_eikonal bc eik s) (gradient_from_eikonal bc e).
Proof.
  intros He. unfold gradient_from_eikonal, Heap.gradient_from_eikonal, returns.
  rewrite (bind_read_float _ _ e) by hold.
  set (sd := (Z.of_nat (ndim e) - 2)%Z).
  destruct ((sd <? 2) || (sd >? 3))%Z; [reflexivity|].
  rewrite bind_alloc.
  pose proof (heap_foldM_fill_direction sd (direction_triples sd)
                (s ++ [Heap.LongCell (zeros 0%Z [3 ^ Z.to_nat sd; Z.to_nat sd]%nat)])
                (length s) (zeros 0%Z [3 ^ Z.to_nat sd; Z.to_nat sd]%nat) 0
                ltac:(hold)) as Hfill.
  destruct (foldM (fill_direction sd) (direction_triples sd)
              (zeros 0%Z [3 ^ Z.to_nat sd; Z.to_nat sd]%nat, 0%nat))
    as [[v n]|err]; cbn [bind fst].
  2:{ destruct Hfill as (s1 & Hrun). now rewrite (bind_run _ _ _ _ _ Hrun). }
  destruct Hfill as (s1 & Hrun & Hv & Hold).
  rewrite (bind_run _ _ _ _ _ Hrun).
  assert (He1 : holds s1 eik (Heap.FloatCell e)).
  { apply Hold; [apply holds_lt in He; lia|hold]. }
  clear Hold Hrun He.
  rewrite (bind_read_long _ _ v) by hold.
  destruct (reduce_dim Z.add 0%Z 1 (tmap Z.abs v)) as [magnitude|err]; cbn [bind];
    [rewrite bind_lift_ok|rewrite bind_lift_raise; reflexivity].
  rewrite bind_alloc.
  rewrite (bind_read_float _ _ (tmap IZR magnitude)) by hold.
  rewrite bind_write by bounds.
  set (vm := tmap (fun x : R => if Rneb x 0 then sqrt x else x) (tmap IZR magnitude)).
  rewrite (bind_read_float _ _ vm) by hold.
  set (mshape := if (sd =? 2)%Z then [1; 1; 9; 1; 1; 1]%nat
                 else [1; 1; 27; 1; 1; 1; 1]%nat).
  set (dshape := if (sd =? 2)%Z then [1; 1; 9; 2; 1; 1]%nat
                 else [1; 1; 27; 3; 1; 1; 1]%nat).
  assert (Em : (if (sd =? 2)%Z then view [1; 1; 9; 1; 1; 1]%nat vm
                else view [1; 1; 27; 1; 1; 1; 1]%nat vm) = view mshape vm)
    by (unfold mshape; now destruct (sd =? 2)%Z).
  assert (Ed : (if (sd =? 2)%Z then view [1; 1; 9; 2; 1; 1]%nat v
                else view [1; 1; 27; 3; 1; 1; 1]%nat v) = view dshape v)
    by (unfold dshape; now destruct (sd =? 2)%Z).
  rewrite Em, Ed. clear Em Ed.
  destruct (view mshape vm) as [vm'|err] eqn:Evm; cbn [bind];
    [rewrite bind_lift_ok|rewrite bind_lift_raise; reflexivity].
  rewrite (bind_read_long _ _ v) by hold.
  destruct (view dshape v) as [vd'|err] eqn:Evd; cbn [bind];
    [rewrite bind_lift_ok|rewrite bind_lift_raise; reflexivity].
  rewrite (bind_sample _ _ e) by hold.
  destruct (bc e) as [nb|err]; cbn [bind]; [|reflexivity].
  rewrite (bind_read_float _ _ nb) by hold.
  rewrite (bind_read_float _ _ e) by hold.
  destruct (inplace2 Rminus nb e) as [a1|err]; cbn [bind];
    [rewrite bind_lift_ok|rewrite bind_lift_raise; reflexivity].
  rewrite bind_write by bounds.
  rewrite (bind_read_float _ _ a1) by hold.
  destruct (unsqueeze 3 a1) as [a2|err]; cbn [bind];
    [rewrite bind_lift_ok|rewrite bind_lift_raise; reflexivity].
  destruct (concat2 3 a2 a2) as [a3|err]; cbn [bind];
    [rewrite bind_lift_ok|rewrite bind_lift_raise; reflexivity].
  rewrite bind_alloc.
  rewrite (bind_read_float _ _ vm) by hold.
  rewrite bind_write by bounds.
  rewrite (bind_read_float _ _ a3) by hold.
  rewrite (bind_read_long _ _ v) by hold.
  rewrite Evd, bind_lift_ok.
  rewrite (bind_read_ext _ _
             (tmap (fun x : R => if Reqb x 0 then Infinity else Finite x) vm)) by hold.
  rewrite view_tmap, Evm, bind_lift_ok.
  destruct (broadcast2 (fun (x : R) (z : Z) => x * IZR z) a3 vd') as [g1|err];
    cbn [bind]; [rewrite bind_lift_ok|rewrite bind_lift_raise; reflexivity].
  match goal with
  | |- context [Heap.lift ?r] =>
      destruct r as [g2|err]; cbn [bind];
      [rewrite bind_lift_ok|rewrite bind_lift_raise; reflexivity]
  end.
  destruct (sum_dim 2 g2) as [g3|err]; cbn [bind];
    [rewrite bind_lift_ok|rewrite bind_lift_raise; reflexivity].
  destruct (flip 2 g3) as [g4|err];
    [rewrite bind_lift_ok|rewrite bind_lift_raise; reflexivity].
  eexists. split; [reflexivity|]. cbn [snd Heap.alloc]. hold.
Qed.

End HeapAgreement.

(** ** Claims on the pair reducer *)

Lemma pixel_column_data (t : Tensor R) (n : nat) (s : list nat) (idx : index) :
  shape t = n :: s -> pixel_column (data t) n idx = column t idx.
Proof. intros Hs. unfold pixel_column, column. now rewrite Hs. Qed.

(** C5: a stack of one pair holding [v] at a pixel, with a step length
    [f > 0] and [n] spatial dimensions, is reduced to
    [(v + sqrt (max 0 (v^2 - n * (v^2 - f^2)))) / n] at that pixel; for
    [n = 2], [f = 1], [v = 1] the result is [1]. *)
Theorem apply_update_single_pair (minimum_paired : Tensor R) (f v : R)
  (s : list nat) (idx : index) :
  0 < f ->
  shape minimum_paired = 1%nat :: s ->
  length s <> 2%nat ->
  in_range s idx ->
  data minimum_paired (0%nat :: idx) = v ->
  let n := IZR (Z.of_nat (length s) - 2) in
  exists out,
    _apply_update minimum_paired f = Ok out /\
    shape out = s /\
    data out idx = (v + sqrt (Rmax 0 (v ^ 2 - n * (v ^ 2 - f ^ 2)))) / n /\
    (length s = 4%nat -> f = 1 -> v = 1 -> data out idx = 1).
Proof.
  intros Hf Hs Hlen Hin Hv n.
  destruct (apply_update_pixel minimum_paired f 0 s (data minimum_paired))
    as (out & Hout & Hshape & Hdata); [now split|assumption|].
  exists out. split; [assumption|]. split; [assumption|].
  assert (Hn : IZR (Z.of_nat (S (length s)) - 3) = n).
  { unfold n. f_equal. lia. }
  assert (Hn0 : n <> 0).
  { unfold n. apply not_0_IZR. lia. }
  assert (E : data out idx = (v + sqrt (Rmax 0 (v ^ 2 - n * (v ^ 2 - f ^ 2)))) / n).
  { rewrite (Hdata idx Hin). cbv zeta. rewrite Hn.
    destruct (kept_sums f (pixel_column (data minimum_paired) 1 idx) Hf) as [-> ->].
    unfold pixel_column. simpl. rewrite Hv.
    replace (v + 0) with v by lra.
    replace (v * (v * 1) + 0) with (v * (v * 1)) by lra.
    field. assumption. }
  split; [exact E|].
  intros H4 -> ->. rewrite E. unfold n. rewrite H4.
  change (IZR (Z.of_nat 4 - 2)) with 2.
  replace (1 ^ 2 - 2 * (1 ^ 2 - 1 ^ 2)) with 1 by lra.
  rewrite Rmax_right by lra. rewrite sqrt_1. lra.
Qed.

Lemma apply_update_single_pair_witness :
  exists out,
    _apply_update (mkTensor [1; 1; 1; 1; 1]%nat (fun _ => 1)) 1 = Ok out /\
    data out [0; 0; 0; 0]%nat = 1.
Proof.
  destruct (apply_update_single_pair
              (mkTensor [1; 1; 1; 1; 1]%nat (fun _ => 1)) 1 1
              [1; 1; 1; 1]%nat [0; 0; 0; 0]%nat)
    as (out & Hout & _ & _ & H1).
  - lra.
  - reflexivity.
  - simpl. lia.
  - repeat constructor.
  - reflexivity.
  - exists out. split; [exact Hout|]. now apply H1.
Defined.

(** C9: for a step length [f > 0] the upwind mask is true everywhere, so
    every pair minimum is kept and the output at a pixel is
    [(S + sqrt (max 0 (S^2 - n * (Q - f^2)))) / n], where [S] and [Q] are the
    sum and the sum of squares of all pair minima of that pixel in their
    original order. *)
Theorem apply_update_keeps_every_pair (minimum_paired : Tensor R) (f : R)
  (k : nat) (s : list nat) :
  0 < f ->
  shape minimum_paired = S k :: s ->
  length s <> 2%nat ->
  let n := IZR (Z.of_nat (length s) - 2) in
  (exists keep,
      upwind_mask (sort0 minimum_paired) f = Ok keep /\
      shape keep = S k :: s /\
      forall idx, in_range (S k :: s) idx -> data keep idx = true) /\
  (exists out,
      _apply_update minimum_paired f = Ok out /\
      shape out = s /\
      forall idx, in_range s idx ->
        let S := Rsum (column minimum_paired idx) in
        let Q := Rsum (map (fun x => x ^ 2) (column minimum_paired idx)) in
        data out idx = (S + sqrt (Rmax 0 (S ^ 2 - n * (Q - f ^ 2)))) / n).
Proof.
  intros Hf Hs Hlen n. split.
  - pose proof (sort0_agrees minimum_paired (S k) s (data minimum_paired)
                  (conj Hs (fun _ _ => eq_refl))) as Hsorted.
    destruct (upwind_mask_pixel _ f _ _ _ Hsorted) as (keep & Hkeep & Hshape & Hdata).
    exists keep. split; [assumption|]. split; [assumption|].
    intros idx Hin. rewrite (Hdata idx Hin).
    destruct idx as [|j idx]; [inversion Hin|].
    apply in_range_cons in Hin as [Hj Hin]. simpl hd. simpl tl.
    set (col := map (fun i => data minimum_paired (i :: idx)) (seq 0 (S k))).
    assert (Hlen' : length (Rsort col) = S k).
    { unfold col. now rewrite Rsort_length, length_map, length_seq. }
    rewrite (nth_last (Rsort col) k 0 Hlen').
    assert (Hle : nth j (Rsort col) 0 <= last (Rsort col) 0).
    { apply sorted_last_max; [apply Rsort_sorted|]. apply nth_In. lia. }
    unfold Rltb. destruct (Rlt_dec _ _); [reflexivity|lra].
  - destruct (apply_update_pixel minimum_paired f k s (data minimum_paired))
      as (out & Hout & Hshape & Hdata); [now split|assumption|].
    exists out. split; [assumption|]. split; [assumption|].
    intros idx Hin. cbv zeta. rewrite (Hdata idx Hin). cbv zeta.
    assert (Hn : IZR (Z.of_nat (S (length s)) - 3) = n).
    { unfold n. f_equal. lia. }
    rewrite Hn.
    destruct (kept_sums f (pixel_column (data minimum_paired) (S k) idx) Hf)
      as [-> ->].
    rewrite (pixel_column_data _ _ _ idx Hs).
    field. unfold n. apply not_0_IZR. lia.
Qed.

Lemma apply_update_keeps_every_pair_witness :
  exists out,
    _apply_update (mkTensor [2; 1; 1; 1; 1]%nat (fun idx => INR (hd 0%nat idx))) 1
    = Ok out /\
    data out [0; 0; 0; 0]%nat = 1.
Proof.
  destruct (apply_update_keeps_every_pair
              (mkTensor [2; 1; 1; 1; 1]%nat (fun idx => INR (hd 0%nat idx))) 1
              1 [1; 1; 1; 1]%nat)
    as (_ & out & Hout & _ & Hdata).
  - lra.
  - reflexivity.
  - simpl. lia.
  - exists out. split; [exact Hout|].
    rewrite (Hdata [0; 0; 0; 0]%nat) by (repeat constructor).
    unfold column. simpl.
    replace ((0 + (1 + 0)) * ((0 + (1 + 0)) * 1)
             - 2 * (0 * (0 * 1) + (1 * (1 * 1) + 0) - 1 * (1 * 1))) with 1 by lra.
    rewrite Rmax_right by lra. rewrite sqrt_1. lra.
Defined.

(** ** Claims on the fixed-point driver *)



(** C4 (amended): on an all-zero mask of spatial rank 2 or 3, for every
    [min_steps >= 1] and every [eps] that the initial error [inf] exceeds,
    [solve_eikonal] returns a field of the shape of the mask that is zero at
    every pixel. *)
Theorem all_zero_mask_zero_field
  (binary_convolution : Tensor R -> result (Tensor R))
  (instance_mask : Tensor R) (eps : pyfloat) (min_steps : Z) :
  sampler_spec binary_convolution ->
  (ndim instance_mask = 4 \/ ndim instance_mask = 5)%nat ->
  (forall idx, in_range (shape instance_mask) idx -> data instance_mask idx = 0) ->
  (1 <= min_steps)%Z ->
  pygt PInf eps = true ->
  exists T,
    solve_eikonal binary_convolution instance_mask eps min_steps = Ok T /\
    shape T = shape instance_mask /\
    forall idx, in_range (shape instance_mask) idx -> data T idx = 0.
Proof.
  intros Hbc Hnd Hzero Hms Heps.
  destruct (ndim_rank instance_mask Hnd) as (b & c & sp & Hs & Hrank & _).
  destruct (affinity_mask_spec binary_convolution Hbc instance_mask b c sp Hs Hrank)
    as (aff & Haff & _).
  unfold solve_eikonal, solve_eikonal_state. rewrite Haff. cbn [bind].
  fold (initial_state instance_mask).
  destruct (Z.to_nat min_steps) as [|fuel] eqn:Hfuel; [lia|].
  destruct (loop_body_zero_outside binary_convolution Hbc instance_mask b c sp Hs
              Hrank aff Haff (initial_state instance_mask))
    as (st1 & Hb & Hsh1 & Ht1 & Hz1).
  { apply initial_shaped; assumption. }
  rewrite (solve_loop_step _ _ _ _ _ _ _ st1); [|
    unfold loop_guard; cbn [initial_state st_error st_t]; rewrite Heps;
    apply Z.ltb_lt; lia | exact Hb].
  destruct (solve_loop_inv binary_convolution Hbc instance_mask b c sp Hs Hrank
              aff Haff eps min_steps (fun st => zero_outside instance_mask (st_T st)))
    with (fuel := fuel) (st := st1) as (st' & -> & [HsT _] & Hz & _).
  - intros st st2 Hsh H2.
    destruct (loop_body_zero_outside binary_convolution Hbc instance_mask b c sp Hs
                Hrank aff Haff st Hsh) as (st3 & Hb3 & _ & _ & Hz3).
    rewrite Hb3 in H2. now injection H2 as <-.
  - assumption.
  - assumption.
  - rewrite Ht1. cbn [initial_state st_t]. lia.
  - cbn [bind]. exists (st_T st'). split; [reflexivity|].
    split; [now rewrite Hs|].
    intros idx Hin. apply Hz; [assumption|]. rewrite (Hzero idx Hin). lra.
Qed.

Lemma all_zero_mask_zero_field_witness :
  exists T,
    solve_eikonal binary_convolution_replicate (zeros 0 [1; 1; 1; 1]%nat)
      (Fin (1 / 1000)) 51 = Ok T /\
    data T [0; 0; 0; 0]%nat = 0.
Proof.
  destruct (all_zero_mask_zero_field binary_convolution_replicate
              (zeros 0 [1; 1; 1; 1]%nat) (Fin (1 / 1000)) 51
              binary_convolution_replicate_spec (or_introl eq_refl)
              (fun _ _ => eq_refl) ltac:(lia) eq_refl) as (T & HT & _ & Hz).
  exists T. split; [exact HT|]. apply Hz. repeat constructor.
Defined.

(** C4 as stated fails: with [min_steps = 0] the loop is not entered and the
    all-zero mask of shape (1,1,1,1) yields the all-ones field. *)
Lemma all_zero_mask_counterexample :
  solve_eikonal binary_convolution_replicate (zeros 0 [1; 1; 1; 1]%nat)
    (Fin (1 / 1000)) 0 = Ok (ones_like (zeros 0 [1; 1; 1; 1]%nat)) /\
  data (ones_like (zeros 0 [1; 1; 1; 1]%nat)) [0; 0; 0; 0]%nat <> 0.
Proof.
  split; [reflexivity|]. cbn. lra.
Qed.

(** With a sampler that accepts a mask of a spatial rank [d] other than 2
    and 3 and returns a stack of shape (batch, channel, 3^d, spatial...), the
    dimension check of [eikonal_single_step] is reached in the first update
    pass of the loop, for [min_steps >= 1] and an [eps] that the initial
    error [inf] exceeds. *)
Lemma rank_check_inside_first_pass
  (binary_convolution : Tensor R -> result (Tensor R))
  (instance_mask : Tensor R) (eps : pyfloat) (min_steps : Z)
  (b c : nat) (sp : list nat) :
  shape instance_mask = b :: c :: sp ->
  length sp <> 2%nat -> length sp <> 3%nat ->
  (forall t, shape t = shape instance_mask ->
     exists s, binary_convolution t = Ok s /\ shape s = stack_shape (shape t)) ->
  (1 <= min_steps)%Z ->
  pygt PInf eps = true ->
  (exists affinity_mask,
     make_affinity_mask binary_convolution instance_mask = Ok affinity_mask /\
     update_pass binary_convolution affinity_mask (gt0 instance_mask)
       (ones_like instance_mask)
     = Raise (UnsupportedDimension (Z.of_nat (length sp)))) /\
  solve_eikonal binary_convolution instance_mask eps min_steps
  = Raise (UnsupportedDimension (Z.of_nat (length sp))).
Proof.
  intros Hs H2 H3 Hbc Hms Heps.
  destruct (Hbc instance_mask eq_refl) as (nb & Hnb & Hsnb).
  rewrite Hs in Hsnb. cbn [stack_shape] in Hsnb.
  destruct (make_affinity_mask_agrees binary_convolution instance_mask nb b c _ sp
              Hs Hnb Hsnb) as (aff & Haff & Hagg).
  assert (Hup : update_pass binary_convolution aff (gt0 instance_mask)
                  (ones_like instance_mask)
                = Raise (UnsupportedDimension (Z.of_nat (length sp)))).
  { unfold update_pass.
    destruct (Hbc (ones_like instance_mask) eq_refl) as (nb1 & -> & Hsnb1).
    cbn [ones_like shape] in Hsnb1. rewrite Hs in Hsnb1.
    cbn [stack_shape] in Hsnb1. cbn [bind].
    destruct (broadcast2_agrees mul_bool nb1 aff _ (data nb1) _
                (conj Hsnb1 (fun _ _ => eq_refl)) Hagg) as (cc & -> & [Hscc _]).
    cbn [bind]. unfold eikonal_single_step, ndim. rewrite Hscc.
    cbn [length]. unfold direction_tables.
    destruct (Nat.eqb_spec (S (S (S (length sp)))) 5) as [E|_]; [lia|].
    destruct (Nat.eqb_spec (S (S (S (length sp)))) 6) as [E|_]; [lia|].
    cbn [bind]. do 2 f_equal. lia. }
  split; [now exists aff|].
  unfold solve_eikonal, solve_eikonal_state. rewrite Haff. cbn [bind].
  destruct (Z.to_nat min_steps) as [|fuel] eqn:Hfuel; [lia|].
  cbn [solve_loop]. unfold loop_guard. cbn [st_error st_t]. rewrite Heps.
  replace (0 <? min_steps)%Z with true by (symmetry; apply Z.ltb_lt; lia).
  cbn [andb]. unfold loop_body. cbn [st_T]. rewrite Hup. reflexivity.
Qed.

(** A dimension error of the affinity mask is an error of the sampler: the
    tensor operations of lines 129-135 raise index and shape errors only. *)
Lemma make_affinity_mask_dimension_error
  (binary_convolution : Tensor R -> result (Tensor R)) (instance_mask : Tensor R)
  (d : Z) :
  make_affinity_mask binary_convolution instance_mask = Raise (UnsupportedDimension d) ->
  binary_convolution instance_mask = Raise (UnsupportedDimension d).
Proof.
  unfold make_affinity_mask. intros H.
  destruct (binary_convolution instance_mask) as [nb|e]; cbn [bind] in H;
    [|now injection H as ->].
  unfold unsqueeze in H. destruct (2 <=? ndim instance_mask)%nat; cbn [bind] in H;
    [|discriminate H].
  unfold broadcast2 in H. cbn [shape] in H.
  destruct (broadcast_shapes _ _); cbn [bind] in H; [|discriminate H].
  unfold masked_fill in H. cbn [shape] in H.
  destruct (shape_eqb _ _); cbn [bind] in H; discriminate H.
Qed.



(** ** Claim on the single-step solver *)

(** C7: on a neighbour stack of spatial rank 2 or 3 (nine or twenty-seven
    values per pixel) [eikonal_single_step] returns the tensor of the
    reference definition: an accumulator of ones, multiplied for each
    direction class in order of increasing step length by the pair reducer of
    the stacked minima of the class's antipodal pairs, and square-rooted at
    the end; the classes are [1: {1,7},{3,5}] and [sqrt 2: {0,8},{2,6}] in 2D
    and have the step lengths [1, sqrt 2, sqrt 3] in 3D. *)
Theorem single_step_matches_reference (connected_components : Tensor R) :
  (exists b c x y, shape connected_components = [b; c; 9; x; y]%nat) \/
  (exists b c x y z, shape connected_components = [b; c; 27; x; y; z]%nat) ->
  (exists out,
     eikonal_single_step connected_components = Ok out /\
     single_step_reference connected_components = Ok out) /\
  direction_classes 2 = [(1, [(1, 7); (3, 5)]%nat); (sqrt 2, [(0, 8); (2, 6)]%nat)] /\
  map fst (direction_classes 3) = [1; sqrt 2; sqrt 3].
Proof.
  intros H. split; [|split; [apply direction_classes_2d|]].
  - destruct H as [(b & c & x & y & Hs)|(b & c & x & y & z & Hs)].
    + destruct (single_step_2d connected_components b c x y
                  (data connected_components) (conj Hs (fun _ _ => eq_refl)))
        as (out & H1 & H2 & _).
      now exists out.
    + destruct (single_step_3d connected_components b c x y z
                  (data connected_components) (conj Hs (fun _ _ => eq_refl)))
        as (out & H1 & H2 & _).
      now exists out.
  - rewrite direction_classes_3d. reflexivity.
Qed.

Lemma single_step_matches_reference_witness :
  exists out,
    eikonal_single_step (zeros 0 [1; 1; 9; 1; 1]%nat) = Ok out /\
    single_step_reference (zeros 0 [1; 1; 9; 1; 1]%nat) = Ok out.
Proof.
  apply (single_step_matches_reference (zeros 0 [1; 1; 9; 1; 1]%nat)).
  left. exists 1%nat, 1%nat, 1%nat, 1%nat. reflexivity.
Defined.

(** C1: on the all-zero mask of shape (1,1,1,1) with [eps = 1e-3] and
    [min_steps = 51] the driver leaves the loop after two passes, as soon as
    the error is within the tolerance: the iteration count of the state it
    returns is 2, far below [min_steps]. *)
Theorem tolerance_alone_ends_the_loop :
  exists st,
    solve_eikonal_state binary_convolution_replicate (zeros 0 [1; 1; 1; 1]%nat)
      (Fin (1 / 1000)) 51 = Ok st /\
    st_t st = 2%Z /\
    st_error st = Fin 0 /\
    (st_t st < 51)%Z.
Proof.
  set (M := zeros 0 [1; 1; 1; 1]%nat).
  assert (Hs : shape M = [1; 1; 1; 1]%nat) by reflexivity.
  assert (Hrank : (length [1; 1]%nat = 2 \/ length [1; 1]%nat = 3)%nat) by (now left).
  assert (Hzero : forall idx, in_range [1; 1; 1; 1]%nat idx -> data M idx <= 0)
    by (intros; cbn; lra).
  destruct (affinity_mask_spec binary_convolution_replicate
              binary_convolution_replicate_spec M 1 1 [1; 1]%nat Hs Hrank)
    as (aff & Haff & _).
  unfold solve_eikonal_state. rewrite Haff. cbn [bind].
  fold (initial_state M).
  destruct (loop_body_zero_mask binary_convolution_replicate
              binary_convolution_replicate_spec M 1 1 [1; 1]%nat Hs Hrank aff Haff
              (initial_state M) (initial_shaped M 1 1 [1; 1]%nat Hs) Hzero)
    as (diff1 & st1 & Hb1 & Hsh1 & Ht1 & Hd1 & He1 & _ & HT01).
  apply (tmap_agrees (fun x => x * x)) in Hd1.
  rewrite (mean_all_pixel _ _ Hd1) in He1.
  cbn [initial_state st_T0 st_t ones_like data] in He1, Ht1.
  destruct (loop_body_zero_mask binary_convolution_replicate
              binary_convolution_replicate_spec M 1 1 [1; 1]%nat Hs Hrank aff Haff
              st1 Hsh1 Hzero)
    as (diff2 & st2 & Hb2 & Hsh2 & Ht2 & Hd2 & He2 & _ & _).
  apply (tmap_agrees (fun x => x * x)) in Hd2.
  rewrite (mean_all_pixel _ _ Hd2) in He2.
  destruct HT01 as [_ HT01]. rewrite HT01 in He2 by (repeat constructor).
  change (Z.to_nat 51) with (S (S 49)).
  rewrite (solve_loop_step _ _ _ _ _ _ _ st1); [| |exact Hb1].
  2:{ unfold loop_guard. reflexivity. }
  rewrite (solve_loop_step _ _ _ _ _ _ _ st2); [| |exact Hb2].
  2:{ unfold loop_guard. rewrite He1, Ht1. cbn [pygt].
      rewrite Rgtb_true by lra. reflexivity. }
  rewrite solve_loop_stop.
  2:{ unfold loop_guard. rewrite He2. cbn [pygt].
      rewrite Rgtb_false by lra. reflexivity. }
  exists st2. split; [reflexivity|]. split; [lia|].
  split; [rewrite He2; f_equal; lra|lia].
Qed.

(** C2 (amended): in a pass of the loop on a mask of spatial rank 2 or 3, when
    the iteration index [t] is 0 the field is replaced, right after the
    update pass, by the sum over all [3^d] directions of the affinity-masked
    neighbour values of the updated field divided by [3^d], the number of all
    directions; when [t >= 1] the pass keeps the updated field.  The index
    grows by one in each pass, from 0. *)
Theorem smoothing_divides_by_all_directions
  (binary_convolution : Tensor R -> result (Tensor R))
  (instance_mask : Tensor R) (affinity_mask : Tensor bool) (st : loop_state) :
  sampler_spec binary_convolution ->
  (ndim instance_mask = 4 \/ ndim instance_mask = 5)%nat ->
  make_affinity_mask binary_convolution instance_mask = Ok affinity_mask ->
  shaped (shape instance_mask) st ->
  let K := (3 ^ (ndim instance_mask - 2))%nat in
  st_t (initial_state instance_mask) = 0%Z /\
  exists T1 st',
    update_pass binary_convolution affinity_mask (gt0 instance_mask) (st_T st) = Ok T1 /\
    loop_body binary_convolution affinity_mask (gt0 instance_mask) st = Ok st' /\
    st_t st' = (st_t st + 1)%Z /\
    shaped (shape instance_mask) st' /\
    ((st_t st < 1)%Z ->
       exists neighbours,
         binary_convolution T1 = Ok neighbours /\
         forall idx, in_range (shape instance_mask) idx ->
           data (st_T st') idx
           = Rsum (map (fun k => mul_bool (data neighbours (insert_at 2 k idx))
                                          (data affinity_mask (insert_at 2 k idx)))
                       (seq 0 K))
             / INR K) /\
    ((1 <= st_t st)%Z -> st_T st' = T1).
Proof.
  intros Hbc Hnd Haff Hsh K. split; [reflexivity|].
  destruct (ndim_rank instance_mask Hnd) as (b & c & sp & Hs & Hrank & HK).
  unfold K. rewrite HK, Hs in *. clear K HK.
  destruct Hsh as [HsT HsT0].
  pose proof (aff_agrees_self binary_convolution Hbc instance_mask b c sp Hs Hrank
                affinity_mask Haff) as Hag.
  pose proof (sem_agrees instance_mask b c sp Hs) as Hsem.
  destruct (loop_body_spec binary_convolution Hbc b c sp Hrank affinity_mask
              (gt0 instance_mask) _ _ Hag Hsem st HsT HsT0)
    as (T1 & diff & st' & HT1 & HsT1 & _ & Hbody & _ & Ht & Hsm & Hns & HsT' & HT0').
  exists T1, st'. split; [assumption|]. split; [assumption|].
  split; [assumption|]. split; [split; [assumption|apply HT0']|].
  split; [|assumption].
  intros Hlt.
  destruct (smooth_spec binary_convolution Hbc b c sp Hrank affinity_mask _ Hag T1 HsT1)
    as (nb & T2 & Hnb & _ & HT2 & [_ Hd]).
  rewrite (Hsm Hlt) in HT2. injection HT2 as <-.
  exists nb. split; [assumption|]. exact Hd.
Qed.

Lemma smoothing_divides_by_all_directions_witness :
  exists aff T1 st',
    make_affinity_mask binary_convolution_replicate (zeros 0 [1; 1; 1; 1]%nat) = Ok aff /\
    update_pass binary_convolution_replicate aff (gt0 (zeros 0 [1; 1; 1; 1]%nat))
      (ones_like (zeros 0 [1; 1; 1; 1]%nat)) = Ok T1 /\
    loop_body binary_convolution_replicate aff (gt0 (zeros 0 [1; 1; 1; 1]%nat))
      (initial_state (zeros 0 [1; 1; 1; 1]%nat)) = Ok st' /\
    st_t st' = 1%Z.
Proof.
  destruct (affinity_mask_spec binary_convolution_replicate
              binary_convolution_replicate_spec (zeros 0 [1; 1; 1; 1]%nat)
              1 1 [1; 1]%nat eq_refl (or_introl eq_refl)) as (aff & Haff & _).
  pose proof (smoothing_divides_by_all_directions binary_convolution_replicate
                (zeros 0 [1; 1; 1; 1]%nat) aff
                (initial_state (zeros 0 [1; 1; 1; 1]%nat))
                binary_convolution_replicate_spec (or_introl eq_refl) Haff
                (conj eq_refl eq_refl)) as H.
  destruct H as (_ & T1 & st' & H1 & H2 & H3 & _).
  exists aff, T1, st'. split; [exact Haff|]. split; [exact H1|].
  split; [exact H2|exact H3].
Defined.

(** C2 as stated fails: on the two-pixel mask six of the nine directions of
    pixel 0 are valid and hold 1 after the first update pass; the driver
    leaves 6/9 there, whereas the mean over the valid directions is 6/6. *)
Lemma smoothing_counterexample :
  exists aff T1 nb st',
    make_affinity_mask binary_convolution_replicate two_pixel_mask = Ok aff /\
    update_pass binary_convolution_replicate aff (gt0 two_pixel_mask)
      (ones_like two_pixel_mask) = Ok T1 /\
    binary_convolution_replicate T1 = Ok nb /\
    loop_body binary_convolution_replicate aff (gt0 two_pixel_mask)
      (initial_state two_pixel_mask) = Ok st' /\
    data (st_T st') [0; 0; 0; 0]%nat = 6 / 9 /\
    mean_over_valid (map (fun k => data nb [0; 0; k; 0; 0]%nat) (seq 0 9))
                    (map (fun k => data aff [0; 0; k; 0; 0]%nat) (seq 0 9)) = 1 /\
    data (st_T st') [0; 0; 0; 0]%nat
    <> mean_over_valid (map (fun k => data nb [0; 0; k; 0; 0]%nat) (seq 0 9))
                       (map (fun k => data aff [0; 0; k; 0; 0]%nat) (seq 0 9)).
Proof.
  destruct two_pixel_first_pass
    as (aff & T1 & nb & st' & Haff & HT1 & Hnb & Hbody & Haffk & Hnbk & HT).
  exists aff, T1, nb, st'.
  split; [exact Haff|]. split; [exact HT1|]. split; [exact Hnb|].
  split; [exact Hbody|]. split; [exact HT|].
  assert (Hmean :
    mean_over_valid (map (fun k => data nb [0; 0; k; 0; 0]%nat) (seq 0 9))
                    (map (fun k => data aff [0; 0; k; 0; 0]%nat) (seq 0 9)) = 1).
  { cbn [seq map]. rewrite !Hnbk by lia. rewrite !Haffk by lia.
    cbn [Nat.modulo Nat.divmod Nat.eqb negb fst snd Nat.sub].
    unfold mean_over_valid.
    cbn [combine map filter length fst snd Rsum fold_right].
    unfold mul_bool. cbn [of_bool].
    rewrite INR_IZR_INZ. cbn [Z.of_nat Pos.of_succ_nat Pos.succ]. lra. }
  split; [exact Hmean|]. rewrite HT, Hmean. lra.
Qed.

(** ** Claims on the gradient reconstructor and on mutation *)

(** C3: on every field of spatial rank 3 whose neighbour stack the sampler
    returns, [gradient_from_eikonal] raises a shape error instead of
    returning a field of shape (B, C, 3, X, Y, Z): the differences are
    stacked twice (line 227) and cannot be multiplied by the three direction
    components. *)
Theorem gradient_from_eikonal_raises_in_3d
  (binary_convolution : Tensor R -> result (Tensor R)) (eikonal nb : Tensor R)
  (b c x y z : nat) :
  shape eikonal = [b; c; x; y; z]%nat ->
  binary_convolution eikonal = Ok nb ->
  shape nb = [b; c; 27; x; y; z]%nat ->
  gradient_from_eikonal binary_convolution eikonal = Raise ShapeError.
Proof.
  intros Hs Hnb Hsnb. unfold gradient_from_eikonal, ndim. rewrite Hs.
  change (Z.of_nat (length [b; c; x; y; z]%nat) - 2)%Z with 3%Z.
  change ((3 <? 2) || (3 >? 3))%Z with false. cbv iota.
  change (Z.to_nat 3) with 3%nat. change (3 ^ 3)%nat with 27%nat.
  destruct fill_directions_3d as (vd & n & -> & Hvd). cbn [bind fst].
  unfold reduce_dim at 1. unfold ndim. cbn [tmap shape]. rewrite Hvd.
  cbn [length Nat.ltb Nat.leb bind].
  change (3 =? 2)%Z with false. cbv iota.
  unfold view at 1. cbn [shape tmap remove_at firstn skipn app].
  change (numel [1; 1; 27; 1; 1; 1; 1]%nat =? numel [27]%nat)%nat with true.
  cbv iota. cbn [bind].
  unfold view at 1. rewrite Hvd.
  change (numel [1; 1; 27; 3; 1; 1; 1]%nat =? numel [27; 3]%nat)%nat with true.
  cbv iota. cbn [bind]. rewrite Hnb. cbn [bind].
  destruct (inplace2_cases Rminus nb eikonal) as [->|(a & -> & Ha)]; [reflexivity|].
  cbn [bind]. rewrite Hsnb in Ha.
  unfold unsqueeze, ndim. rewrite Ha. cbn [length Nat.leb bind].
  unfold concat2, ndim. cbn [shape insert_at firstn skipn app length].
  rewrite shape_eqb_refl, Nat.eqb_refl. cbn [Nat.ltb Nat.leb andb bind nth set_at
    firstn skipn app Nat.add].
  unfold broadcast2 at 1. cbn [shape].
  now rewrite broadcast_shapes_3d_mismatch.
Qed.


Lemma gradient_from_eikonal_raises_in_3d_witness :
  gradient_from_eikonal binary_convolution_replicate (zeros 0 [1; 1; 2; 2; 2]%nat)
  = Raise ShapeError.
Proof.
  destruct (binary_convolution_replicate_shape (zeros 0 [1; 1; 2; 2; 2]%nat)
              1 1 [2; 2; 2]%nat eq_refl) as (nb & Hnb & Hs & _).
  exact (gradient_from_eikonal_raises_in_3d binary_convolution_replicate
           (zeros 0 [1; 1; 2; 2; 2]%nat) nb 1 1 2 2 2 eq_refl Hnb Hs).
Defined.

(** C10: run on any store whose cell [input] holds the tensor [t],
    [solve_eikonal] and [gradient_from_eikonal] leave every cell the store
    held before the call as it was, the cell of their input among them,
    whether they return or raise; they return a new cell holding the tensor
    that the functional model returns on [t], or raise what it raises. *)
Theorem entry_points_leave_input_unchanged
  (binary_convolution : Tensor R -> result (Tensor R)) (s : Heap.store)
  (input : Heap.loc) (t : Tensor R) (eps : pyfloat) (min_steps : Z) :
  nth_error s input = Some (Heap.FloatCell t) ->
  let after_solve := Heap.solve_eikonal binary_convolution input eps min_steps s in
  let after_gradient := Heap.gradient_from_eikonal binary_convolution input s in
  (firstn (length s) (snd after_solve) = s /\
   nth_error (snd after_solve) input = Some (Heap.FloatCell t) /\
   (forall l, fst after_solve = Ok l -> (length s <= l)%nat) /\
   returns after_solve (solve_eikonal binary_convolution t eps min_steps)) /\
  (firstn (length s) (snd after_gradient) = s /\
   nth_error (snd after_gradient) input = Some (Heap.FloatCell t) /\
   (forall l, fst after_gradient = Ok l -> (length s <= l)%nat) /\
   returns after_gradient (gradient_from_eikonal binary_convolution t)).
Proof.
  intros Hin.
  assert (Hlt : (input < length s)%nat) by (apply nth_error_Some; congruence).
  assert (Hnth : forall s' : Heap.store,
             firstn (length s) s' = s ->
             nth_error s' input = Some (Heap.FloatCell t)).
  { intros s' Hpre. rewrite <- Hin.
    transitivity (nth_error (firstn (length s) s') input); [|now rewrite Hpre].
    now rewrite nth_error_firstn, (proj2 (Nat.ltb_lt _ _) Hlt). }
  split.
  - destruct (preserves_solve_eikonal binary_convolution (length s) input eps
                min_steps s (le_n _)) as (H1 & H2 & H3).
    rewrite firstn_all in H1. split; [exact H1|]. split; [now apply Hnth|].
    split; [exact H3|]. now apply heap_solve_eikonal.
  - destruct (preserves_gradient_from_eikonal binary_convolution (length s) input
                s (le_n _)) as (H1 & H2 & H3).
    rewrite firstn_all in H1. split; [exact H1|]. split; [now apply Hnth|].
    split; [exact H3|]. now apply heap_gradient_from_eikonal.
Qed.

Lemma entry_points_leave_input_unchanged_witness :
  nth_error
    (snd (Heap.solve_eikonal binary_convolution_replicate 0%nat (Fin (1 / 1000)) 51
            [Heap.FloatCell two_pixel_mask]))
    0%nat = Some (Heap.FloatCell two_pixel_mask) /\
  nth_error
    (snd (Heap.gradient_from_eikonal binary_convolution_replicate 0%nat
            [Heap.FloatCell two_pixel_mask]))
    0%nat = Some (Heap.FloatCell two_pixel_mask).
Proof.
  destruct (entry_points_leave_input_unchanged binary_convolution_replicate
              [Heap.FloatCell two_pixel_mask] 0%nat two_pixel_mask
              (Fin (1 / 1000)) 51 eq_refl) as ((_ & H1 & _) & (_ & H2 & _)).
  split; [exact H1|exact H2].
Defined.
(** * Further properties of the code *)

(** ** The loop of the driver *)

Lemma solve_loop_exit (bc : Tensor R -> result (Tensor R)) (aff sem : Tensor bool)
  (eps : pyfloat) (min_steps : Z) (fuel : nat) (st st' : loop_state) :
  solve_loop bc fuel aff sem eps min_steps st = Ok st' ->
  loop_guard eps min_steps st' = false.
Proof.
  revert st. induction fuel as [|fuel IH]; intros st H; cbn [solve_loop] in H;
    destruct (loop_guard eps min_steps st) eqn:Hg; try discriminate.
  - now injection H as <-.
  - apply bind_ok in H as (st1 & _ & H). exact (IH st1 H).
  - now injection H as <-.
Qed.

Lemma passes_counts (bc : Tensor R -> result (Tensor R)) (aff sem : Tensor bool)
  (n : nat) (st st' : loop_state) :
  passes bc aff sem n st = Ok st' -> st_t st' = (st_t st + Z.of_nat n)%Z.
Proof.
  revert st'. induction n as [|n IH]; intros st' H.
  - cbn [passes] in H. injection H as <-. lia.
  - cbn [passes] in H. apply bind_ok in H as (st1 & H1 & H2).
    rewrite (loop_body_counts _ _ _ _ _ H2), (IH st1 H1). lia.
Qed.

(** The loop returns the first state, counted in passes from the state it
    started in, at which its guard fails. *)
Lemma solve_loop_first_exit (bc : Tensor R -> result (Tensor R))
  (aff sem : Tensor bool) (eps : pyfloat) (min_steps : Z) (fuel : nat)
  (st st' : loop_state) :
  solve_loop bc fuel aff sem eps min_steps st = Ok st' ->
  exists n,
    passes bc aff sem n st = Ok st' /\ (n <= fuel)%nat /\
    forall m, (m < n)%nat ->
      exists stm, passes bc aff sem m st = Ok stm /\
                  loop_guard eps min_steps stm = true.
Proof.
  revert st. induction fuel as [|fuel IH]; intros st H; cbn [solve_loop] in H;
    destruct (loop_guard eps min_steps st) eqn:Hg; try discriminate.
  - injection H as <-. exists 0%nat. split; [reflexivity|]. split; [lia|].
    intros m Hm. lia.
  - destruct (loop_body bc aff sem st) as [st1|e] eqn:Hb; [|discriminate].
    cbn [bind] in H. destruct (IH st1 H) as (n & Hn & Hle & Hbefore).
    exists (S n). split; [now rewrite passes_front, Hb|]. split; [lia|].
    intros [|m] Hm.
    + exists st. now split.
    + destruct (Hbefore m) as (stm & Hstm & Hgm); [lia|].
      exists stm. split; [now rewrite passes_front, Hb|assumption].
  - injection H as <-. exists 0%nat. split; [reflexivity|]. split; [lia|].
    intros m Hm. lia.
Qed.

Lemma loop_guard_false (eps : pyfloat) (min_steps : Z) (st : loop_state) :
  loop_guard eps min_steps st = false <->
  pygt (st_error st) eps = false \/ (min_steps <= st_t st)%Z.
Proof.
  unfold loop_guard. rewrite andb_false_iff, Z.ltb_ge. reflexivity.
Qed.

Lemma loop_guard_true (eps : pyfloat) (min_steps : Z) (st : loop_state) :
  loop_guard eps min_steps st = true <->
  pygt (st_error st) eps = true /\ (st_t st < min_steps)%Z.
Proof.
  unfold loop_guard. rewrite andb_true_iff, Z.ltb_lt. reflexivity.
Qed.

(** On a mask of spatial rank 2 or 3 the driver reaches the end of its loop,
    whatever the tolerance and the iteration budget are. *)
Lemma solve_eikonal_state_returns (bc : Tensor R -> result (Tensor R))
  (mask : Tensor R) (eps : pyfloat) (min_steps : Z) :
  sampler_spec bc ->
  (ndim mask = 4 \/ ndim mask = 5)%nat ->
  exists aff st,
    make_affinity_mask bc mask = Ok aff /\
    solve_eikonal_state bc mask eps min_steps = Ok st /\
    solve_loop bc (Z.to_nat min_steps) aff (gt0 mask) eps min_steps
      (initial_state mask) = Ok st /\
    shaped (shape mask) st.
Proof.
  intros Hbc Hnd.
  destruct (ndim_rank mask Hnd) as (b & c & sp & Hs & Hrank & _).
  destruct (affinity_mask_spec bc Hbc mask b c sp Hs Hrank) as (aff & Haff & _).
  destruct (solve_loop_inv bc Hbc mask b c sp Hs Hrank aff Haff eps min_steps
              (fun _ => True) (fun _ _ _ _ => I) (Z.to_nat min_steps)
              (initial_state mask))
    as (st & Hst & Hsh & _ & _).
  - now apply initial_shaped.
  - exact I.
  - cbn [initial_state st_t]. lia.
  - exists aff, st. split; [assumption|].
    unfold solve_eikonal_state. rewrite Haff. cbn [bind].
    fold (initial_state mask). rewrite Hs. auto.
Qed.

(** X1: on every mask of spatial rank 2 or 3, for every tolerance [eps]
    (infinite and NaN included) and every [min_steps] (zero and negative
    included), [solve_eikonal] raises nothing and returns a field of the
    shape of the mask. *)
Theorem solve_eikonal_returns_field_of_mask_shape
  (binary_convolution : Tensor R -> result (Tensor R))
  (instance_mask : Tensor R) (eps : pyfloat) (min_steps : Z) :
  sampler_spec binary_convolution ->
  (ndim instance_mask = 4 \/ ndim instance_mask = 5)%nat ->
  exists T,
    solve_eikonal binary_convolution instance_mask eps min_steps = Ok T /\
    shape T = shape instance_mask.
Proof.
  intros Hbc Hnd.
  destruct (solve_eikonal_state_returns binary_convolution instance_mask eps
              min_steps Hbc Hnd) as (aff & st & _ & Hst & _ & [HsT _]).
  exists (st_T st). unfold solve_eikonal. rewrite Hst. now split.
Qed.

Lemma solve_eikonal_returns_field_of_mask_shape_witness :
  exists T,
    solve_eikonal binary_convolution_replicate two_pixel_mask NaN (-3) = Ok T /\
    shape T = [1; 1; 1; 2]%nat.
Proof.
  exact (solve_eikonal_returns_field_of_mask_shape binary_convolution_replicate
           two_pixel_mask NaN (-3) binary_convolution_replicate_spec
           (or_introl eq_refl)).
Defined.

(** X2: the loop of [solve_eikonal] makes at most [min_steps] passes and
    returns the state after the first number [n] of passes at which its guard
    fails: there the error is not above [eps] or [t] has reached
    [min_steps], while after every smaller number of passes the error was
    above [eps] and [t] below [min_steps].  The counter [t] of the returned
    state is [n]. *)
Theorem loop_returns_at_first_failed_guard
  (binary_convolution : Tensor R -> result (Tensor R))
  (instance_mask : Tensor R) (eps : pyfloat) (min_steps : Z) :
  sampler_spec binary_convolution ->
  (ndim instance_mask = 4 \/ ndim instance_mask = 5)%nat ->
  exists affinity_mask n st,
    make_affinity_mask binary_convolution instance_mask = Ok affinity_mask /\
    solve_eikonal_state binary_convolution instance_mask eps min_steps = Ok st /\
    passes binary_convolution affinity_mask (gt0 instance_mask) n
      (initial_state instance_mask) = Ok st /\
    st_t st = Z.of_nat n /\
    (Z.of_nat n <= Z.max 0 min_steps)%Z /\
    (pygt (st_error st) eps = false \/ (min_steps <= st_t st)%Z) /\
    forall m, (m < n)%nat ->
      exists stm,
        passes binary_convolution affinity_mask (gt0 instance_mask) m
          (initial_state instance_mask) = Ok stm /\
        pygt (st_error stm) eps = true /\ (st_t stm < min_steps)%Z.
Proof.
  intros Hbc Hnd.
  destruct (solve_eikonal_state_returns binary_convolution instance_mask eps
              min_steps Hbc Hnd) as (aff & st & Haff & Hst & Hloop & _).
  destruct (solve_loop_first_exit _ _ _ _ _ _ _ _ Hloop) as (n & Hn & Hle & Hbefore).
  exists aff, n, st. split; [assumption|]. split; [assumption|].
  split; [assumption|]. split.
  { rewrite (passes_counts _ _ _ _ _ _ Hn). cbn [initial_state st_t]. lia. }
  split; [lia|]. split.
  { apply loop_guard_false. exact (solve_loop_exit _ _ _ _ _ _ _ _ Hloop). }
  intros m Hm. destruct (Hbefore m Hm) as (stm & Hstm & Hg).
  exists stm. split; [assumption|]. now apply loop_guard_true.
Qed.

Lemma loop_returns_at_first_failed_guard_witness :
  exists st,
    solve_eikonal_state binary_convolution_replicate two_pixel_mask
      (Fin (1 / 1000)) 51 = Ok st /\
    (0 <= st_t st <= 51)%Z.
Proof.
  destruct (loop_returns_at_first_failed_guard binary_convolution_replicate
              two_pixel_mask (Fin (1 / 1000)) 51 binary_convolution_replicate_spec
              (or_introl eq_refl))
    as (aff & n & st & _ & Hst & _ & Ht & Hle & _).
  exists st. split; [exact Hst|]. lia.
Defined.

(** X3: when [min_steps] is zero or negative, or [eps] is [inf] or NaN, the
    guard fails before the first pass and [solve_eikonal] returns the field
    of ones it started with, on foreground and background alike, for every
    mask whose affinity mask could be built. *)
Theorem solve_eikonal_without_a_pass
  (binary_convolution : Tensor R -> result (Tensor R))
  (instance_mask : Tensor R) (affinity_mask : Tensor bool)
  (eps : pyfloat) (min_steps : Z) :
  make_affinity_mask binary_convolution instance_mask = Ok affinity_mask ->
  (min_steps <= 0)%Z \/ eps = PInf \/ eps = NaN ->
  solve_eikonal binary_convolution instance_mask eps min_steps
  = Ok (ones_like instance_mask).
Proof.
  intros Haff Hcase. unfold solve_eikonal, solve_eikonal_state.
  rewrite Haff. cbn [bind]. rewrite solve_loop_stop; [reflexivity|].
  apply loop_guard_false. cbn [st_error st_t].
  destruct Hcase as [H|[->| ->]]; [right; lia|left; reflexivity|left; reflexivity].
Qed.

Lemma solve_eikonal_without_a_pass_witness :
  solve_eikonal binary_convolution_replicate two_pixel_mask PInf 51
  = Ok (ones_like two_pixel_mask).
Proof.
  destruct (affinity_mask_spec binary_convolution_replicate
              binary_convolution_replicate_spec two_pixel_mask 1 1 [1; 2]%nat
              eq_refl (or_introl eq_refl)) as (aff & Haff & _).
  exact (solve_eikonal_without_a_pass binary_convolution_replicate two_pixel_mask
           aff PInf 51 Haff (or_intror (or_introl eq_refl))).
Defined.

(** The error of a pass is the mean of squares: NaN on a tensor without
    elements, a number that is not negative otherwise. *)
Lemma Rsum_nonneg (l : list R) : (forall x, In x l -> 0 <= x) -> 0 <= Rsum l.
Proof.
  induction l as [|a l IH]; intros H; simpl; [lra|].
  assert (0 <= a) by (apply H; now left).
  assert (0 <= Rsum l) by (apply IH; intros x Hx; apply H; now right).
  unfold Rsum in *. lra.
Qed.

Lemma mean_all_squares (t : Tensor R) :
  (numel (shape t) = 0%nat /\ mean_all (tmap (fun x => x * x) t) = NaN) \/
  (numel (shape t) <> 0%nat /\
   exists e, mean_all (tmap (fun x => x * x) t) = Fin e /\ 0 <= e).
Proof.
  unfold mean_all. cbn [shape tmap].
  destruct (numel (shape t)) as [|n] eqn:Hn; [left; now split|right].
  split; [discriminate|]. eexists. split; [reflexivity|].
  apply Rmult_le_pos.
  - apply Rsum_nonneg. intros x Hx. apply in_map_iff in Hx as (idx & <- & _).
    cbn [data]. apply Rle_0_sqr.
  - apply Rlt_le, Rinv_0_lt_compat. apply lt_0_INR. lia.
Qed.

Section PassError.

Variable bc : Tensor R -> result (Tensor R).
Hypothesis bc_spec : sampler_spec bc.

Variables (mask : Tensor R) (b c : nat) (sp : list nat).
Hypothesis mask_shape : shape mask = b :: c :: sp.
Hypothesis rank : (length sp = 2 \/ length sp = 3)%nat.

Variable aff : Tensor bool.
Hypothesis aff_ok : make_affinity_mask bc mask = Ok aff.

Lemma loop_body_error (st : loop_state) :
  shaped (b :: c :: sp) st ->
  exists st',
    loop_body bc aff (gt0 mask) st = Ok st' /\ shaped (b :: c :: sp) st' /\
    st_t st' = (st_t st + 1)%Z /\
    ((numel (b :: c :: sp) = 0%nat /\ st_error st' = NaN) \/
     (numel (b :: c :: sp) <> 0%nat /\ exists e, st_error st' = Fin e /\ 0 <= e)).
Proof.
  intros [HsT HsT0].
  destruct (loop_body_spec bc bc_spec b c sp rank aff (gt0 mask) _ _
              (aff_agrees_self bc bc_spec mask b c sp mask_shape rank aff aff_ok)
              (sem_agrees mask b c sp mask_shape) st HsT HsT0)
    as (T1 & diff & st' & _ & _ & [Hsd _] & Hbody & Herr & Ht & _ & _ & HsT' & HT0').
  exists st'. split; [assumption|]. split; [split; [assumption|apply HT0']|].
  split; [assumption|]. rewrite Herr, <- Hsd. apply mean_all_squares.
Qed.

End PassError.



(** X5: on a mask without elements (an empty batch, say) the error of the
    first pass is the mean of an empty tensor, NaN, which no tolerance
    compares below: the loop ends after that single pass, for every
    [min_steps >= 1] and every [eps] other than [inf] and NaN. *)
Theorem empty_mask_single_pass
  (binary_convolution : Tensor R -> result (Tensor R))
  (instance_mask : Tensor R) (eps : pyfloat) (min_steps : Z) :
  sampler_spec binary_convolution ->
  (ndim instance_mask = 4 \/ ndim instance_mask = 5)%nat ->
  numel (shape instance_mask) = 0%nat ->
  (1 <= min_steps)%Z ->
  pygt PInf eps = true ->
  exists st,
    solve_eikonal_state binary_convolution instance_mask eps min_steps = Ok st /\
    st_t st = 1%Z /\
    st_error st = NaN /\
    shape (st_T st) = shape instance_mask.
Proof.
  intros Hbc Hnd Hempty Hms Heps.
  destruct (ndim_rank instance_mask Hnd) as (b & c & sp & Hs & Hrank & _).
  destruct (affinity_mask_spec binary_convolution Hbc instance_mask b c sp Hs Hrank)
    as (aff & Haff & _).
  destruct (loop_body_error binary_convolution Hbc instance_mask b c sp Hs Hrank
              aff Haff (initial_state instance_mask))
    as (st1 & Hb & [HsT _] & Ht & Hcase).
  { now apply initial_shaped. }
  destruct Hcase as [[_ Herr]|[Hne _]]; [|rewrite <- Hs in Hne; contradiction].
  exists st1. unfold solve_eikonal_state. rewrite Haff. cbn [bind].
  fold (initial_state instance_mask).
  destruct (Z.to_nat min_steps) as [|fuel] eqn:Hfuel; [lia|].
  rewrite (solve_loop_step _ _ _ _ _ _ _ st1); [| |exact Hb].
  2:{ apply loop_guard_true. cbn [initial_state st_error st_t]. split; [exact Heps|lia]. }
  rewrite solve_loop_stop.
  2:{ apply loop_guard_false. left. rewrite Herr. reflexivity. }
  split; [reflexivity|]. split; [exact Ht|]. split; [exact Herr|].
  now rewrite Hs.
Qed.

Lemma empty_mask_single_pass_witness :
  exists st,
    solve_eikonal_state binary_convolution_replicate (zeros 0 [0; 1; 2; 2]%nat)
      (Fin (1 / 1000)) 51 = Ok st /\
    st_t st = 1%Z.
Proof.
  destruct (empty_mask_single_pass binary_convolution_replicate
              (zeros 0 [0; 1; 2; 2]%nat) (Fin (1 / 1000)) 51
              binary_convolution_replicate_spec (or_introl eq_refl) eq_refl
              ltac:(lia) eq_refl) as (st & Hst & Ht & _).
  exists st. now split.
Defined.

(** ** The pair reducer *)

(** With a positive step length the output at a pixel is [pixel_reduce] of
    the pixel's pair minima in their original order. *)
Lemma apply_update_reduce (minimum_paired : Tensor R) (f : R) (k : nat)
  (s : list nat) :
  0 < f ->
  shape minimum_paired = S k :: s ->
  length s <> 2%nat ->
  exists out,
    _apply_update minimum_paired f = Ok out /\
    shape out = s /\
    forall idx, in_range s idx ->
      data out idx
      = pixel_reduce (IZR (Z.of_nat (length s) - 2)) f (column minimum_paired idx).
Proof.
  intros Hf Hs Hlen.
  destruct (apply_update_pixel minimum_paired f k s (data minimum_paired))
    as (out & Hout & Hshape & Hdata); [now split|assumption|].
  exists out. split; [assumption|]. split; [assumption|].
  intros idx Hin. rewrite (Hdata idx Hin). cbv zeta.
  replace (IZR (Z.of_nat (S (length s)) - 3)) with (IZR (Z.of_nat (length s) - 2))
    by (f_equal; lia).
  destruct (kept_sums f (pixel_column (data minimum_paired) (S k) idx) Hf) as [-> ->].
  rewrite (pixel_column_data _ _ _ idx Hs). unfold pixel_reduce. cbv zeta.
  field. apply not_0_IZR. lia.
Qed.

Lemma Rsum_square_distances (x : R) (l : list R) :
  Rsum (map (fun a => (x - a) ^ 2) l)
  = INR (length l) * x ^ 2 - 2 * Rsum l * x + Rsum (map (fun a => a ^ 2) l).
Proof.
  induction l as [|a l IH].
  - simpl. lra.
  - change (length (a :: l)) with (S (length l)). rewrite S_INR.
    cbn [map Rsum fold_right]. unfold Rsum in IH. rewrite IH. ring.
Qed.

Lemma column_length (t : Tensor R) (n : nat) (s : list nat) (idx : index) :
  shape t = n :: s -> length (column t idx) = n.
Proof. intros Hs. unfold column. now rewrite Hs, length_map, length_seq. Qed.

(** The larger root of [n x^2 - 2 S x + c = 0] when its discriminant is not
    negative. *)
Lemma quadratic_root (n S c : R) :
  n <> 0 -> 0 <= S ^ 2 - n * c ->
  let x := (S + sqrt (S ^ 2 - n * c)) / n in
  n * x ^ 2 - 2 * S * x + c = 0.
Proof.
  intros Hn HD x. unfold x.
  assert (Hr : sqrt (S ^ 2 - n * c) ^ 2 = S ^ 2 - n * c) by (now apply pow2_sqrt).
  set (r := sqrt (S ^ 2 - n * c)) in *.
  assert (E : n * c = S ^ 2 - r ^ 2) by lra.
  assert (Ec : c = (S ^ 2 - r ^ 2) / n) by (rewrite <- E; field; assumption).
  rewrite Ec. field. assumption.
Qed.

Lemma quadratic_root_largest (n S c x : R) :
  0 < n -> 0 <= S ^ 2 - n * c ->
  n * x ^ 2 - 2 * S * x + c = 0 ->
  x <= (S + sqrt (S ^ 2 - n * c)) / n.
Proof.
  intros Hn HD Hx.
  assert (Hsq : (n * x - S) ^ 2 = S ^ 2 - n * c) by nra.
  assert (Hle : n * x - S <= sqrt (S ^ 2 - n * c)).
  { destruct (Rle_dec (n * x - S) 0) as [Hneg|Hpos].
    - pose proof (sqrt_pos (S ^ 2 - n * c)). lra.
    - rewrite <- Hsq. replace ((n * x - S) ^ 2) with (Rsqr (n * x - S))
        by (unfold Rsqr; ring).
      rewrite sqrt_Rsqr by lra. lra. }
  apply Rmult_le_reg_l with n; [assumption|].
  replace (n * ((S + sqrt (S ^ 2 - n * c)) / n)) with (S + sqrt (S ^ 2 - n * c))
    by (field; lra).
  lra.
Qed.

(** X6: for a step length [f > 0] the value [u] that [_apply_update] leaves
    at a pixel solves the quadratic [n u^2 - 2 S u + (Q - f^2) = 0]
    ([n] the number of spatial dimensions, [S] and [Q] the sum and the sum of
    squares of the pixel's pair minima) whenever its discriminant is not
    negative, and is its largest solution when [n > 0]; with as many pairs as
    spatial dimensions this says that the squared differences [(u - a_i)^2]
    to the pair minima add up to [f^2].  When the discriminant is negative
    the clamp leaves [S / n]. *)
Theorem apply_update_solves_quadratic (minimum_paired : Tensor R) (f : R)
  (k : nat) (s : list nat) (idx : index) :
  0 < f ->
  shape minimum_paired = S k :: s ->
  length s <> 2%nat ->
  in_range s idx ->
  let n := IZR (Z.of_nat (length s) - 2) in
  let S := Rsum (column minimum_paired idx) in
  let Q := Rsum (map (fun x => x ^ 2) (column minimum_paired idx)) in
  exists out,
    _apply_update minimum_paired f = Ok out /\
    (0 <= S ^ 2 - n * (Q - f ^ 2) ->
       n * data out idx ^ 2 - 2 * S * data out idx + (Q - f ^ 2) = 0 /\
       (0 < n -> forall x, n * x ^ 2 - 2 * S * x + (Q - f ^ 2) = 0 ->
                           x <= data out idx) /\
       (INR (Datatypes.S k) = n ->
          Rsum (map (fun a => (data out idx - a) ^ 2) (column minimum_paired idx))
          = f ^ 2)) /\
    (S ^ 2 - n * (Q - f ^ 2) <= 0 -> data out idx = S / n).
Proof.
  intros Hf Hs Hlen Hin n S Q.
  destruct (apply_update_reduce minimum_paired f k s Hf Hs Hlen)
    as (out & Hout & _ & Hdata).
  exists out. split; [assumption|].
  assert (Hn : n <> 0) by (unfold n; apply not_0_IZR; lia).
  rewrite (Hdata idx Hin). unfold pixel_reduce. cbv zeta. fold n S Q.
  split.
  - intros HD. rewrite Rmax_right by assumption.
    pose proof (quadratic_root n S (Q - f ^ 2) Hn HD) as Hroot. cbv zeta in Hroot.
    split; [exact Hroot|]. split.
    + intros Hpos x Hx. now apply quadratic_root_largest.
    + intros Hpairs. rewrite Rsum_square_distances.
      rewrite (column_length _ _ _ idx Hs), Hpairs. fold S Q. lra.
  - intros HD. rewrite Rmax_left by assumption. rewrite sqrt_0. field. assumption.
Qed.

Lemma apply_update_solves_quadratic_witness :
  exists out,
    _apply_update (mkTensor [2; 1; 1; 1; 1]%nat (fun _ => 3)) 1 = Ok out /\
    2 * data out [0; 0; 0; 0]%nat ^ 2 - 2 * 6 * data out [0; 0; 0; 0]%nat
    + (18 - 1) = 0.
Proof.
  destruct (apply_update_solves_quadratic
              (mkTensor [2; 1; 1; 1; 1]%nat (fun _ => 3)) 1 1 [1; 1; 1; 1]%nat
              [0; 0; 0; 0]%nat)
    as (out & Hout & Hroot & _).
  - lra.
  - reflexivity.
  - simpl. lia.
  - repeat constructor.
  - exists out. split; [exact Hout|].
    unfold column in Hroot. cbn [shape hd seq map data Rsum fold_right length
      Z.of_nat Pos.of_succ_nat Pos.succ Z.sub Z.add Z.opp Z.pos_sub Pos.pred_double]
      in Hroot.
    change (IZR (Z.double 1)) with 2 in Hroot.
    destruct Hroot as [Hroot _]; [lra|]. lra.
Defined.

(** Two sorted lists with the same elements are equal. *)
Lemma sorted_perm_eq (l1 l2 : list R) :
  StronglySorted Rle l1 -> StronglySorted Rle l2 -> Permutation l1 l2 -> l1 = l2.
Proof.
  intros H1. revert l2. induction H1 as [|a l1 Hs1 IH Ha]; intros l2 H2 Hp.
  - apply Permutation_nil in Hp. now subst.
  - destruct H2 as [|b l2 Hs2 Hb].
    + apply Permutation_sym, Permutation_nil in Hp. discriminate.
    + assert (a = b).
      { rewrite Forall_forall in Ha, Hb.
        assert (Hin_a : In a (b :: l2))
          by (eapply Permutation_in; [exact Hp|now left]).
        assert (Hin_b : In b (a :: l1))
          by (eapply Permutation_in; [apply Permutation_sym; exact Hp|now left]).
        destruct Hin_a as [->|Hin_a]; [reflexivity|].
        destruct Hin_b as [->|Hin_b]; [reflexivity|].
        apply Rle_antisym; [now apply Ha|now apply Hb]. }
      subst b. f_equal. apply IH; [assumption|].
      now apply Permutation_cons_inv with a.
Qed.

Lemma Rsort_permutation (l1 l2 : list R) : Permutation l1 l2 -> Rsort l1 = Rsort l2.
Proof.
  intros Hp. apply sorted_perm_eq; try apply Rsort_sorted.
  rewrite <- (Rsort_perm l1), <- (Rsort_perm l2). exact Hp.
Qed.

(** X7: the value [_apply_update] leaves at a pixel depends on the pixel's
    pair minima only as a multiset: two stacks whose pair minima at a pixel
    are permutations of each other give the same value there, for every step
    length [f] (the stack is sorted along the pair axis before the upwind
    mask is taken). *)
Theorem apply_update_ignores_pair_order (minimum_paired minimum_paired' : Tensor R)
  (f : R) (k : nat) (s : list nat) (idx : index) :
  shape minimum_paired = S k :: s ->
  shape minimum_paired' = S k :: s ->
  length s <> 2%nat ->
  in_range s idx ->
  Permutation (column minimum_paired idx) (column minimum_paired' idx) ->
  exists out out',
    _apply_update minimum_paired f = Ok out /\
    _apply_update minimum_paired' f = Ok out' /\
    data out idx = data out' idx.
Proof.
  intros Hs Hs' Hlen Hin Hp.
  destruct (apply_update_pixel minimum_paired f k s (data minimum_paired))
    as (out & Hout & _ & Hdata); [now split|assumption|].
  destruct (apply_update_pixel minimum_paired' f k s (data minimum_paired'))
    as (out' & Hout' & _ & Hdata'); [now split|assumption|].
  exists out, out'. split; [assumption|]. split; [assumption|].
  rewrite (Hdata idx Hin), (Hdata' idx Hin). cbv zeta.
  rewrite (pixel_column_data _ _ _ idx Hs), (pixel_column_data _ _ _ idx Hs').
  unfold kept. cbv zeta. now rewrite (Rsort_permutation _ _ Hp).
Qed.

Lemma apply_update_ignores_pair_order_witness :
  exists out out',
    _apply_update (of_values [2; 1; 1; 1; 1]%nat [1; 5]) 1 = Ok out /\
    _apply_update (of_values [2; 1; 1; 1; 1]%nat [5; 1]) 1 = Ok out' /\
    data out [0; 0; 0; 0]%nat = data out' [0; 0; 0; 0]%nat.
Proof.
  apply (apply_update_ignores_pair_order
           (of_values [2; 1; 1; 1; 1]%nat [1; 5])
           (of_values [2; 1; 1; 1; 1]%nat [5; 1]) 1 1 [1; 1; 1; 1]%nat
           [0; 0; 0; 0]%nat eq_refl eq_refl).
  - simpl. lia.
  - repeat constructor.
  - unfold column. cbn. apply perm_swap.
Defined.

(** X8: on a stack of rank 3, pairs times batch times channel with no
    spatial axis, the number of dimensions [d] is 0 and the factor [1 / d]
    raises Python's ZeroDivisionError, after the sorting and the sums went
    through. *)
Theorem apply_update_without_spatial_axes (minimum_paired : Tensor R) (f : R)
  (k b c : nat) :
  shape minimum_paired = [S k; b; c] ->
  _apply_update minimum_paired f = Raise ZeroDivisionError.
Proof.
  intros Hs. unfold _apply_update.
  assert (Hmp : agrees minimum_paired (S k :: [b; c]) (data minimum_paired))
    by (now split).
  assert (Hnd : ndim minimum_paired = 3%nat) by (unfold ndim; now rewrite Hs).
  rewrite Hnd.
  pose proof (sort0_agrees _ _ _ _ Hmp) as Hsorted.
  destruct (upwind_mask_pixel _ f _ _ _ Hsorted) as (keep & -> & Hkeep). cbn [bind].
  destruct (broadcast2_agrees mul_bool _ _ _ _ _ Hsorted Hkeep) as (a & -> & Ha).
  cbn [bind]. unfold sum_dim.
  destruct (reduce_dim0_agrees Rplus 0 _ _ _ _ Ha) as (sum_a & -> & _). cbn [bind].
  destruct (reduce_dim0_agrees Rplus 0 _ _ _ _ (tmap_agrees (fun x => x ^ 2) _ _ _ Ha))
    as (sum_a2 & -> & _).
  cbn [bind]. reflexivity.
Qed.

Lemma apply_update_without_spatial_axes_witness :
  _apply_update (mkTensor [2; 1; 1]%nat (fun _ => 1)) 1 = Raise ZeroDivisionError.
Proof.
  exact (apply_update_without_spatial_axes (mkTensor [2; 1; 1]%nat (fun _ => 1)) 1
           1 1 1 eq_refl).
Defined.

(** X9: a stack without pairs, its leading axis of size 0, or a tensor
    without axes has no last entry [minimum_paired[-1, ...]]:
    [_apply_update] raises an IndexError. *)
Theorem apply_update_without_pairs (minimum_paired : Tensor R) (f : R) :
  shape minimum_paired = [] \/ (exists s, shape minimum_paired = 0%nat :: s) ->
  _apply_update minimum_paired f = Raise IndexError.
Proof.
  intros [Hs|(s & Hs)]; unfold _apply_update, upwind_mask, select_last, sort0;
    rewrite Hs; cbn [shape]; try rewrite Hs; reflexivity.
Qed.

Lemma apply_update_without_pairs_witness :
  _apply_update (zeros 0 [0; 1; 1; 2; 2]%nat) 1 = Raise IndexError.
Proof.
  apply apply_update_without_pairs. right. now exists [1; 1; 2; 2]%nat.
Defined.

Lemma Rsum_constant (u : R) (l : list R) :
  (forall x, In x l -> x = u) -> Rsum l = INR (length l) * u.
Proof.
  induction l as [|a l IH]; intros H.
  - simpl. lra.
  - change (length (a :: l)) with (S (length l)). rewrite S_INR.
    cbn [Rsum fold_right]. rewrite (H a) by (now left).
    unfold Rsum in IH. rewrite IH; [lra|]. intros x Hx. apply H. now right.
Qed.

(** X10: where all pair minima of a pixel have the same value [u] and there
    are as many pairs as spatial dimensions [n], [_apply_update] with step
    length [f > 0] leaves [u + f / sqrt n]: a flat neighbourhood advances
    the front by [f / sqrt n]. *)
Theorem apply_update_flat_neighbourhood (minimum_paired : Tensor R) (f u : R)
  (k : nat) (s : list nat) (idx : index) :
  0 < f ->
  shape minimum_paired = S k :: s ->
  length s = (S k + 2)%nat ->
  in_range s idx ->
  (forall j, (j < S k)%nat -> data minimum_paired (j :: idx) = u) ->
  exists out,
    _apply_update minimum_paired f = Ok out /\
    data out idx = u + f / sqrt (INR (S k)).
Proof.
  intros Hf Hs Hlen Hin Hu.
  destruct (apply_update_reduce minimum_paired f k s Hf Hs)
    as (out & Hout & _ & Hdata); [lia|].
  exists out. split; [assumption|]. rewrite (Hdata idx Hin).
  set (n := INR (S k)).
  assert (Hn : 0 < n) by (apply lt_0_INR; lia).
  assert (En : IZR (Z.of_nat (length s) - 2) = n).
  { unfold n. rewrite INR_IZR_INZ. f_equal. lia. }
  rewrite En. unfold pixel_reduce. cbv zeta.
  assert (Hcol : forall x, In x (column minimum_paired idx) -> x = u).
  { intros x Hx. unfold column in Hx. rewrite Hs in Hx. cbn [hd] in Hx.
    apply in_map_iff in Hx as (j & <- & Hj). apply in_seq in Hj. apply Hu. lia. }
  assert (ES : Rsum (column minimum_paired idx) = n * u).
  { rewrite (Rsum_constant u) by assumption.
    now rewrite (column_length _ _ _ idx Hs). }
  assert (EQ : Rsum (map (fun x => x ^ 2) (column minimum_paired idx)) = n * u ^ 2).
  { rewrite (Rsum_constant (u ^ 2)).
    - now rewrite length_map, (column_length _ _ _ idx Hs).
    - intros x Hx. apply in_map_iff in Hx as (y & <- & Hy). now rewrite (Hcol y Hy). }
  rewrite ES, EQ.
  replace ((n * u) ^ 2 - n * (n * u ^ 2 - f ^ 2)) with (n * f ^ 2) by ring.
  assert (Hnf : 0 <= n * f ^ 2) by nra.
  rewrite Rmax_right by assumption.
  rewrite sqrt_mult by nra.
  replace (f ^ 2) with (Rsqr f) by (unfold Rsqr; ring).
  rewrite sqrt_Rsqr by lra.
  assert (Hsn : 0 < sqrt n) by (now apply sqrt_lt_R0).
  assert (Hsq : sqrt n * sqrt n = n) by (apply sqrt_sqrt; lra).
  transitivity ((sqrt n * sqrt n * u + sqrt n * f) / (sqrt n * sqrt n));
    [now rewrite Hsq|field; lra].
Qed.

Lemma apply_update_flat_neighbourhood_witness :
  exists out,
    _apply_update (mkTensor [2; 1; 1; 3; 3]%nat (fun _ => 5)) 1 = Ok out /\
    data out [0; 0; 1; 1]%nat = 5 + 1 / sqrt (INR 2).
Proof.
  apply (apply_update_flat_neighbourhood
           (mkTensor [2; 1; 1; 3; 3]%nat (fun _ => 5)) 1 5 1 [1; 1; 3; 3]%nat
           [0; 0; 1; 1]%nat).
  - lra.
  - reflexivity.
  - reflexivity.
  - repeat constructor.
  - reflexivity.
Defined.

(** ** The single-step solver *)

(** A stack with at least nine (twenty-seven) entries per pixel: the step
    reads the first nine (twenty-seven). *)
Lemma single_step_2d_wide (cc : Tensor R) (b c K x y : nat) (g : index -> R) :
  (9 <= K)%nat ->
  agrees cc [b; c; K; x; y]%nat g ->
  exists out,
    eikonal_single_step cc = Ok out /\
    agrees out [b; c; x; y]
      (fun idx => single_step_pixel 2 (fun k => g (insert_at 2 k idx))).
Proof.
  intros HK Hcc. pose proof Hcc as [Hs _].
  unfold eikonal_single_step, ndim. rewrite Hs.
  cbn [length direction_tables Nat.eqb Nat.sub bind].
  destruct (select2_agrees cc b c K [x; y]%nat g 0 Hcc) as (first & -> & [Hf _]);
    [lia|].
  cbn [bind]. cbn [factors_2d index_list_2d tl combine foldM].
  assert (Hphi : agrees (ones_like first) [b; c; x; y]%nat (fun _ => 1))
    by (split; [exact Hf|reflexivity]).
  change (class_update cc (ones_like first) ([1; 3; 5; 7]%nat, 1))
    with (minima <- mapM (reference_pair_minimum cc) [(1, 7); (3, 5)]%nat ;;
          stacked <- stack 0 minima ;;
          u <- _apply_update stacked 1 ;;
          inplace2 Rmult (ones_like first) u).
  destruct (class_agrees cc _ b c K [x; y]%nat g _ 1 (1, 7)%nat [(3, 5)%nat]
              Hcc Hphi) as (acc1 & _ & -> & H1);
    [pairs_below|lra|discriminate|].
  cbn [bind].
  change (class_update cc acc1 ([0; 2; 6; 8]%nat, sqrt 2))
    with (minima <- mapM (reference_pair_minimum cc) [(0, 8); (2, 6)]%nat ;;
          stacked <- stack 0 minima ;;
          u <- _apply_update stacked (sqrt 2) ;;
          inplace2 Rmult acc1 u).
  destruct (class_agrees cc _ b c K [x; y]%nat g _ (sqrt 2) (0, 8)%nat [(2, 6)%nat]
              Hcc H1) as (acc2 & _ & -> & H2);
    [pairs_below|apply sqrt2_pos|discriminate|].
  cbn [bind]. eexists. split; [reflexivity|].
  apply (tmap_agrees sqrt) in H2.
  eapply agrees_ext; [exact H2|].
  intros idx _. unfold single_step_pixel. rewrite direction_classes_2d.
  reflexivity.
Qed.

Lemma single_step_3d_wide (cc : Tensor R) (b c K x y z : nat) (g : index -> R) :
  (27 <= K)%nat ->
  agrees cc [b; c; K; x; y; z]%nat g ->
  exists out,
    eikonal_single_step cc = Ok out /\
    agrees out [b; c; x; y; z]
      (fun idx => single_step_pixel 3 (fun k => g (insert_at 2 k idx))).
Proof.
  intros HK Hcc. pose proof Hcc as [Hs _].
  unfold eikonal_single_step, ndim. rewrite Hs.
  cbn [length direction_tables Nat.eqb Nat.sub bind].
  destruct (select2_agrees cc b c K [x; y; z]%nat g 0 Hcc) as (first & -> & [Hf _]);
    [lia|].
  cbn [bind]. cbn [factors_3d index_list_3d tl combine foldM].
  assert (Hphi : agrees (ones_like first) [b; c; x; y; z]%nat (fun _ => 1))
    by (split; [exact Hf|reflexivity]).
  change (class_update cc (ones_like first) ([4; 10; 12; 14; 16; 22]%nat, 1))
    with (minima <- mapM (reference_pair_minimum cc)
                      [(4, 22); (10, 16); (12, 14)]%nat ;;
          stacked <- stack 0 minima ;;
          u <- _apply_update stacked 1 ;;
          inplace2 Rmult (ones_like first) u).
  destruct (class_agrees cc _ b c K [x; y; z]%nat g _ 1 (4, 22)%nat
              [(10, 16); (12, 14)]%nat Hcc Hphi) as (acc1 & _ & -> & H1);
    [pairs_below|lra|discriminate|].
  cbn [bind].
  change (class_update cc acc1
            ([1; 3; 5; 7; 9; 11; 15; 17; 19; 21; 23; 25]%nat, sqrt 2))
    with (minima <- mapM (reference_pair_minimum cc)
                      [(1, 25); (3, 23); (5, 21); (7, 19); (9, 17); (11, 15)]%nat ;;
          stacked <- stack 0 minima ;;
          u <- _apply_update stacked (sqrt 2) ;;
          inplace2 Rmult acc1 u).
  destruct (class_agrees cc _ b c K [x; y; z]%nat g _ (sqrt 2) (1, 25)%nat
              [(3, 23); (5, 21); (7, 19); (9, 17); (11, 15)]%nat Hcc H1)
    as (acc2 & _ & -> & H2);
    [pairs_below|apply sqrt2_pos|discriminate|].
  cbn [bind].
  change (class_update cc acc2 ([0; 2; 6; 8; 18; 20; 24; 26]%nat, sqrt 3))
    with (minima <- mapM (reference_pair_minimum cc)
                      [(0, 26); (2, 24); (6, 20); (8, 18)]%nat ;;
          stacked <- stack 0 minima ;;
          u <- _apply_update stacked (sqrt 3) ;;
          inplace2 Rmult acc2 u).
  destruct (class_agrees cc _ b c K [x; y; z]%nat g _ (sqrt 3) (0, 26)%nat
              [(2, 24); (6, 20); (8, 18)]%nat Hcc H2)
    as (acc3 & _ & -> & H3);
    [pairs_below|apply sqrt3_pos|discriminate|].
  cbn [bind]. eexists. split; [reflexivity|].
  apply (tmap_agrees sqrt) in H3.
  eapply agrees_ext; [exact H3|].
  intros idx _. unfold single_step_pixel. rewrite direction_classes_3d.
  reflexivity.
Qed.

Lemma single_step_wide (cc : Tensor R) (b c K : nat) (sp : list nat)
  (g : index -> R) :
  (length sp = 2 \/ length sp = 3)%nat ->
  (3 ^ length sp <= K)%nat ->
  agrees cc (b :: c :: K :: sp) g ->
  exists out,
    eikonal_single_step cc = Ok out /\
    agrees out (b :: c :: sp)
      (fun idx => single_step_pixel (length sp) (fun k => g (insert_at 2 k idx))).
Proof.
  intros [Hlen|Hlen] HK Hcc.
  - destruct sp as [|x [|y [|? ?]]]; try discriminate Hlen.
    exact (single_step_2d_wide cc b c K x y g HK Hcc).
  - destruct sp as [|x [|y [|z [|? ?]]]]; try discriminate Hlen.
    exact (single_step_3d_wide cc b c K x y z g HK Hcc).
Qed.

(** The value of a pixel depends on its neighbour values only through the
    entries that the index lists name. *)
Lemma single_step_pixel_ext (d : nat) (nb nb' : nat -> R) :
  (d = 2 \/ d = 3)%nat ->
  (forall k, (k < 3 ^ d)%nat -> k <> (3 ^ d / 2)%nat -> nb k = nb' k) ->
  single_step_pixel d nb = single_step_pixel d nb'.
Proof.
  intros [->| ->] H; unfold single_step_pixel.
  - change (3 ^ 2)%nat with 9%nat in H. change (9 / 2)%nat with 4%nat in H.
    rewrite direction_classes_2d.
    cbn [fold_left pair_minima map fst snd].
    rewrite !H by lia. reflexivity.
  - change (3 ^ 3)%nat with 27%nat in H. change (27 / 2)%nat with 13%nat in H.
    rewrite direction_classes_3d.
    cbn [fold_left pair_minima map fst snd].
    rewrite !H by lia. reflexivity.
Qed.

(** X11: [eikonal_single_step] never reads the centre entry of the stack
    (index 4 of 9 in 2D, 13 of 27 in 3D) nor any entry beyond the first
    [3^d]: two stacks of the same shape, with at least [3^d] entries per
    pixel, that agree on the other entries give the same field, of shape
    (B, C, spatial...). *)
Theorem single_step_ignores_centre (connected_components other : Tensor R)
  (b c K : nat) (sp : list nat) :
  (length sp = 2 \/ length sp = 3)%nat ->
  (3 ^ length sp <= K)%nat ->
  shape connected_components = b :: c :: K :: sp ->
  shape other = b :: c :: K :: sp ->
  (forall idx k, in_range (b :: c :: sp) idx ->
     (k < 3 ^ length sp)%nat -> k <> (3 ^ length sp / 2)%nat ->
     data connected_components (insert_at 2 k idx) = data other (insert_at 2 k idx)) ->
  exists out out',
    eikonal_single_step connected_components = Ok out /\
    eikonal_single_step other = Ok out' /\
    shape out = b :: c :: sp /\ shape out' = b :: c :: sp /\
    forall idx, in_range (b :: c :: sp) idx -> data out idx = data out' idx.
Proof.
  intros Hlen HK Hs Hs' Hsame.
  destruct (single_step_wide connected_components b c K sp
              (data connected_components) Hlen HK (conj Hs (fun _ _ => eq_refl)))
    as (out & Hout & Hso & Hdo).
  destruct (single_step_wide other b c K sp (data other) Hlen HK
              (conj Hs' (fun _ _ => eq_refl)))
    as (out' & Hout' & Hso' & Hdo').
  exists out, out'. repeat (split; [assumption|]).
  intros idx Hin. rewrite (Hdo idx Hin), (Hdo' idx Hin).
  apply single_step_pixel_ext; [lia|].
  intros k Hk Hc. now apply Hsame.
Qed.

Lemma single_step_ignores_centre_witness :
  exists out out',
    eikonal_single_step (zeros 0 [1; 1; 9; 1; 1]%nat) = Ok out /\
    eikonal_single_step
      (mkTensor [1; 1; 9; 1; 1]%nat
         (fun idx => if (nth 2 idx 0 =? 4)%nat then 7 else 0)) = Ok out' /\
    data out [0; 0; 0; 0]%nat = data out' [0; 0; 0; 0]%nat.
Proof.
  destruct (single_step_ignores_centre (zeros 0 [1; 1; 9; 1; 1]%nat)
              (mkTensor [1; 1; 9; 1; 1]%nat
                 (fun idx => if (nth 2 idx 0 =? 4)%nat then 7 else 0))
              1 1 9 [1; 1]%nat (or_introl eq_refl) (le_n 9) eq_refl eq_refl)
    as (out & out' & H1 & H2 & _ & _ & H).
  - intros idx k Hin Hk Hc.
    destruct (in_range_split2 _ _ _ _ Hin) as (bi & ci & xs & -> & _).
    cbn [insert_at firstn skipn app zeros data nth].
    change (3 ^ length [1; 1] / 2)%nat with 4%nat in Hc.
    destruct (Nat.eqb_spec k 4); [contradiction|reflexivity].
  - exists out, out'. split; [exact H1|]. split; [exact H2|].
    apply H. repeat constructor.
Defined.

(** The reduction of a class reads its pair minima through their sum and the
    sum of their squares. *)
Lemma pixel_reduce_sums (n f : R) (l l' : list R) :
  Rsum l = Rsum l' ->
  Rsum (map (fun x => x ^ 2) l) = Rsum (map (fun x => x ^ 2) l') ->
  pixel_reduce n f l = pixel_reduce n f l'.
Proof. intros H1 H2. unfold pixel_reduce. cbv zeta. now rewrite H1, H2. Qed.

Ltac orient_minima nb :=
  repeat match goal with
  | |- context [Rmin (nb ?p) (nb ?q)] =>
      let lt := eval vm_compute in (Nat.ltb q p) in
      match lt with
      | true => rewrite (Rmin_comm (nb p) (nb q))
      end
  end.

Ltac evaluate_symmetry sigma :=
  repeat match goal with
  | |- context [sigma ?k] =>
      let v := eval vm_compute in (sigma k) in change (sigma k) with v
  end.

Ltac same_reduction :=
  apply pixel_reduce_sums; cbn [map Rsum fold_right]; ring.

Lemma single_step_pixel_square (sigma : nat -> nat) (nb : nat -> R) :
  sigma = quarter_turn \/ sigma = transpose ->
  single_step_pixel 2 (fun k => nb (sigma k)) = single_step_pixel 2 nb.
Proof.
  intros Hsigma. unfold single_step_pixel. rewrite direction_classes_2d.
  cbn [fold_left pair_minima map fst snd].
  destruct Hsigma as [->| ->].
  - evaluate_symmetry quarter_turn. orient_minima nb.
    apply f_equal. apply f_equal2; [apply f_equal2; [reflexivity|]|]; same_reduction.
  - evaluate_symmetry transpose. orient_minima nb.
    apply f_equal. apply f_equal2; [apply f_equal2; [reflexivity|]|]; same_reduction.
Qed.

Lemma single_step_pixel_cube (sigma : nat -> nat) (nb : nat -> R) :
  sigma = cycle_axes \/ sigma = swap_axes \/ sigma = mirror_axis ->
  single_step_pixel 3 (fun k => nb (sigma k)) = single_step_pixel 3 nb.
Proof.
  intros Hsigma. unfold single_step_pixel. rewrite direction_classes_3d.
  cbn [fold_left pair_minima map fst snd].
  destruct Hsigma as [->|[->| ->]].
  - evaluate_symmetry cycle_axes. orient_minima nb.
    apply f_equal.
    apply f_equal2; [apply f_equal2; [apply f_equal2; [reflexivity|]|]|];
      same_reduction.
  - evaluate_symmetry swap_axes. orient_minima nb.
    apply f_equal.
    apply f_equal2; [apply f_equal2; [apply f_equal2; [reflexivity|]|]|];
      same_reduction.
  - evaluate_symmetry mirror_axis. orient_minima nb.
    apply f_equal.
    apply f_equal2; [apply f_equal2; [apply f_equal2; [reflexivity|]|]|];
      same_reduction.
Qed.

(** X12: the single step is symmetric under the symmetries of the lattice:
    when the neighbour entries of a stack are permuted by a quarter turn or
    a diagonal reflection of the 3 x 3 neighbourhood (2D), or by a rotation
    of the axes, an exchange of two axes or the mirroring of an axis of the
    3 x 3 x 3 neighbourhood (3D), [eikonal_single_step] returns the same
    values. *)
Theorem single_step_lattice_symmetry (connected_components turned : Tensor R)
  (sigma : nat -> nat) (b c : nat) (sp : list nat) :
  (length sp = 2%nat /\ (sigma = quarter_turn \/ sigma = transpose)) \/
  (length sp = 3%nat /\
   (sigma = cycle_axes \/ sigma = swap_axes \/ sigma = mirror_axis)) ->
  shape connected_components = b :: c :: (3 ^ length sp)%nat :: sp ->
  shape turned = b :: c :: (3 ^ length sp)%nat :: sp ->
  (forall idx k, in_range (b :: c :: sp) idx -> (k < 3 ^ length sp)%nat ->
     data turned (insert_at 2 k idx)
     = data connected_components (insert_at 2 (sigma k) idx)) ->
  exists out out',
    eikonal_single_step connected_components = Ok out /\
    eikonal_single_step turned = Ok out' /\
    forall idx, in_range (b :: c :: sp) idx -> data out idx = data out' idx.
Proof.
  intros Hsigma Hs Hs' Hturn.
  assert (Hlen : (length sp = 2 \/ length sp = 3)%nat) by (destruct Hsigma; lia).
  destruct (single_step_wide connected_components b c _ sp
              (data connected_components) Hlen (le_n _)
              (conj Hs (fun _ _ => eq_refl)))
    as (out & Hout & _ & Hdo).
  destruct (single_step_wide turned b c _ sp (data turned) Hlen (le_n _)
              (conj Hs' (fun _ _ => eq_refl)))
    as (out' & Hout' & _ & Hdo').
  exists out, out'. split; [assumption|]. split; [assumption|].
  intros idx Hin. rewrite (Hdo idx Hin), (Hdo' idx Hin).
  rewrite (single_step_pixel_ext (length sp)
             (fun k => data turned (insert_at 2 k idx))
             (fun k => data connected_components (insert_at 2 (sigma k) idx)) Hlen)
    by (intros k Hk _; now apply Hturn).
  symmetry.
  destruct Hsigma as [[-> Hsigma]|[-> Hsigma]].
  - exact (single_step_pixel_square sigma
             (fun k => data connected_components (insert_at 2 k idx)) Hsigma).
  - exact (single_step_pixel_cube sigma
             (fun k => data connected_components (insert_at 2 k idx)) Hsigma).
Qed.

Lemma single_step_lattice_symmetry_witness :
  exists out out',
    eikonal_single_step
      (mkTensor [1; 1; 9; 1; 1]%nat (fun idx => INR (nth 2 idx 0%nat))) = Ok out /\
    eikonal_single_step
      (mkTensor [1; 1; 9; 1; 1]%nat
         (fun idx => INR (quarter_turn (nth 2 idx 0%nat)))) = Ok out' /\
    data out [0; 0; 0; 0]%nat = data out' [0; 0; 0; 0]%nat.
Proof.
  destruct (single_step_lattice_symmetry
              (mkTensor [1; 1; 9; 1; 1]%nat (fun idx => INR (nth 2 idx 0%nat)))
              (mkTensor [1; 1; 9; 1; 1]%nat
                 (fun idx => INR (quarter_turn (nth 2 idx 0%nat))))
              quarter_turn 1 1 [1; 1]%nat
              (or_introl (conj eq_refl (or_introl eq_refl))) eq_refl eq_refl)
    as (out & out' & H1 & H2 & H).
  - intros idx k Hin Hk.
    destruct (in_range_split2 _ _ _ _ Hin) as (bi & ci & xs & -> & _).
    reflexivity.
  - exists out, out'. split; [exact H1|]. split; [exact H2|].
    apply H. repeat constructor.
Defined.

(** *** Too few entries per pixel *)

Lemma select2_out_of_range {A} (t : Tensor A) (b c K : nat) (sp : list nat)
  (k : nat) :
  shape t = b :: c :: K :: sp -> (K <= k)%nat -> select 2 k t = Raise IndexError.
Proof.
  intros Hs Hk. unfold select, ndim. rewrite Hs. cbn [nth length].
  replace (k <? K)%nat with false by (symmetry; apply Nat.ltb_ge; lia).
  now rewrite andb_false_r.
Qed.

Lemma pair_minimum_out_of_range (cc : Tensor R) (b c K : nat) (sp : list nat)
  (ind : list nat) (i lo hi : nat) :
  shape cc = b :: c :: K :: sp ->
  py_getitem ind (Z.of_nat i) = Ok lo ->
  py_getitem ind (- (Z.of_nat i + 1)) = Ok hi ->
  (K <= lo \/ K <= hi)%nat ->
  pair_minimum cc ind i = Raise IndexError.
Proof.
  intros Hs Hlo Hhi HK. unfold pair_minimum. rewrite Hlo. cbn [bind].
  destruct (Nat.le_gt_cases K lo) as [Hle|Hgt].
  - now rewrite (select2_out_of_range cc b c K sp lo Hs Hle).
  - destruct (select2_agrees cc b c K sp (data cc) lo (conj Hs (fun _ _ => eq_refl)) Hgt)
      as (x & -> & _).
    cbn [bind]. rewrite Hhi. cbn [bind].
    rewrite (select2_out_of_range cc b c K sp hi Hs) by lia. reflexivity.
Qed.

(** A class whose first pair names an entry the stack does not have. *)
Lemma class_update_out_of_range (cc phi : Tensor R) (b c K : nat) (sp : list nat)
  (ind : list nat) (f : R) (lo hi : nat) :
  shape cc = b :: c :: K :: sp ->
  (2 <= length ind)%nat ->
  py_getitem ind 0 = Ok lo ->
  py_getitem ind (-1) = Ok hi ->
  (K <= lo \/ K <= hi)%nat ->
  class_update cc phi (ind, f) = Raise IndexError.
Proof.
  intros Hs Hlen Hlo Hhi HK. unfold class_update.
  destruct (length ind / 2)%nat as [|n] eqn:Hn.
  - apply Nat.div_small_iff in Hn; lia.
  - cbn [seq mapM].
    rewrite (pair_minimum_out_of_range cc b c K sp ind 0 lo hi Hs Hlo Hhi HK).
    reflexivity.
Qed.

Lemma single_step_too_few_2d (cc : Tensor R) (b c K x y : nat) :
  shape cc = [b; c; K; x; y]%nat -> (K < 9)%nat ->
  eikonal_single_step cc = Raise IndexError.
Proof.
  intros Hs HK. pose proof (conj Hs (fun _ _ => eq_refl)
    : agrees cc [b; c; K; x; y]%nat (data cc)) as Hcc.
  unfold eikonal_single_step, ndim. rewrite Hs.
  cbn [length direction_tables Nat.eqb Nat.sub bind].
  destruct (Nat.eq_dec K 0) as [->|HK0].
  { now rewrite (select2_out_of_range cc b c 0 [x; y]%nat 0 Hs). }
  destruct (select2_agrees cc b c K [x; y]%nat (data cc) 0 Hcc) as (first & -> & [Hf _]);
    [lia|].
  cbn [bind]. cbn [factors_2d index_list_2d tl combine foldM].
  destruct (Nat.le_gt_cases K 7) as [H7|H7].
  { rewrite (class_update_out_of_range cc _ b c K [x; y]%nat _ _ 1 7 Hs);
      [reflexivity|cbn; lia|reflexivity|reflexivity|lia]. }
  assert (Hphi : agrees (ones_like first) [b; c; x; y]%nat (fun _ => 1))
    by (split; [exact Hf|reflexivity]).
  change (class_update cc (ones_like first) ([1; 3; 5; 7]%nat, 1))
    with (minima <- mapM (reference_pair_minimum cc) [(1, 7); (3, 5)]%nat ;;
          stacked <- stack 0 minima ;;
          u <- _apply_update stacked 1 ;;
          inplace2 Rmult (ones_like first) u).
  destruct (class_agrees cc _ b c K [x; y]%nat (data cc) _ 1 (1, 7)%nat [(3, 5)%nat]
              Hcc Hphi) as (acc1 & _ & -> & H1);
    [pairs_below|lra|discriminate|].
  cbn [bind].
  rewrite (class_update_out_of_range cc _ b c K [x; y]%nat _ _ 0 8 Hs);
    [reflexivity|cbn; lia|reflexivity|reflexivity|lia].
Qed.

Lemma single_step_too_few_3d (cc : Tensor R) (b c K x y z : nat) :
  shape cc = [b; c; K; x; y; z]%nat -> (K < 27)%nat ->
  eikonal_single_step cc = Raise IndexError.
Proof.
  intros Hs HK. pose proof (conj Hs (fun _ _ => eq_refl)
    : agrees cc [b; c; K; x; y; z]%nat (data cc)) as Hcc.
  unfold eikonal_single_step, ndim. rewrite Hs.
  cbn [length direction_tables Nat.eqb Nat.sub bind].
  destruct (Nat.eq_dec K 0) as [->|HK0].
  { now rewrite (select2_out_of_range cc b c 0 [x; y; z]%nat 0 Hs). }
  destruct (select2_agrees cc b c K [x; y; z]%nat (data cc) 0 Hcc)
    as (first & -> & [Hf _]); [lia|].
  cbn [bind]. cbn [factors_3d index_list_3d tl combine foldM].
  destruct (Nat.le_gt_cases K 22) as [H22|H22].
  { rewrite (class_update_out_of_range cc _ b c K [x; y; z]%nat _ _ 4 22 Hs);
      [reflexivity|cbn; lia|reflexivity|reflexivity|lia]. }
  assert (Hphi : agrees (ones_like first) [b; c; x; y; z]%nat (fun _ => 1))
    by (split; [exact Hf|reflexivity]).
  change (class_update cc (ones_like first) ([4; 10; 12; 14; 16; 22]%nat, 1))
    with (minima <- mapM (reference_pair_minimum cc)
                      [(4, 22); (10, 16); (12, 14)]%nat ;;
          stacked <- stack 0 minima ;;
          u <- _apply_update stacked 1 ;;
          inplace2 Rmult (ones_like first) u).
  destruct (class_agrees cc _ b c K [x; y; z]%nat (data cc) _ 1 (4, 22)%nat
              [(10, 16); (12, 14)]%nat Hcc Hphi) as (acc1 & _ & -> & H1);
    [pairs_below|lra|discriminate|].
  cbn [bind].
  destruct (Nat.le_gt_cases K 25) as [H25|H25].
  { rewrite (class_update_out_of_range cc _ b c K [x; y; z]%nat _ _ 1 25 Hs);
      [reflexivity|cbn; lia|reflexivity|reflexivity|lia]. }
  change (class_update cc acc1
            ([1; 3; 5; 7; 9; 11; 15; 17; 19; 21; 23; 25]%nat, sqrt 2))
    with (minima <- mapM (reference_pair_minimum cc)
                      [(1, 25); (3, 23); (5, 21); (7, 19); (9, 17); (11, 15)]%nat ;;
          stacked <- stack 0 minima ;;
          u <- _apply_update stacked (sqrt 2) ;;
          inplace2 Rmult acc1 u).
  destruct (class_agrees cc _ b c K [x; y; z]%nat (data cc) _ (sqrt 2) (1, 25)%nat
              [(3, 23); (5, 21); (7, 19); (9, 17); (11, 15)]%nat Hcc H1)
    as (acc2 & _ & -> & H2);
    [pairs_below|apply sqrt2_pos|discriminate|].
  cbn [bind].
  rewrite (class_update_out_of_range cc _ b c K [x; y; z]%nat _ _ 0 26 Hs);
    [reflexivity|cbn; lia|reflexivity|reflexivity|lia].
Qed.

(** X13: a stack of rank 5 with fewer than 9 entries per pixel, or of rank 6
    with fewer than 27, makes [eikonal_single_step] raise an IndexError: an
    index list names an entry the stack does not have. *)
Theorem single_step_too_few_entries (connected_components : Tensor R)
  (b c K : nat) (sp : list nat) :
  shape connected_components = b :: c :: K :: sp ->
  (length sp = 2 \/ length sp = 3)%nat ->
  (K < 3 ^ length sp)%nat ->
  eikonal_single_step connected_components = Raise IndexError.
Proof.
  intros Hs [Hlen|Hlen] HK.
  - destruct sp as [|x [|y [|? ?]]]; try discriminate Hlen.
    exact (single_step_too_few_2d connected_components b c K x y Hs HK).
  - destruct sp as [|x [|y [|z [|? ?]]]]; try discriminate Hlen.
    exact (single_step_too_few_3d connected_components b c K x y z Hs HK).
Qed.

Lemma single_step_too_few_entries_witness :
  eikonal_single_step (zeros 0 [1; 1; 8; 2; 2]%nat) = Raise IndexError.
Proof.
  apply (single_step_too_few_entries (zeros 0 [1; 1; 8; 2; 2]%nat) 1 1 8 [2; 2]%nat
           eq_refl (or_introl eq_refl)).
  cbn. lia.
Defined.

(** ** The gradient of a single 2D field *)

Ltac split_index idx H :=
  let L := fresh "Hlen" in
  pose proof (in_range_length _ _ H) as L;
  repeat (destruct idx as [|? idx]; [discriminate L|]);
  destruct idx; [|discriminate L]; clear L;
  repeat (apply in_range_cons in H; destruct H as [? H]).

(** The direction table the three loops fill in 2D: entry [k] holds the
    offsets [(k mod 3 - 1, k / 3 - 1)]. *)
Lemma fill_directions_2d_data :
  exists vd n,
    foldM (fill_direction 2) (direction_triples 2) (zeros 0%Z [9; 2]%nat, 0%nat)
    = Ok (vd, n) /\ shape vd = [9; 2]%nat /\
    forall k c, (k < 9)%nat -> (c < 2)%nat ->
      data vd [k; c]
      = if (c =? 0)%nat then (Z.of_nat (k mod 3) - 1)%Z else (Z.of_nat (k / 3) - 1)%Z.
Proof.
  eexists. eexists. split; [vm_compute; reflexivity|]. split; [reflexivity|].
  intros k c Hk Hc.
  do 9 (destruct k as [|k]; [destruct c as [|[|c]]; [reflexivity|reflexivity|lia]|]).
  lia.
Qed.

Lemma view_direction_table {A} (vd : Tensor A) :
  shape vd = [9; 2]%nat ->
  exists v, view [1; 1; 9; 2; 1; 1]%nat vd = Ok v /\
    shape v = [1; 1; 9; 2; 1; 1]%nat /\
    forall k c, (k < 9)%nat -> (c < 2)%nat ->
      data v [0; 0; k; c; 0; 0]%nat = data vd [k; c].
Proof.
  intros Hs. unfold view. rewrite Hs.
  change (numel [1; 1; 9; 2; 1; 1]%nat =? numel [9; 2]%nat)%nat with true.
  eexists. split; [reflexivity|]. split; [reflexivity|].
  intros k c Hk Hc. cbn [data].
  do 9 (destruct k as [|k]; [destruct c as [|[|c]]; [reflexivity|reflexivity|lia]|]).
  lia.
Qed.

Lemma view_magnitude_table {A} (vm : Tensor A) :
  shape vm = [9]%nat ->
  exists v, view [1; 1; 9; 1; 1; 1]%nat vm = Ok v /\
    shape v = [1; 1; 9; 1; 1; 1]%nat /\
    forall k, (k < 9)%nat -> data v [0; 0; k; 0; 0; 0]%nat = data vm [k].
Proof.
  intros Hs. unfold view. rewrite Hs.
  change (numel [1; 1; 9; 1; 1; 1]%nat =? numel [9]%nat)%nat with true.
  eexists. split; [reflexivity|]. split; [reflexivity|].
  intros k Hk. cbn [data].
  do 9 (destruct k as [|k]; [reflexivity|]). lia.
Qed.

(** Line 225 on a single field: the field is subtracted from each of its
    nine sampled neighbours. *)
Lemma inplace_sub_field (nb e : Tensor R) (x y : nat) :
  shape nb = [1; 1; 9; x; y]%nat -> shape e = [1; 1; x; y]%nat ->
  exists a, inplace2 Rminus nb e = Ok a /\
    agrees a [1; 1; 9; x; y]%nat
      (fun idx => data nb idx - data e (remove_at 2 idx)).
Proof.
  intros Hsnb Hs. unfold inplace2. rewrite Hsnb, Hs.
  assert (E1 : broadcast_shapes [1; 1; 9; x; y]%nat [1; 1; x; y]%nat
               = Some [1; 1; 9; x; y]%nat).
  { unfold broadcast_shapes, pad_shape. cbn [length Nat.max Nat.sub repeat app].
    cbn [broadcast_dims]. now rewrite !broadcast_dim_refl, broadcast_dim_1_r. }
  rewrite E1, shape_eqb_refl.
  eexists. split; [reflexivity|]. split; [reflexivity|].
  intros idx Hin. cbn [data]. rewrite (bidx_in_range _ _ Hin).
  split_index idx Hin. f_equal. f_equal.
  unfold bidx, remove_at. cbn [length Nat.sub skipn firstn app expand_index Nat.eqb].
  destruct (Nat.eqb_spec x 1); destruct (Nat.eqb_spec y 1);
    repeat f_equal; lia.
Qed.

(** Lines 226-227: the differences, once per gradient component. *)
Lemma unsqueeze_concat (t : Tensor R) (x y : nat) (g : index -> R) :
  agrees t [1; 1; 9; x; y]%nat g ->
  exists u d, unsqueeze 3 t = Ok u /\ concat2 3 u u = Ok d /\
    agrees d [1; 1; 9; 2; x; y]%nat (fun idx => g (remove_at 3 idx)).
Proof.
  intros [Hs Hd]. unfold unsqueeze, ndim. rewrite Hs. cbn [length Nat.leb].
  eexists. eexists. split; [reflexivity|].
  unfold concat2, ndim. cbn [shape insert_at firstn skipn app length].
  rewrite shape_eqb_refl, Nat.eqb_refl.
  cbn [Nat.ltb Nat.leb andb nth set_at firstn skipn app Nat.add].
  split; [reflexivity|]. split; [reflexivity|].
  intros idx Hin. split_index idx Hin. cbn [data nth].
  assert (Hr : in_range [1; 1; 9; x; y]%nat [n; n0; n1; n3; n4]).
  { repeat (apply in_range_cons; split; [assumption|]). assumption. }
  destruct (n2 <=? 0)%nat; cbn [remove_at set_at firstn skipn app]; now apply Hd.
Qed.

(** A stack of shape (1, 1, 9, 2, X, Y) against a table of shape
    (1, 1, 9, m, 1, 1). *)
Lemma broadcast2_table {A B C} (f : A -> B -> C) (t1 : Tensor A) (t2 : Tensor B)
  (x y m : nat) (g1 : index -> A) :
  agrees t1 [1; 1; 9; 2; x; y]%nat g1 ->
  shape t2 = [1; 1; 9; m; 1; 1]%nat ->
  (m = 1 \/ m = 2)%nat ->
  exists t, broadcast2 f t1 t2 = Ok t /\
    agrees t [1; 1; 9; 2; x; y]%nat
      (fun idx => f (g1 idx)
                    (data t2 [0; 0; nth 2 idx 0; if (m =? 1) then 0 else nth 3 idx 0;
                              0; 0]%nat)).
Proof.
  intros [Hs1 Hd1] Hs2 Hm. unfold broadcast2. rewrite Hs1, Hs2.
  assert (E : broadcast_shapes [1; 1; 9; 2; x; y]%nat [1; 1; 9; m; 1; 1]%nat
              = Some [1; 1; 9; 2; x; y]%nat).
  { unfold broadcast_shapes, pad_shape.
    cbn [length Nat.max Nat.sub repeat app]. cbn [broadcast_dims].
    rewrite !broadcast_dim_refl, !broadcast_dim_1_r.
    destruct Hm as [->| ->]; reflexivity. }
  rewrite E. eexists. split; [reflexivity|]. split; [reflexivity|].
  intros idx Hin. cbn [data]. rewrite (bidx_in_range _ _ Hin).
  rewrite (Hd1 idx Hin). f_equal.
  split_index idx Hin. reflexivity.
Qed.

Lemma flip2_agrees {A} (t : Tensor A) (x y : nat) (g : index -> A) :
  agrees t [1; 1; 2; x; y]%nat g ->
  exists r, flip 2 t = Ok r /\
    agrees r [1; 1; 2; x; y]%nat
      (fun idx => g (set_at 2 (1 - nth 2 idx 0)%nat idx)).
Proof.
  intros [Hs Hd]. unfold flip, ndim. rewrite Hs. cbn [length Nat.ltb Nat.leb].
  eexists. split; [reflexivity|]. split; [reflexivity|].
  intros idx Hin. cbn [data]. apply Hd.
  split_index idx Hin. cbn [nth set_at firstn skipn app].
  repeat (apply in_range_cons; split; [assumption || lia|]). assumption.
Qed.

Lemma Reqb_true (x y : R) : x = y -> Reqb x y = true.
Proof. intros H. unfold Reqb. destruct (Req_dec_T x y); [reflexivity|contradiction]. Qed.

Lemma Reqb_false (x y : R) : x <> y -> Reqb x y = false.
Proof. intros H. unfold Reqb. destruct (Req_dec_T x y); [contradiction|reflexivity]. Qed.

Lemma gradient_divisor_centre (x : R) : ediv x (gradient_divisor 0) = 0.
Proof.
  unfold gradient_divisor.
  rewrite Rneb_false by reflexivity. rewrite Reqb_true by reflexivity. reflexivity.
Qed.

Lemma gradient_divisor_axis (x : R) : ediv x (gradient_divisor 1) = x / 4.
Proof.
  unfold gradient_divisor.
  rewrite Rneb_true by lra. rewrite sqrt_1. rewrite Reqb_false by lra.
  cbn [escale esquare ediv]. f_equal. lra.
Qed.

Lemma gradient_divisor_diagonal (x : R) : ediv x (gradient_divisor 2) = x / 8.
Proof.
  unfold gradient_divisor.
  rewrite Rneb_true by lra. pose proof sqrt2_pos.
  rewrite Reqb_false by lra. cbn [escale esquare ediv]. f_equal.
  replace ((2 * sqrt 2) ^ 2) with (4 * (sqrt 2 * sqrt 2)) by ring.
  rewrite sqrt_sqrt by lra. lra.
Qed.

(** The gradient of a single 2D field at a pixel, from the nine sampled
    neighbours [N 0 .. N 8] of the pixel: component 0 weighs the rows of the
    neighbourhood, component 1 its columns, an axis neighbour by 1/4 and a
    diagonal one by 1/8. *)
Lemma gradient_2d_pixel (bc : Tensor R -> result (Tensor R)) (eikonal nb : Tensor R)
  (x y : nat) :
  shape eikonal = [1; 1; x; y]%nat ->
  bc eikonal = Ok nb ->
  shape nb = [1; 1; 9; x; y]%nat ->
  exists g,
    gradient_from_eikonal bc eikonal = Ok g /\
    agrees g [1; 1; 2; x; y]%nat
      (fun idx =>
         let N := fun k => data nb (insert_at 2 k (remove_at 2 idx)) in
         if (nth 2 idx 0 =? 0)%nat
         then (N 7%nat - N 1%nat) / 4 + (N 6%nat + N 8%nat - N 0%nat - N 2%nat) / 8
         else (N 5%nat - N 3%nat) / 4 + (N 2%nat + N 8%nat - N 0%nat - N 6%nat) / 8).
Proof.
  intros Hs Hnb Hsnb. unfold gradient_from_eikonal, ndim. rewrite Hs.
  change (Z.of_nat (length [1; 1; x; y]%nat) - 2)%Z with 2%Z.
  change ((2 <? 2) || (2 >? 3))%Z with false. cbv iota.
  change (Z.to_nat 2) with 2%nat. change (3 ^ 2)%nat with 9%nat.
  destruct fill_directions_2d_data as (vd & n & -> & Hvd & Hdir). cbn [bind fst].
  unfold reduce_dim at 1. unfold ndim. cbn [tmap shape]. rewrite Hvd.
  cbn [length Nat.ltb Nat.leb bind].
  change (2 =? 2)%Z with true. cbv iota.
  match goal with |- context [view [1; 1; 9; 1; 1; 1]%nat ?vm] =>
    destruct (view_magnitude_table vm eq_refl) as (vmv & -> & Hsvm & Hvmv)
  end.
  cbn [bind].
  destruct (view_direction_table vd Hvd) as (vdv & -> & Hsvd & Hvdv). cbn [bind].
  rewrite Hnb. cbn [bind].
  destruct (inplace_sub_field nb eikonal x y Hsnb Hs) as (a & -> & Ha). cbn [bind].
  destruct (unsqueeze_concat a x y _ Ha) as (u & d & -> & Hcat & Hd). cbn [bind].
  rewrite Hcat. cbn [bind].
  destruct (broadcast2_table (fun (v : R) (z : Z) => v * IZR z) d vdv x y 2 _
              Hd Hsvd (or_intror eq_refl)) as (g1 & -> & Hg1).
  cbn [bind].
  match goal with |- context [broadcast2 ediv g1 ?tbl] =>
    destruct (broadcast2_table ediv g1 tbl x y 1 _ Hg1 Hsvm (or_introl eq_refl))
      as (g2 & -> & Hg2)
  end.
  cbn [bind]. unfold sum_dim.
  destruct (reduce_dim2_agrees Rplus 0 g2 1 1 9 [2; x; y]%nat _ Hg2)
    as (g3 & -> & Hg3).
  cbn [bind].
  destruct (flip2_agrees g3 x y _ Hg3) as (g4 & -> & Hg4).
  eexists. split; [reflexivity|].
  eapply agrees_ext; [exact Hg4|].
  intros idx Hin. split_index idx Hin.
  assert (n0 = 0%nat) by lia. assert (n1 = 0%nat) by lia. subst n0 n1.
  assert (Hmag : forall k v, (k < 9)%nat ->
            ediv v (data (tmap (fun m : ereal => esquare (escale 2 m))
                            (tmap (fun x : R => if Reqb x 0 then Infinity else Finite x)
                               vmv))
                      [0; 0; k; 0; 0; 0]%nat)
            = ediv v (gradient_divisor
                        (Z.abs (Z.of_nat (k mod 3) - 1)
                         + (Z.abs (Z.of_nat (k / 3) - 1) + 0)))).
  { intros k v Hk. cbn [data tmap]. rewrite (Hvmv k Hk).
    cbn [data tmap]. unfold fibre. cbn [shape tmap]. rewrite Hvd.
    cbn [data tmap nth seq map insert_at firstn skipn app fold_right].
    rewrite !Hdir by lia. reflexivity. }
  destruct n2 as [|[|n2]]; [| |lia];
    cbn [nth set_at insert_at remove_at firstn skipn app seq map fold_right
         Nat.sub Nat.eqb];
    rewrite !Hmag by lia; rewrite !Hvdv by lia; rewrite !Hdir by lia;
    cbn [Nat.eqb Nat.modulo Nat.div Nat.divmod fst snd Nat.sub Z.of_nat
         Pos.of_succ_nat Pos.succ Z.sub Z.add Z.opp Z.pos_sub Z.abs
         Pos.pred_double Z.succ_double Z.pred_double Z.double];
    change (Z.pos (1 + 1)) with 2%Z;
    rewrite !gradient_divisor_centre, !gradient_divisor_axis,
      !gradient_divisor_diagonal; lra.
Qed.

(** X14: for a single 2D field (batch 1, channel 1) the gradient at a pixel
    is a fixed stencil on the nine entries [N 0 .. N 8] that the sampler
    returned for the pixel: component 0 is
    [(N 7 - N 1) / 4 + (N 6 + N 8 - N 0 - N 2) / 8], entries 6, 7, 8 against
    entries 0, 1, 2, and component 1 is
    [(N 5 - N 3) / 4 + (N 2 + N 8 - N 0 - N 6) / 8], entries 2, 5, 8 against
    entries 0, 3, 6.  The centre entry [N 4] and the value of the field at
    the pixel do not occur. *)
Theorem gradient_2d_stencil (binary_convolution : Tensor R -> result (Tensor R))
  (eikonal nb : Tensor R) (x y i j : nat) :
  shape eikonal = [1; 1; x; y]%nat ->
  binary_convolution eikonal = Ok nb ->
  shape nb = [1; 1; 9; x; y]%nat ->
  (i < x)%nat -> (j < y)%nat ->
  let N := fun k => data nb [0; 0; k; i; j]%nat in
  exists g,
    gradient_from_eikonal binary_convolution eikonal = Ok g /\
    shape g = [1; 1; 2; x; y]%nat /\
    data g [0; 0; 0; i; j]%nat
    = (N 7%nat - N 1%nat) / 4 + (N 6%nat + N 8%nat - N 0%nat - N 2%nat) / 8 /\
    data g [0; 0; 1; i; j]%nat
    = (N 5%nat - N 3%nat) / 4 + (N 2%nat + N 8%nat - N 0%nat - N 6%nat) / 8.
Proof.
  intros Hs Hnb Hsnb Hi Hj N.
  destruct (gradient_2d_pixel binary_convolution eikonal nb x y Hs Hnb Hsnb)
    as (g & Hg & Hsg & Hdg).
  exists g. split; [assumption|]. split; [assumption|].
  split; (rewrite Hdg; [reflexivity|]);
    repeat (apply in_range_cons; split; [lia|]); constructor.
Qed.

Ltac evaluate_shift :=
  repeat match goal with
  | |- context [shift_index ?d ?x ?k] =>
      let v := eval vm_compute in (shift_index d x k) in
      change (shift_index d x k) with v
  end.

Lemma gradient_2d_stencil_witness :
  exists g,
    gradient_from_eikonal binary_convolution_replicate
      (mkTensor [1; 1; 3; 3]%nat (fun idx => INR (nth 2 idx 0%nat))) = Ok g /\
    data g [0; 0; 0; 1; 1]%nat = 1.
Proof.
  destruct (binary_convolution_replicate_shape
              (mkTensor [1; 1; 3; 3]%nat (fun idx => INR (nth 2 idx 0%nat)))
              1 1 [3; 3]%nat eq_refl) as (nb & Hnb & Hs & Hd).
  destruct (gradient_2d_stencil binary_convolution_replicate
              (mkTensor [1; 1; 3; 3]%nat (fun idx => INR (nth 2 idx 0%nat)))
              nb 3 3 1 1 eq_refl Hnb Hs ltac:(lia) ltac:(lia))
    as (g & Hg & _ & H0 & _).
  exists g. split; [exact Hg|]. rewrite H0, !Hd. evaluate_shift.
  cbn [data nth INR]. lra.
Defined.

(** X15: the 2D gradient is exact on ramps: at a pixel whose nine sampled
    neighbours are the values [e + a * dr + b * dc] of an affine field at the
    row offsets [dr] and column offsets [dc] in {-1, 0, 1}, the gradient of a
    single field is [(a, b)]; in particular it vanishes where the
    neighbourhood is flat. *)
Theorem gradient_2d_exact_on_ramps
  (binary_convolution : Tensor R -> result (Tensor R))
  (eikonal nb : Tensor R) (x y i j : nat) (e a b : R) :
  shape eikonal = [1; 1; x; y]%nat ->
  binary_convolution eikonal = Ok nb ->
  shape nb = [1; 1; 9; x; y]%nat ->
  (i < x)%nat -> (j < y)%nat ->
  (forall k, (k < 9)%nat ->
     data nb [0; 0; k; i; j]%nat
     = e + a * (INR (k / 3) - 1) + b * (INR (k mod 3) - 1)) ->
  exists g,
    gradient_from_eikonal binary_convolution eikonal = Ok g /\
    data g [0; 0; 0; i; j]%nat = a /\
    data g [0; 0; 1; i; j]%nat = b.
Proof.
  intros Hs Hnb Hsnb Hi Hj Hramp.
  destruct (gradient_2d_pixel binary_convolution eikonal nb x y Hs Hnb Hsnb)
    as (g & Hg & Hsg & Hdg).
  exists g. split; [assumption|].
  split; (rewrite Hdg; [|repeat (apply in_range_cons; split; [lia|]); constructor]);
    cbn [nth Nat.eqb remove_at insert_at firstn skipn app];
    rewrite !Hramp by lia;
    cbn [Nat.div Nat.modulo Nat.divmod fst snd Nat.sub INR]; lra.
Qed.

Lemma gradient_2d_exact_on_ramps_witness :
  exists g,
    gradient_from_eikonal binary_convolution_replicate
      (mkTensor [1; 1; 3; 3]%nat
         (fun idx => 2 * INR (nth 2 idx 0%nat) + 3 * INR (nth 3 idx 0%nat))) = Ok g /\
    data g [0; 0; 0; 1; 1]%nat = 2 /\
    data g [0; 0; 1; 1; 1]%nat = 3.
Proof.
  destruct (binary_convolution_replicate_shape
              (mkTensor [1; 1; 3; 3]%nat
                 (fun idx => 2 * INR (nth 2 idx 0%nat) + 3 * INR (nth 3 idx 0%nat)))
              1 1 [3; 3]%nat eq_refl) as (nb & Hnb & Hs & Hd).
  apply (gradient_2d_exact_on_ramps binary_convolution_replicate
           (mkTensor [1; 1; 3; 3]%nat
              (fun idx => 2 * INR (nth 2 idx 0%nat) + 3 * INR (nth 3 idx 0%nat)))
           nb 3 3 1 1 5 2 3 eq_refl Hnb Hs); [lia|lia|].
  intros k Hk. rewrite Hd.
  do 9 (destruct k as [|k];
        [evaluate_shift;
         cbn [data nth INR Nat.div Nat.modulo Nat.divmod fst snd Nat.sub]; lra|]).
  lia.
Defined.

(** *** Batches and channels *)

Lemma sub_broadcast (b c x y : nat) :
  broadcast_shapes [b; c; 9; x; y]%nat [b; c; x; y]%nat
  = match broadcast_dim c b, broadcast_dim 9 c with
    | Some c', Some k => Some [b; c'; k; x; y]%nat
    | _, _ => None
    end.
Proof.
  unfold broadcast_shapes, pad_shape. cbn [length Nat.max Nat.sub repeat app].
  cbn [broadcast_dims]. rewrite broadcast_dim_1_r, !broadcast_dim_refl.
  destruct (broadcast_dim c b), (broadcast_dim 9 c); reflexivity.
Qed.

(** Line 225 on a batch: the stack (B, C, 9, X, Y) minus the field
    (B, C, X, Y), aligned at the last axis, in place. *)
Lemma inplace_sub_cases (nb e : Tensor R) (b c x y : nat) :
  shape nb = [b; c; 9; x; y]%nat -> shape e = [b; c; x; y]%nat ->
  ((c = 1 \/ c = 9)%nat /\ (b = c \/ b = 1)%nat ->
     exists a, inplace2 Rminus nb e = Ok a /\ shape a = [b; c; 9; x; y]%nat) /\
  (~ ((c = 1 \/ c = 9)%nat /\ (b = c \/ b = 1)%nat) ->
     inplace2 Rminus nb e = Raise ShapeError).
Proof.
  intros Hsnb Hs. unfold inplace2. rewrite Hsnb, Hs, sub_broadcast.
  unfold broadcast_dim. split.
  - intros [Hc Hb].
    assert (E9 : ((9 =? c) || (c =? 1))%nat = true).
    { destruct Hc as [->| ->]; reflexivity. }
    assert (Ec : (if (c =? b)%nat then Some c
                  else if (c =? 1)%nat then Some b
                  else if (b =? 1)%nat then Some c else None) = Some c).
    { destruct (Nat.eqb_spec c b); [reflexivity|].
      destruct (Nat.eqb_spec c 1); [f_equal; lia|].
      destruct (Nat.eqb_spec b 1); [reflexivity|lia]. }
    rewrite Ec. apply orb_true_iff in E9.
    assert (E9' : (if (9 =? c)%nat then Some 9%nat
                   else if (9 =? 1)%nat then Some c
                   else if (c =? 1)%nat then Some 9%nat else None) = Some 9%nat).
    { destruct E9 as [-> | E]; [reflexivity|]. rewrite E.
      destruct (9 =? c)%nat; reflexivity. }
    rewrite E9', shape_eqb_refl. eexists. split; reflexivity.
  - intros Hbad.
    destruct (Nat.eqb_spec c b) as [Hcb|Hcb].
    + destruct (Nat.eqb_spec 9 c) as [H9|H9]; [exfalso; apply Hbad; lia|].
      cbn [Nat.eqb]. destruct (Nat.eqb_spec c 1) as [H1|H1];
        [exfalso; apply Hbad; lia|reflexivity].
    + destruct (Nat.eqb_spec c 1) as [H1|H1].
      * subst c. cbn [Nat.eqb shape_eqb].
        destruct (Nat.eqb_spec b 1) as [Hb1|Hb1]; [exfalso; apply Hbad; lia|].
        now rewrite Nat.eqb_refl, andb_false_r.
      * destruct (Nat.eqb_spec b 1) as [Hb1|Hb1]; [|reflexivity].
        destruct (Nat.eqb_spec 9 c) as [H9|H9]; [exfalso; apply Hbad; lia|].
        reflexivity.
Qed.

(** The statements of [gradient_from_eikonal] on a 2D input up to the call of
    the sampler: the tables are built and viewed. *)
Ltac gradient_2d_tables Hs Hnb :=
  unfold gradient_from_eikonal, ndim; rewrite Hs;
  match goal with
  | |- context [(Z.of_nat (length ?l) - 2)%Z] =>
      change (Z.of_nat (length l) - 2)%Z with 2%Z
  end;
  change ((2 <? 2) || (2 >? 3))%Z with false; cbv iota;
  change (Z.to_nat 2) with 2%nat; change (3 ^ 2)%nat with 9%nat;
  let vd := fresh "vd" in
  let n := fresh "n" in
  let Hvd := fresh "Hvd" in
  destruct fill_directions_2d as (vd & n & -> & Hvd); cbn [bind fst];
  unfold reduce_dim at 1; unfold ndim; cbn [tmap shape]; rewrite Hvd;
  cbn [length Nat.ltb Nat.leb bind];
  change (2 =? 2)%Z with true; cbv iota;
  unfold view at 1; cbn [shape tmap remove_at firstn skipn app];
  change (numel [1; 1; 9; 1; 1; 1]%nat =? numel [9]%nat)%nat with true;
  cbv iota; cbn [bind];
  unfold view at 1; rewrite Hvd;
  change (numel [1; 1; 9; 2; 1; 1]%nat =? numel [9; 2]%nat)%nat with true;
  cbv iota; cbn [bind]; rewrite Hnb; cbn [bind].

(** X16: on a 2D input of shape (B, C, X, Y) [gradient_from_eikonal] returns
    exactly when the in-place subtraction of line 225 can broadcast the field
    against its neighbour stack without growing the stack, that is when C is
    1 or 9 and B is C or 1: for (B, C) = (1, 1), (1, 9) and (9, 9).  It then
    returns shape (B, C, 2, X, Y); every other batch or channel size raises a
    shape error. *)
Theorem gradient_2d_batch_and_channel
  (binary_convolution : Tensor R -> result (Tensor R))
  (eikonal nb : Tensor R) (b c x y : nat) :
  shape eikonal = [b; c; x; y]%nat ->
  binary_convolution eikonal = Ok nb ->
  shape nb = [b; c; 9; x; y]%nat ->
  ((c = 1 \/ c = 9)%nat /\ (b = c \/ b = 1)%nat ->
     exists g, gradient_from_eikonal binary_convolution eikonal = Ok g /\
               shape g = [b; c; 2; x; y]%nat) /\
  (~ ((c = 1 \/ c = 9)%nat /\ (b = c \/ b = 1)%nat) ->
     gradient_from_eikonal binary_convolution eikonal = Raise ShapeError).
Proof.
  intros Hs Hnb Hsnb.
  destruct (inplace_sub_cases nb eikonal b c x y Hsnb Hs) as [Hgood Hbad].
  split; intros H; gradient_2d_tables Hs Hnb.
  - destruct (Hgood H) as (a & -> & Ha). cbn [bind].
    unfold unsqueeze, ndim. rewrite Ha. cbn [length Nat.leb bind].
    unfold concat2, ndim. cbn [shape insert_at firstn skipn app length].
    rewrite shape_eqb_refl, Nat.eqb_refl. cbn [Nat.ltb Nat.leb andb bind nth set_at
      firstn skipn app Nat.add].
    assert (E2 : forall m, broadcast_shapes [b; c; 9; 2; x; y]%nat
                             [1; 1; 9; m; 1; 1]%nat
                 = match broadcast_dim 2 m with
                   | Some k => Some [b; c; 9; k; x; y]%nat
                   | None => None
                   end).
    { intros m. unfold broadcast_shapes, pad_shape.
      cbn [length Nat.max Nat.sub repeat app]. cbn [broadcast_dims].
      rewrite !broadcast_dim_refl, !broadcast_dim_1_r.
      destruct (broadcast_dim 2 m); reflexivity. }
    unfold broadcast2 at 1. cbn [shape].
    rewrite (E2 2%nat). cbn [broadcast_dim Nat.eqb bind].
    unfold broadcast2 at 1. cbn [shape tmap].
    rewrite (E2 1%nat). cbn [broadcast_dim Nat.eqb bind].
    unfold sum_dim, reduce_dim, ndim. cbn [shape length Nat.ltb Nat.leb bind].
    unfold flip, ndim. cbn [shape remove_at firstn skipn app length Nat.ltb Nat.leb].
    eexists. split; reflexivity.
  - rewrite (Hbad H). reflexivity.
Qed.

Lemma gradient_2d_batch_and_channel_witness :
  (exists g,
     gradient_from_eikonal binary_convolution_replicate (zeros 0 [1; 9; 2; 2]%nat)
     = Ok g /\ shape g = [1; 9; 2; 2; 2]%nat) /\
  gradient_from_eikonal binary_convolution_replicate (zeros 0 [3; 1; 2; 2]%nat)
  = Raise ShapeError.
Proof.
  destruct (binary_convolution_replicate_shape (zeros 0 [1; 9; 2; 2]%nat)
              1 9 [2; 2]%nat eq_refl) as (nb & Hnb & Hs & _).
  destruct (binary_convolution_replicate_shape (zeros 0 [3; 1; 2; 2]%nat)
              3 1 [2; 2]%nat eq_refl) as (nb' & Hnb' & Hs' & _).
  split.
  - apply (gradient_2d_batch_and_channel binary_convolution_replicate
             (zeros 0 [1; 9; 2; 2]%nat) nb 1 9 2 2 eq_refl Hnb Hs). lia.
  - apply (gradient_2d_batch_and_channel binary_convolution_replicate
             (zeros 0 [3; 1; 2; 2]%nat) nb' 3 1 2 2 eq_refl Hnb' Hs'). lia.
Defined.

(** ** The sign of the field *)

Lemma Rsum_squares_le (l : list R) :
  (forall x, In x l -> 0 <= x) ->
  Rsum (map (fun x => x ^ 2) l) <= Rsum l ^ 2.
Proof.
  induction l as [|a l IH]; intros H.
  - simpl. lra.
  - assert (Ha : 0 <= a) by (apply H; now left).
    assert (Hl : forall x, In x l -> 0 <= x) by (intros x Hx; apply H; now right).
    pose proof (IH Hl) as IH'. pose proof (Rsum_nonneg l Hl) as Hs.
    cbn [map Rsum fold_right]. unfold Rsum in *. nra.
Qed.

(** The reduction of a class is positive when no pair minimum is negative. *)
Lemma pixel_reduce_pos (n f : R) (vals : list R) :
  0 < n -> 0 < f -> (forall v, In v vals -> 0 <= v) ->
  0 < pixel_reduce n f vals.
Proof.
  intros Hn Hf Hv. unfold pixel_reduce. cbv zeta.
  pose proof (Rsum_nonneg vals Hv) as HS.
  pose proof (Rsum_squares_le vals Hv) as HQ.
  assert (HQ0 : 0 <= Rsum (map (fun x => x ^ 2) vals)).
  { apply Rsum_nonneg. intros x Hx. apply in_map_iff in Hx as (y & <- & _).
    apply pow2_ge_0. }
  set (S := Rsum vals) in *. set (Q := Rsum (map (fun x => x ^ 2) vals)) in *.
  pose proof (sqrt_pos (Rmax 0 (S ^ 2 - n * (Q - f ^ 2)))) as Hr.
  apply Rdiv_lt_0_compat; [|assumption].
  destruct (Rle_lt_or_eq_dec 0 S HS) as [Hpos|Hzero]; [lra|].
  assert (HS2 : S ^ 2 = 0) by (rewrite <- Hzero; ring).
  assert (HQz : Q = 0) by lra.
  assert (HD : 0 < S ^ 2 - n * (Q - f ^ 2)).
  { rewrite HS2, HQz. replace (0 - n * (0 - f ^ 2)) with (n * f ^ 2) by ring.
    apply Rmult_lt_0_compat; [assumption|apply pow_lt; assumption]. }
  rewrite Rmax_right by lra.
  pose proof (sqrt_lt_R0 _ HD). lra.
Qed.

Lemma single_step_pixel_pos (d : nat) (nb : nat -> R) :
  (d = 2 \/ d = 3)%nat ->
  (forall k, (k < 3 ^ d)%nat -> 0 <= nb k) ->
  0 < single_step_pixel d nb.
Proof.
  intros [->| ->] H; unfold single_step_pixel.
  - change (3 ^ 2)%nat with 9%nat in H. rewrite direction_classes_2d.
    cbn [fold_left fst snd]. pose proof sqrt2_pos.
    apply sqrt_lt_R0.
    apply Rmult_lt_0_compat; [apply Rmult_lt_0_compat; [lra|]|];
      (apply pixel_reduce_pos; [cbn [INR]; lra|lra|]);
      cbn [pair_minima map fst snd]; intros v Hv; cbn [In] in Hv;
      repeat (destruct Hv as [<-|Hv]; [apply Rmin_glb; apply H; lia|]);
      destruct Hv.
  - change (3 ^ 3)%nat with 27%nat in H. rewrite direction_classes_3d.
    cbn [fold_left fst snd]. pose proof sqrt2_pos. pose proof sqrt3_pos.
    apply sqrt_lt_R0.
    apply Rmult_lt_0_compat;
      [apply Rmult_lt_0_compat; [apply Rmult_lt_0_compat; [lra|]|]|];
      (apply pixel_reduce_pos; [cbn [INR]; lra|lra|]);
      cbn [pair_minima map fst snd]; intros v Hv; cbn [In] in Hv;
      repeat (destruct Hv as [<-|Hv]; [apply Rmin_glb; apply H; lia|]);
      destruct Hv.
Qed.

Lemma Rsum_pos (l : list R) (x : R) :
  (forall v, In v l -> 0 <= v) -> In x l -> 0 < x -> 0 < Rsum l.
Proof.
  induction l as [|a l IH]; intros H Hin Hx; [destruct Hin|].
  assert (Ha : 0 <= a) by (apply H; now left).
  assert (Hl : forall v, In v l -> 0 <= v) by (intros v Hv; apply H; now right).
  pose proof (Rsum_nonneg l Hl) as Hs. cbn [Rsum fold_right]. unfold Rsum in *.
  destruct Hin as [->|Hin]; [lra|].
  pose proof (IH Hl Hin Hx). lra.
Qed.

Lemma mul_bool_nonneg (x : R) (v : bool) : 0 <= x -> 0 <= mul_bool x v.
Proof. intros Hx. unfold mul_bool. destruct v; simpl; lra. Qed.

Lemma centre_below (d : nat) : (d = 2 \/ d = 3)%nat -> (3 ^ d / 2 < 3 ^ d)%nat.
Proof. intros [->| ->]; cbn; lia. Qed.

Section Sign.

Variable bc : Tensor R -> result (Tensor R).
Hypothesis bc_spec : sampler_spec bc.
Hypothesis bc_reads : sampler_reads_field bc.
Hypothesis bc_centre : sampler_centre bc.

Variables (mask : Tensor R) (b c : nat) (sp : list nat).
Hypothesis mask_shape : shape mask = b :: c :: sp.
Hypothesis rank : (length sp = 2 \/ length sp = 3)%nat.

Variable aff : Tensor bool.
Hypothesis aff_ok : make_affinity_mask bc mask = Ok aff.

Lemma sampled_nonneg (T nb : Tensor R) :
  nonnegative T -> bc T = Ok nb -> nonnegative nb.
Proof.
  intros HT Hnb idx Hin.
  destruct (bc_reads T nb Hnb idx Hin) as (idx' & Hin' & ->). now apply HT.
Qed.

(** The centre direction of a foreground pixel is affine. *)
Lemma aff_centre (idx : index) :
  in_range (b :: c :: sp) idx -> 0 < data mask idx ->
  data aff (insert_at 2 (3 ^ length sp / 2)%nat idx) = true.
Proof.
  intros Hin Hpos.
  destruct (sampler_spec_stack bc mask b c sp bc_spec rank mask_shape)
    as (nb & Hnb & Hsnb).
  destruct (make_affinity_mask_agrees bc mask nb b c _ sp mask_shape Hnb Hsnb)
    as (aff' & Haff & _ & Hd).
  rewrite aff_ok in Haff. injection Haff as <-.
  rewrite Hd by (apply in_range_insert2; [assumption|now apply centre_below]).
  rewrite remove_insert2 by (rewrite (in_range_length _ _ Hin); simpl; lia).
  rewrite (bc_centre mask nb b c sp mask_shape rank Hnb idx Hin).
  rewrite Rneb_false by reflexivity. apply Rgtb_true. lra.
Qed.

Lemma update_pass_sign (T : Tensor R) :
  shape T = b :: c :: sp -> nonnegative T ->
  exists T1, update_pass bc aff (gt0 mask) T = Ok T1 /\
             shape T1 = b :: c :: sp /\ nonnegative T1 /\ positive_inside mask T1.
Proof.
  intros HsT HT.
  destruct (update_pass_spec bc bc_spec b c sp rank aff (gt0 mask) _ _
              (aff_agrees_self bc bc_spec mask b c sp mask_shape rank aff aff_ok)
              (sem_agrees mask b c sp mask_shape) T HsT)
    as (nb & T1 & Hnb & Hsnb & HT1 & [HsT1 Hd]).
  pose proof (sampled_nonneg T nb HT Hnb) as Hnn.
  assert (Hstep : forall idx, in_range (b :: c :: sp) idx ->
            0 < single_step_pixel (length sp)
                  (fun k => mul_bool (data nb (insert_at 2 k idx))
                                     (data aff (insert_at 2 k idx)))).
  { intros idx Hin. apply single_step_pixel_pos; [assumption|].
    intros k Hk. apply mul_bool_nonneg. apply Hnn. rewrite Hsnb.
    now apply in_range_insert2. }
  exists T1. split; [assumption|]. split; [assumption|]. split.
  - intros idx Hin. rewrite HsT1 in Hin. rewrite (Hd idx Hin).
    apply mul_bool_nonneg. now apply Rlt_le, Hstep.
  - intros idx Hin Hpos. rewrite mask_shape in Hin. rewrite (Hd idx Hin).
    pose proof (Hstep idx Hin) as Hp.
    set (v := single_step_pixel _ _) in *.
    rewrite Rgtb_true by lra. unfold mul_bool. cbn [of_bool]. lra.
Qed.

Lemma smooth_sign (T1 : Tensor R) :
  shape T1 = b :: c :: sp -> nonnegative T1 -> positive_inside mask T1 ->
  exists T2, smooth bc aff T1 = Ok T2 /\
             shape T2 = b :: c :: sp /\ nonnegative T2 /\ positive_inside mask T2.
Proof.
  intros HsT1 HT1 Hpos1.
  destruct (smooth_spec bc bc_spec b c sp rank aff _
              (aff_agrees_self bc bc_spec mask b c sp mask_shape rank aff aff_ok)
              T1 HsT1)
    as (nb & T2 & Hnb & Hsnb & HT2 & [HsT2 Hd]).
  pose proof (sampled_nonneg T1 nb HT1 Hnb) as Hnn.
  assert (HK : 0 < INR (3 ^ length sp)).
  { apply lt_0_INR. pose proof (centre_below _ rank). lia. }
  assert (Hterms : forall idx, in_range (b :: c :: sp) idx ->
            forall v, In v (map (fun k => mul_bool (data nb (insert_at 2 k idx))
                                                   (data aff (insert_at 2 k idx)))
                                (seq 0 (3 ^ length sp))) -> 0 <= v).
  { intros idx Hin v Hv. apply in_map_iff in Hv as (k & <- & Hk).
    apply in_seq in Hk. apply mul_bool_nonneg. apply Hnn. rewrite Hsnb.
    apply in_range_insert2; [assumption|lia]. }
  exists T2. split; [assumption|]. split; [assumption|]. split.
  - intros idx Hin. rewrite HsT2 in Hin. rewrite (Hd idx Hin).
    apply Rmult_le_pos; [|now apply Rlt_le, Rinv_0_lt_compat].
    apply Rsum_nonneg. now apply Hterms.
  - intros idx Hin Hpos. rewrite mask_shape in Hin. rewrite (Hd idx Hin).
    apply Rdiv_lt_0_compat; [|assumption].
    apply Rsum_pos with
      (x := mul_bool (data nb (insert_at 2 (3 ^ length sp / 2)%nat idx))
                     (data aff (insert_at 2 (3 ^ length sp / 2)%nat idx))).
    + now apply Hterms.
    + apply in_map_iff. exists (3 ^ length sp / 2)%nat. split; [reflexivity|].
      apply in_seq. pose proof (centre_below _ rank). lia.
    + rewrite (aff_centre idx Hin Hpos).
      rewrite (bc_centre T1 nb b c sp HsT1 rank Hnb idx Hin).
      unfold mul_bool. cbn [of_bool].
      assert (0 < data T1 idx) by (apply Hpos1; [now rewrite mask_shape|assumption]).
      lra.
Qed.

Lemma loop_body_sign (st : loop_state) :
  shaped (b :: c :: sp) st -> nonnegative (st_T st) ->
  exists st', loop_body bc aff (gt0 mask) st = Ok st' /\
              shaped (b :: c :: sp) st' /\
              nonnegative (st_T st') /\ positive_inside mask (st_T st').
Proof.
  intros [HsT HsT0] HT.
  destruct (loop_body_spec bc bc_spec b c sp rank aff (gt0 mask) _ _
              (aff_agrees_self bc bc_spec mask b c sp mask_shape rank aff aff_ok)
              (sem_agrees mask b c sp mask_shape) st HsT HsT0)
    as (T1 & diff & st' & HT1 & HsT1 & _ & Hbody & _ & _ & Hsm & Hns & HsT' & HT0').
  destruct (update_pass_sign (st_T st) HsT HT) as (T1' & HT1' & _ & Hnn1 & Hpos1).
  rewrite HT1 in HT1'. injection HT1' as <-.
  exists st'. split; [assumption|]. split; [split; [assumption|apply HT0']|].
  destruct (Z.ltb_spec (st_t st) 1) as [Hlt|Hge].
  - destruct (smooth_sign T1 HsT1 Hnn1 Hpos1) as (T2 & HT2 & _ & Hnn2 & Hpos2).
    rewrite (Hsm Hlt) in HT2. injection HT2 as <-. now split.
  - rewrite (Hns Hge). now split.
Qed.

Lemma solve_loop_sign (eps : pyfloat) (min_steps : Z) (fuel : nat)
  (st st' : loop_state) :
  shaped (b :: c :: sp) st ->
  nonnegative (st_T st) -> positive_inside mask (st_T st) ->
  solve_loop bc fuel aff (gt0 mask) eps min_steps st = Ok st' ->
  nonnegative (st_T st') /\ positive_inside mask (st_T st').
Proof.
  revert st. induction fuel as [|fuel IH]; intros st Hsh Hnn Hpos H;
    cbn [solve_loop] in H;
    destruct (loop_guard eps min_steps st); try discriminate.
  - injection H as <-. now split.
  - destruct (loop_body_sign st Hsh Hnn) as (st1 & Hb & Hsh1 & Hnn1 & Hpos1).
    rewrite Hb in H. cbn [bind] in H. exact (IH st1 Hsh1 Hnn1 Hpos1 H).
  - injection H as <-. now split.
Qed.

End Sign.

(** The replicate sampler reads the field, and its centre entry is the pixel. *)
Lemma clamp_coord_below (n x : nat) (o : Z) : (x < n)%nat -> (clamp_coord n x o < n)%nat.
Proof. intros H. unfold clamp_coord. lia. Qed.

Lemma clamp_coord_centre (n x : nat) : (x < n)%nat -> clamp_coord n x 0 = x.
Proof. intros H. unfold clamp_coord. lia. Qed.

Lemma shift_index_in_range (sp : list nat) (xs : index) (k : nat) :
  in_range sp xs -> in_range sp (shift_index sp xs k).
Proof.
  intros H. induction H as [|x n xs sp Hx _ IH]; cbn [shift_index]; [constructor|].
  apply in_range_cons. split; [now apply clamp_coord_below|exact IH].
Qed.

Lemma binary_convolution_replicate_reads :
  sampler_reads_field binary_convolution_replicate.
Proof.
  intros t s Hs idx Hin.
  destruct (shape t) as [|b [|c sp]] eqn:Hshape;
    try (unfold binary_convolution_replicate in Hs; rewrite Hshape in Hs;
         discriminate).
  destruct (binary_convolution_replicate_shape t b c sp Hshape) as (s' & Hs' & Hss & Hd).
  rewrite Hs in Hs'. injection Hs' as <-. rewrite Hss in Hin.
  destruct (in_range_split3 _ _ _ _ _ Hin) as (bi & ci & k & xs & -> & Hb & Hc & _ & Hxs).
  exists (bi :: ci :: shift_index sp xs k). split; [|apply Hd].
  repeat (apply in_range_cons; split; [assumption|]).
  now apply shift_index_in_range.
Qed.

Lemma binary_convolution_replicate_centre :
  sampler_centre binary_convolution_replicate.
Proof.
  intros t s b c sp Hshape Hrank Hs idx Hin.
  destruct (binary_convolution_replicate_shape t b c sp Hshape) as (s' & Hs' & _ & Hd).
  rewrite Hs in Hs'. injection Hs' as <-.
  destruct (in_range_split2 _ _ _ _ Hin) as (bi & ci & xs & -> & _ & _ & Hxs).
  cbn [insert_at firstn skipn app]. rewrite Hd. do 3 f_equal.
  destruct Hrank as [Hlen|Hlen].
  - destruct sp as [|n1 [|n2 [|? ?]]]; try discriminate Hlen.
    split_index xs Hxs. cbn [length shift_index].
    change (Z.of_nat ((3 ^ 2 / 2 / 3 ^ 1) mod 3) - 1)%Z with 0%Z.
    change (Z.of_nat ((3 ^ 2 / 2 / 3 ^ 0) mod 3) - 1)%Z with 0%Z.
    now rewrite !clamp_coord_centre.
  - destruct sp as [|n1 [|n2 [|n3 [|? ?]]]]; try discriminate Hlen.
    split_index xs Hxs. cbn [length shift_index].
    change (Z.of_nat ((3 ^ 3 / 2 / 3 ^ 2) mod 3) - 1)%Z with 0%Z.
    change (Z.of_nat ((3 ^ 3 / 2 / 3 ^ 1) mod 3) - 1)%Z with 0%Z.
    change (Z.of_nat ((3 ^ 3 / 2 / 3 ^ 0) mod 3) - 1)%Z with 0%Z.
    now rewrite !clamp_coord_centre.
Qed.



(** ** The affinity mask *)

(** X18: lines 129-135 leave an affinity entry true exactly where the
    sampled neighbour label equals the label of the pixel itself and that
    label is positive: connections to other instances and every connection
    of a background pixel are removed.  The rank of the mask is not
    checked here. *)
Theorem affinity_joins_equal_positive_labels
  (binary_convolution : Tensor R -> result (Tensor R))
  (instance_mask nb : Tensor R) (b c K : nat) (sp : list nat) :
  shape instance_mask = b :: c :: sp ->
  binary_convolution instance_mask = Ok nb ->
  shape nb = b :: c :: K :: sp ->
  exists affinity_mask,
    make_affinity_mask binary_convolution instance_mask = Ok affinity_mask /\
    shape affinity_mask = b :: c :: K :: sp /\
    forall idx k, in_range (b :: c :: sp) idx -> (k < K)%nat ->
      (data affinity_mask (insert_at 2 k idx) = true <->
       data nb (insert_at 2 k idx) = data instance_mask idx /\
       0 < data instance_mask idx).
Proof.
  intros Hs Hnb Hsnb.
  destruct (make_affinity_mask_agrees binary_convolution instance_mask nb b c K sp
              Hs Hnb Hsnb) as (aff & Haff & Hsa & Hd).
  exists aff. split; [assumption|]. split; [assumption|].
  intros idx k Hin Hk.
  rewrite Hd by (now apply in_range_insert2).
  rewrite remove_insert2 by (rewrite (in_range_length _ _ Hin); simpl; lia).
  unfold Rneb, Rgtb.
  destruct (Req_dec_T (data nb (insert_at 2 k idx)) (data instance_mask idx))
    as [E|E].
  - rewrite E. destruct (Rgt_dec (data instance_mask idx) 0) as [Hp|Hp].
    + split; [intros _; split; [reflexivity|lra]|reflexivity].
    + split; [discriminate|intros [_ H]; lra].
  - destruct (Rgt_dec 0 0) as [Hp|Hp]; [lra|].
    split; [discriminate|intros [H _]; contradiction].
Qed.

Lemma affinity_joins_equal_positive_labels_witness :
  exists affinity_mask,
    make_affinity_mask binary_convolution_replicate two_pixel_mask
    = Ok affinity_mask /\
    data affinity_mask [0; 0; 4; 0; 0]%nat = true.
Proof.
  destruct (binary_convolution_replicate_shape two_pixel_mask 1 1 [1; 2]%nat eq_refl)
    as (nb & Hnb & Hs & Hd).
  destruct (affinity_joins_equal_positive_labels binary_convolution_replicate
              two_pixel_mask nb 1 1 9 [1; 2]%nat eq_refl Hnb Hs)
    as (aff & Haff & _ & H).
  exists aff. split; [exact Haff|].
  apply (H [0; 0; 0; 0]%nat 4%nat); [repeat constructor|lia|].
  cbn [insert_at firstn skipn app]. rewrite Hd. split; [reflexivity|cbn; lra].
Defined.
